(** * Quantization graph rewriting: a shallow embedding of
      [ilit/adaptor/tf_utils/quantize_graph/quantize_graph_base.py]

    The class [QuantizeNodeBase] is embedded as functions over an
    explicit object state [Self].  Python exceptions are values of
    [exn]; a method that reads and writes the object is a function
    [Self -> result (A * Self)], and a method that rewrites the nodes of
    a graph it was handed also returns those nodes as it leaves them.
    Dictionaries are [gmap]s, the [OrderedDict] of the graph index is an
    association list (its key order is observable through
    [list(keys())[k]]), protobuf repeated fields are lists, and floats
    are binary64 primitive floats, the format of Python's [float] (numpy
    computes on an array in the array's own format). *)

From Stdlib Require Import ZArith String Ascii List Bool Lia.
From Stdlib Require Import Floats.
From stdpp Require Import base option list strings pretty gmap.

Set Default Proof Using "Type".
#[local] Set Warnings "-inexact-float".

(** ** Exceptions and the result monad *)

Inductive exn :=
  | ValueError        (* duplicate node, list.index miss, empty reduction *)
  | KeyError          (* dict lookup of a missing key *)
  | IndexError        (* sequence index out of range *)
  | TypeError
  | AxisError         (* numpy: reduction axis out of bounds *)
  | UnboundLocalError (* a local read on a path that never assigned it *)
  | RecursionError.   (* the interpreter's recursion limit is exhausted *)

Inductive result (A : Type) :=
  | Ok (a : A)
  | Raise (e : exn).
Arguments Ok {A} a.
Arguments Raise {A} e.

Definition bind {A B} (m : result A) (k : A -> result B) : result B :=
  match m with
  | Ok a => k a
  | Raise e => Raise e
  end.

Notation "'let*' x ':=' m 'in' k" := (bind m (fun x => k))
  (at level 10, x name, m at level 100, k at level 200).
Notation "'let*' ' p ':=' m 'in' k" := (bind m (fun x => match x with p => k end))
  (at level 10, p pattern, m at level 100, k at level 200).

Definition is_Ok {A} (m : result A) : bool :=
  match m with Ok _ => true | Raise _ => false end.

(** [d[k]] on a Python dict and [l[i]] on a Python sequence. *)
Definition dict_getitem {V} (d : gmap string V) (k : string) : result V :=
  match d !! k with
  | Some v => Ok v
  | None => Raise KeyError
  end.

Definition list_getitem {A} (l : list A) (i : nat) : result A :=
  match l !! i with
  | Some a => Ok a
  | None => Raise IndexError
  end.

(** A left-to-right loop whose body may raise. *)
Fixpoint for_each {A S} (body : S -> A -> result S) (l : list A) (s : S) : result S :=
  match l with
  | [] => Ok s
  | a :: l' => let* s' := body s a in for_each body l' s'
  end.

(** ** Data model: dtypes, attribute values, nodes and graphs *)

Module dtypes.
(** The members of [tensorflow.python.framework.dtypes] the file names,
    plus [invalid] for the enum value 0 an attribute without a type
    reads as. *)
Inductive DType := invalid | float32 | int32 | qint8 | quint8 | qint32.

Definition eqb (a b : DType) : bool :=
  match a, b with
  | invalid, invalid | float32, float32 | int32, int32
  | qint8, qint8 | quint8, quint8 | qint32, qint32 => true
  | _, _ => false
  end.
End dtypes.

(** A numpy array: shape and the elements in C (row-major) order. *)
Record ndarray (A : Type) := mk_ndarray { shape : list nat; data : list A }.
Arguments mk_ndarray {A} shape data.
Arguments shape {A} n.
Arguments data {A} n.

(** The Python values handed to [create_constant_node]. *)
Inductive const_value :=
  | value_int (z : Z)
  | value_float (f : float)
  | value_floats (a : ndarray float)
  | value_int8s (a : ndarray Z).

Inductive tensor_content :=
  | float_val (l : list float)
  | int_val (l : list Z).

Record TensorProto := {
  tensor_dtype : dtypes.DType;
  tensor_shape : list nat;
  tensor_values : tensor_content;
}.

(** [AttrValue]: a protobuf oneof. *)
Inductive AttrValue :=
  | AttrValue_unset
  | AttrValue_type (t : dtypes.DType)
  | AttrValue_s (s : string)
  | AttrValue_b (b : bool)
  | AttrValue_f (f : float)
  | AttrValue_tensor (t : TensorProto).

Definition list_eqb {A} (eqb : A -> A -> bool) : list A -> list A -> bool :=
  fix go l1 l2 :=
    match l1, l2 with
    | [], [] => true
    | a :: l1', b :: l2' => eqb a b && go l1' l2'
    | _, _ => false
    end.

Definition tensor_content_eqb (a b : tensor_content) : bool :=
  match a, b with
  | float_val x, float_val y => list_eqb PrimFloat.eqb x y
  | int_val x, int_val y => list_eqb Z.eqb x y
  | _, _ => false
  end.

(** Message equality, as [!=] on two [AttrValue]s computes it. *)
Definition AttrValue_eqb (a b : AttrValue) : bool :=
  match a, b with
  | AttrValue_unset, AttrValue_unset => true
  | AttrValue_type x, AttrValue_type y => dtypes.eqb x y
  | AttrValue_s x, AttrValue_s y => String.eqb x y
  | AttrValue_b x, AttrValue_b y => Bool.eqb x y
  | AttrValue_f x, AttrValue_f y => PrimFloat.eqb x y
  | AttrValue_tensor x, AttrValue_tensor y =>
      dtypes.eqb (tensor_dtype x) (tensor_dtype y)
      && list_eqb Nat.eqb (tensor_shape x) (tensor_shape y)
      && tensor_content_eqb (tensor_values x) (tensor_values y)
  | _, _ => false
  end.

(** [NodeDef]: [input] is the repeated string field, [attr] the
    string-keyed attribute map. *)
Record NodeDef := {
  name : string;
  op : string;
  input : list string;
  attr : gmap string AttrValue;
  node_device : option string;   (* [None]: left to the helper's default *)
}.

Definition GraphDef := list NodeDef.

(** [node.attr[key]]: a missing key reads as the default [AttrValue].
    (The protobuf map also stores that default under the key; no
    comparison below can tell the difference.  Where the node read ends
    up in a graph that is returned, the read is [attr_read], which
    keeps the stored default.) *)
Definition attr_get (n : NodeDef) (key : string) : AttrValue :=
  default AttrValue_unset (attr n !! key).

(** [attr_value.type]: the enum, 0 when the oneof holds something else. *)
Definition AttrValue_type_of (a : AttrValue) : dtypes.DType :=
  match a with
  | AttrValue_type t => t
  | _ => dtypes.invalid
  end.

Definition set_input (n : NodeDef) (l : list string) : NodeDef :=
  {| name := name n; op := op n; input := l; attr := attr n;
     node_device := node_device n |}.

Definition set_attr (n : NodeDef) (key : string) (v : AttrValue) : NodeDef :=
  {| name := name n; op := op n; input := input n;
     attr := <[key := v]> (attr n); node_device := node_device n |}.

(** ** The helper class [QuantizeGraphHelper]

    [QuantizeGraphHelper] lives in [quantize_graph_common.py], a sibling
    module.  Its three operations on input references are kept abstract
    (a class whose instance every definition below takes), so that what
    is proved holds for any implementation of them; its node constructors
    are modelled below. *)

Class QuantizeGraphHelper := {
  node_name_from_input : string -> string;
  ensure_tensor_name_has_port : string -> string;
  unique_node_name_from_input : string -> string;
}.

Module helper.

(** Modelled from the spec: [helper.create_node(op, name, inputs)] is
    missing; a node is "a named operation instance" with an op kind and
    ordered inputs, created with an empty attribute map. *)
Definition create_node (op_ name_ : string) (inputs : list string) : NodeDef :=
  {| name := name_; op := op_; input := inputs; attr := ∅; node_device := None |}.

(** Modelled from the spec: the [helper.set_attr_*] setters are missing;
    the typed-attribute map holds "data-type tags, tensor payloads for
    constants, string/bool/float scalars" under string keys. *)
Definition set_attr_dtype (n : NodeDef) (key : string) (t : dtypes.DType) : NodeDef :=
  set_attr n key (AttrValue_type t).
Definition set_attr_string (n : NodeDef) (key : string) (s : string) : NodeDef :=
  set_attr n key (AttrValue_s s).
Definition set_attr_bool (n : NodeDef) (key : string) (b : bool) : NodeDef :=
  set_attr n key (AttrValue_b b).
Definition set_attr_float (n : NodeDef) (key : string) (f : float) : NodeDef :=
  set_attr n key (AttrValue_f f).

Definition value_shape (v : const_value) : list nat :=
  match v with
  | value_int _ | value_float _ => []
  | value_floats a => shape a
  | value_int8s a => shape a
  end.

Definition value_content (v : const_value) : tensor_content :=
  match v with
  | value_int z => int_val [z]
  | value_float f => float_val [f]
  | value_floats a => float_val (data a)
  | value_int8s a => int_val (data a)
  end.

(** Modelled from the spec: [helper.create_constant_node(name, value,
    dtype, shape, device)] is missing; "a constant node additionally
    owns an embedded tensor payload (shape + raw values)", and the
    target device tag is "attached to emitted constant nodes". *)
Definition create_constant_node (name_ : string) (value : const_value)
    (dtype : dtypes.DType) (shape_ : option (list nat)) (device_ : option string) : NodeDef :=
  let n := {| name := name_; op := "Const"; input := []; attr := ∅;
              node_device := device_ |} in
  let n := set_attr_dtype n "dtype" dtype in
  set_attr n "value"
    (AttrValue_tensor {| tensor_dtype := dtype;
                         tensor_shape := default (value_shape value) shape_;
                         tensor_values := value_content value |}).

End helper.

(** ** Object state of [QuantizeNodeBase] *)

Record node_details := {
  node : NodeDef;
  input_node : list string;
  output : list string;
}.

(** [OrderedDict]: association list in insertion order, keys unique. *)
Definition OrderedDict (V : Type) := list (string * V).

Fixpoint od_get {V} (d : OrderedDict V) (k : string) : result V :=
  match d with
  | [] => Raise KeyError
  | (k', v) :: d' => if String.eqb k' k then Ok v else od_get d' k
  end.

Definition od_keys {V} (d : OrderedDict V) : list string := map fst d.

Fixpoint od_contains {V} (d : OrderedDict V) (k : string) : bool :=
  match d with
  | [] => false
  | (k', _) :: d' => String.eqb k' k || od_contains d' k
  end.

Definition quantized_tuple := (string * string * string)%type.

Record Self := {
  input_graph : GraphDef;
  node_name_mapping : OrderedDict node_details;
  op_list : list string;
  output_node_names : list string;
  output_node_maps : gmap string NodeDef;
  output_graph : GraphDef;
  quantized_node_dict : gmap string quantized_tuple;
  intel_cpu_eightbitize : bool;
  patterns : list (list string);
  per_channel : bool;
  start_node_name : string;
  is_asymmetric : bool;
  device : string;
  enable_s8 : bool;
}.

Definition with_output (self : Self) (g : GraphDef) (m : gmap string NodeDef) : Self :=
  {| input_graph := input_graph self;
     node_name_mapping := node_name_mapping self;
     op_list := op_list self;
     output_node_names := output_node_names self;
     output_node_maps := m;
     output_graph := g;
     quantized_node_dict := quantized_node_dict self;
     intel_cpu_eightbitize := intel_cpu_eightbitize self;
     patterns := patterns self;
     per_channel := per_channel self;
     start_node_name := start_node_name self;
     is_asymmetric := is_asymmetric self;
     device := device self;
     enable_s8 := enable_s8 self |}.

Definition with_op_list (self : Self) (l : list string) : Self :=
  {| input_graph := input_graph self;
     node_name_mapping := node_name_mapping self;
     op_list := l;
     output_node_names := output_node_names self;
     output_node_maps := output_node_maps self;
     output_graph := output_graph self;
     quantized_node_dict := quantized_node_dict self;
     intel_cpu_eightbitize := intel_cpu_eightbitize self;
     patterns := patterns self;
     per_channel := per_channel self;
     start_node_name := start_node_name self;
     is_asymmetric := is_asymmetric self;
     device := device self;
     enable_s8 := enable_s8 self |}.

Definition with_quantized_node_dict (self : Self) (d : gmap string quantized_tuple) : Self :=
  {| input_graph := input_graph self;
     node_name_mapping := node_name_mapping self;
     op_list := op_list self;
     output_node_names := output_node_names self;
     output_node_maps := output_node_maps self;
     output_graph := output_graph self;
     quantized_node_dict := d;
     intel_cpu_eightbitize := intel_cpu_eightbitize self;
     patterns := patterns self;
     per_channel := per_channel self;
     start_node_name := start_node_name self;
     is_asymmetric := is_asymmetric self;
     device := device self;
     enable_s8 := enable_s8 self |}.

(** ** The output graph and its registry *)

(** [_add_output_node]: register, or fail on a name seen before. *)
Definition _add_output_node (self : Self) (node_name : string) (n : NodeDef) : result Self :=
  match output_node_maps self !! node_name with
  | None => Ok (with_output self (output_graph self) (<[node_name := n]> (output_node_maps self)))
  | Some _ => Raise ValueError
  end.

Definition _reset_output_node_maps (self : Self) : Self :=
  with_output self (output_graph self) ∅.

(** [add_output_graph_node]: the node is appended to the output graph
    first and registered second. *)
Definition add_output_graph_node (self : Self) (output_node : NodeDef) : result Self :=
  let self := with_output self (output_graph self ++ [output_node]) (output_node_maps self) in
  _add_output_node self (name output_node) output_node.

(** ** String tests used on op kinds and input references *)

(** [s.find(sub) != -1] *)
Definition str_find (sub s : string) : bool :=
  match String.index 0 sub s with
  | Some _ => true
  | None => false
  end.

(** [s in (a, b, ...)] *)
Definition str_in (s : string) (l : list string) : bool :=
  existsb (String.eqb s) l.

(** [s[0] == '^']: indexing the empty string raises. *)
Definition is_control_input (s : string) : result bool :=
  match s with
  | EmptyString => Raise IndexError
  | String c _ => Ok (Ascii.eqb c "^"%char)
  end.

Section QuantizeNodeBase.
Context `{QuantizeGraphHelper}.

(** The interpreter's recursion limit: how many nested calls of
    [_find_relu_node] fit before [RecursionError]. *)
Variable recursion_limit : nat.

Definition _need_to_check (node_type : string) : bool :=
  existsb (fun i => str_find i node_type)
    ["ConcatV2"; "Conv2D"; "DepthwiseConv2D"; "QuantizeV2";
     "DepthwiseConv2dNative"; "MaxPool"; "Requantize"; "AvgPool";
     "Pad"; "CropAndResize"; "Dequantize"; "Mean"; "MatMul"].

Fixpoint _find_relu_node_rec (depth : nat) (self : Self) (n : NodeDef) : result bool :=
  match depth with
  | 0 => Raise RecursionError
  | S depth' =>
      if str_in (op n) ["Relu"; "Relu6"] || str_find "AndRelu" (op n) then Ok true
      else if (str_find "QuantizedConv" (op n)
               || str_find "QuantizedDepthwiseConv" (op n)
               || str_find "QuantizedMatMul" (op n))
              && negb (str_find "Relu" (op n)) then Ok false
      else if _need_to_check (op n) then
        let* i0 := list_getitem (input n) 0 in
        let* input_node := od_get (node_name_mapping self) (node_name_from_input i0) in
        _find_relu_node_rec depth' self (node input_node)
      else Ok false
  end.

Definition _find_relu_node (self : Self) (n : NodeDef) : result bool :=
  _find_relu_node_rec recursion_limit self n.

Definition _get_op_list (self : Self) : Self :=
  with_op_list self (map (fun kv => op (node (snd kv))) (node_name_mapping self)).

(** ** Synthesis of the quantize prologue *)

Definition _add_common_quantization_nodes (self : Self) (namespace_prefix : string)
    (control_input_names : string) : result ((string * string) * Self) :=
  let reshape_dims_name := namespace_prefix +:+ "_reshape_dims" in
  let reduction_dims_name := namespace_prefix +:+ "_reduction_dims" in
  let reshape_dims_node :=
    helper.create_constant_node reshape_dims_name (value_int (-1)) dtypes.int32 (Some [1]) None in
  let reshape_dims_node :=
    if String.eqb control_input_names "" then reshape_dims_node
    else set_input reshape_dims_node (input reshape_dims_node ++ ["^" +:+ control_input_names]) in
  let* self := add_output_graph_node self reshape_dims_node in
  let reduction_dims_node :=
    helper.create_constant_node reduction_dims_name (value_int 0) dtypes.int32 (Some [1]) None in
  let reduction_dims_node :=
    if String.eqb control_input_names "" then reduction_dims_node
    else set_input reduction_dims_node (input reduction_dims_node ++ ["^" +:+ control_input_names]) in
  let* self := add_output_graph_node self reduction_dims_node in
  Ok ((reshape_dims_name, reduction_dims_name), self).

(** [_eightbitize_input_to_node]: takes one float input to an op and
    converts it to quantized form, once per memo key. *)
Definition _eightbitize_input_to_node (self : Self)
    (namespace_prefix original_input_name reshape_dims_name reduction_dims_name : string)
    (dtype : dtypes.DType) : result (quantized_tuple * Self) :=
  let unique_input_name := unique_node_name_from_input original_input_name in
  match quantized_node_dict self !! unique_input_name with
  | Some quantized_tuple => Ok (quantized_tuple, self)
  | None =>
      let reshape_input_name := namespace_prefix +:+ "_reshape_" +:+ unique_input_name in
      let min_input_name := namespace_prefix +:+ "_min_" +:+ unique_input_name in
      let max_input_name := namespace_prefix +:+ "_max_" +:+ unique_input_name in
      let quantize_input_name := namespace_prefix +:+ "_quantize_" +:+ unique_input_name in
      let reshape_input_node :=
        helper.create_node "Reshape" reshape_input_name
          [original_input_name; reshape_dims_name] in
      let reshape_input_node := helper.set_attr_dtype reshape_input_node "T" dtypes.float32 in
      let* self := add_output_graph_node self reshape_input_node in
      let min_input_node :=
        helper.create_node "Min" min_input_name [reshape_input_name; reduction_dims_name] in
      let min_input_node := helper.set_attr_dtype min_input_node "T" dtypes.float32 in
      let min_input_node := helper.set_attr_dtype min_input_node "Tidx" dtypes.int32 in
      let min_input_node := helper.set_attr_bool min_input_node "keep_dims" false in
      let* self := add_output_graph_node self min_input_node in
      let max_input_node :=
        helper.create_node "Max" max_input_name [reshape_input_name; reduction_dims_name] in
      let max_input_node := helper.set_attr_dtype max_input_node "T" dtypes.float32 in
      let max_input_node := helper.set_attr_dtype max_input_node "Tidx" dtypes.int32 in
      let max_input_node := helper.set_attr_bool max_input_node "keep_dims" false in
      let* self := add_output_graph_node self max_input_node in
      let quantize_input_node :=
        helper.create_node "QuantizeV2" quantize_input_name
          [original_input_name; min_input_name; max_input_name] in
      let quantize_input_node := helper.set_attr_dtype quantize_input_node "T" dtype in
      let quantize_input_node :=
        helper.set_attr_string quantize_input_node "mode"
          (if is_asymmetric self then "MIN_FIRST" else "SCALED") in
      let quantize_input_node :=
        if negb (is_asymmetric self)
        then helper.set_attr_string quantize_input_node "round_mode" "HALF_TO_EVEN"
        else quantize_input_node in
      let* self := add_output_graph_node self quantize_input_node in
      let min_output_name := quantize_input_name +:+ ":1" in
      let max_output_name := quantize_input_name +:+ ":2" in
      let self :=
        with_quantized_node_dict self
          (<[unique_input_name := (quantize_input_name, min_output_name, max_output_name)]>
             (quantized_node_dict self)) in
      Ok ((quantize_input_name, min_output_name, max_output_name), self)
  end.

(** [dtypes.DType(type_enum)]: the enum value 0, which an attribute
    that holds no type reads as, is no data type. *)
Definition DType_of_enum (type_enum : dtypes.DType) : result dtypes.DType :=
  match type_enum with
  | dtypes.invalid => Raise TypeError
  | _ => Ok type_enum
  end.

(** The dtype chosen for one float input of the anchor [original_node]
    (the [if]/[else] of lines 313-334 of [_add_eightbit_prologue_nodes]). *)
Definition prologue_dtype (self : Self) (original_node input_node_name : string)
    : result dtypes.DType :=
  if intel_cpu_eightbitize self
     && bool_decide (is_Some (output_node_maps self !! input_node_name))
  then
    let* emitted := dict_getitem (output_node_maps self) input_node_name in
    if String.eqb (op emitted) "Dequantize"
    then DType_of_enum (AttrValue_type_of (attr_get emitted "T"))
    else
      let* anchor := od_get (node_name_mapping self) original_node in
      let* relu := _find_relu_node self (node anchor) in
      if relu then Ok dtypes.quint8
      else
        let* anchor := od_get (node_name_mapping self) original_node in
        if String.eqb (op (node anchor)) "MatMul" then Ok dtypes.quint8
        else Ok dtypes.qint8
  else
    let* anchor := od_get (node_name_mapping self) original_node in
    let* relu := _find_relu_node self (node anchor) in
    Ok (if relu then dtypes.quint8 else dtypes.qint8).

(** Loop state of [_add_eightbit_prologue_nodes]: the object, then
    [input_names] and [min_max_names]. *)
Definition prologue_step (original_node namespace_prefix reshape_dims_name
    reduction_dims_name : string)
    (st : Self * list string * list string) (each_input_name : string)
    : result (Self * list string * list string) :=
  let '(self, input_names, min_max_names) := st in
  let* ctl := is_control_input each_input_name in
  if ctl then Ok st
  else
    let input_node_name := node_name_from_input each_input_name in
    let* dtype := prologue_dtype self original_node input_node_name in
    let* '((quantize_input_name, min_input_name, max_input_name), self) :=
      _eightbitize_input_to_node self namespace_prefix each_input_name
        reshape_dims_name reduction_dims_name dtype in
    Ok (self, input_names ++ [quantize_input_name],
        min_max_names ++ [min_input_name; max_input_name]).

Definition _add_eightbit_prologue_nodes (self : Self) (original_node : string)
    : result (list string * Self) :=
  let namespace_prefix := original_node +:+ "_eightbit" in
  let* anchor := od_get (node_name_mapping self) original_node in
  let* first_input := list_getitem (input (node anchor)) 0 in
  let* '((reshape_dims_name, reduction_dims_name), self) :=
    _add_common_quantization_nodes self namespace_prefix
      (node_name_from_input first_input) in
  let* anchor := od_get (node_name_mapping self) original_node in
  let* '(self, input_names, min_max_names) :=
    for_each (prologue_step original_node namespace_prefix reshape_dims_name
                reduction_dims_name)
      (input (node anchor)) (self, [], []) in
  let all_input_names := input_names ++ min_max_names in
  let* anchor := od_get (node_name_mapping self) original_node in
  let* all_input_names :=
    for_each (fun acc original_input_name =>
                let* ctl := is_control_input original_input_name in
                Ok (if ctl then acc ++ [original_input_name] else acc))
      (input (node anchor)) all_input_names in
  Ok (all_input_names, self).

(** ** Epilogues *)

Definition _intel_cpu_add_dequantize_result_node (self : Self)
    (quantized_output_name original_node_name : string)
    (dtype : dtypes.DType) (min_tensor_index : nat) : result Self :=
  let min_max_inputs :=
    [quantized_output_name +:+ ":" +:+ pretty min_tensor_index;
     quantized_output_name +:+ ":" +:+ pretty (min_tensor_index + 1)] in
  let dequantize_name := original_node_name in
  let* mn := list_getitem min_max_inputs 0 in
  let* mx := list_getitem min_max_inputs 1 in
  let dequantize_node :=
    helper.create_node "Dequantize" dequantize_name [quantized_output_name; mn; mx] in
  let dequantize_node := helper.set_attr_dtype dequantize_node "T" dtype in
  let dequantize_node :=
    helper.set_attr_string dequantize_node "mode"
      (if is_asymmetric self then "MIN_FIRST" else "SCALED") in
  add_output_graph_node self dequantize_node.

(** [add_op_function] fills in the attributes of the quantized node. *)
Definition eightbitize_single_input_tensor_node (self : Self) (original_node : NodeDef)
    (add_op_function : NodeDef -> NodeDef -> NodeDef) : result Self :=
  let quantized_op_name := name original_node +:+ "_eightbit_quantized" in
  let quantized_op_type := "Quantized" +:+ op original_node in
  let* '(all_input_names, self) := _add_eightbit_prologue_nodes self (name original_node) in
  let quantized_op_node :=
    helper.create_node quantized_op_type quantized_op_name all_input_names in
  let quantized_op_node := add_op_function original_node quantized_op_node in
  let* self := add_output_graph_node self quantized_op_node in
  _intel_cpu_add_dequantize_result_node self quantized_op_name (name original_node)
    dtypes.quint8 1.

Definition _add_quantize_down_nodes (self : Self) (original_node : NodeDef)
    (quantized_output_name : string) (requantize_type : dtypes.DType) (is_relu6 : bool)
    : result (string * Self) :=
  let quantized_outputs :=
    [quantized_output_name; quantized_output_name +:+ ":1";
     quantized_output_name +:+ ":2"] in
  let requant_range_node :=
    helper.create_node
      (if per_channel self then "RequantizationRangePerChannel" else "RequantizationRange")
      (name original_node +:+ "_eightbit_requant_range") quantized_outputs in
  let requant_range_node :=
    if per_channel self then
      let n := helper.set_attr_dtype requant_range_node "T" dtypes.qint32 in
      if is_relu6 then helper.set_attr_float n "clip_value_max" 6.0%float
      else helper.set_attr_float n "clip_value_max" 1e30%float
    else helper.set_attr_dtype requant_range_node "Tinput" dtypes.qint32 in
  let* self := add_output_graph_node self requant_range_node in
  let min_max_inputs :=
    [name requant_range_node +:+ ":0"; name requant_range_node +:+ ":1"] in
  let requantize_node :=
    helper.create_node
      (if per_channel self then "RequantizePerChannel" else "Requantize")
      (name original_node +:+ "_eightbit_requantize")
      (quantized_outputs ++ min_max_inputs) in
  let requantize_node :=
    if per_channel self then helper.set_attr_dtype requantize_node "T" dtypes.qint32
    else helper.set_attr_dtype requantize_node "Tinput" dtypes.qint32 in
  let requantize_node := helper.set_attr_dtype requantize_node "out_type" requantize_type in
  let* self := add_output_graph_node self requantize_node in
  Ok (name requantize_node, self).

(** ** The graph index *)

(** [mapping[k].output.append(consumer)] *)
Fixpoint od_append_output (d : OrderedDict node_details) (k consumer : string)
    : result (OrderedDict node_details) :=
  match d with
  | [] => Raise KeyError
  | (k', v) :: d' =>
      if String.eqb k' k
      then Ok ((k', {| node := node v; input_node := input_node v;
                       output := output v ++ [consumer] |}) :: d')
      else let* d'' := od_append_output d' k consumer in Ok ((k', v) :: d'')
  end.

(** [_parse_graph]: one pass establishes node identity, a second appends
    every referencing node to the consumer list of the node referenced. *)
Definition _parse_graph (graph : GraphDef) : result (OrderedDict node_details) :=
  let* mapping :=
    for_each (fun mapping n =>
                let each_node := {| node := n; input_node := []; output := [] |} in
                if od_contains mapping (name n) then Raise ValueError
                else Ok (mapping ++ [(name n, each_node)]))
      graph [] in
  for_each (fun mapping n =>
              for_each (fun mapping i =>
                          od_append_output mapping (node_name_from_input i) (name n))
                (input n) mapping)
    graph mapping.

(** [__init__], for a graph passed in memory.  [tf_has_s8] is the test
    on [tf.version.VERSION]: false before 2.1.0, except for 1.15.0-up1.
    [op_list] is filled in by [_get_op_list] afterwards. *)
Definition __init__ (tf_has_s8 : bool) (input_graph_ : GraphDef)
    (output_node_names_ : list string) (patterns_ : list (list string))
    (per_channel_ : bool) (start_node_name_ : string) (device_ : string)
    (is_asymmetric_ enable_s8_ : bool) : result Self :=
  let* mapping := _parse_graph input_graph_ in
  Ok {| input_graph := input_graph_;
        node_name_mapping := mapping;
        op_list := [];
        output_node_names := output_node_names_;
        output_node_maps := ∅;
        output_graph := [];
        quantized_node_dict := ∅;
        intel_cpu_eightbitize := true;
        patterns := patterns_;
        per_channel := per_channel_;
        start_node_name := start_node_name_;
        is_asymmetric := is_asymmetric_;
        device := device_;
        enable_s8 := if negb tf_has_s8 then false else enable_s8_ |}.

(** ** The fusion matcher *)

(** [l.index(x)] *)
Fixpoint list_index_of (l : list string) (x : string) : result nat :=
  match l with
  | [] => Raise ValueError
  | y :: l' => if String.eqb y x then Ok 0
               else let* i := list_index_of l' x in Ok (S i)
  end.

(** The [for index, input_name in enumerate(next_node_inputs)] loop of
    the Add/AddN check; the result is [add_op_quantizable]. *)
Fixpoint add_op_scan (self : Self) (cur_node_name : string) (cur_node_index index : nat)
    (next_node_inputs : list string) : result bool :=
  match next_node_inputs with
  | [] => Ok true
  | input_name :: rest =>
      let* d := od_get (node_name_mapping self) (node_name_from_input input_name) in
      let node_type := op (node d) in
      if negb (String.eqb input_name cur_node_name)
         && (index <? cur_node_index)%nat
         && negb (String.eqb node_type "Dequantize")
      then Ok false
      else add_op_scan self cur_node_name cur_node_index (S index) rest
  end.

Definition add_op_quantizable (self : Self) (cur_node_name next_node_name next_node_op : string)
    : result bool :=
  if str_in next_node_op ["Add"; "AddN"] then
    let* next := od_get (node_name_mapping self) next_node_name in
    let next_node_inputs := input (node next) in
    let* cur_node_index := list_index_of next_node_inputs cur_node_name in
    add_op_scan self cur_node_name cur_node_index 0 next_node_inputs
  else Ok true.

(** The [while sub_rule_len > 1] loop.  [remaining] is [sub_rule_len - 1];
    the result is the pair [(sub_rule_len, matched_node_name)] the loop
    ends with.  [sub_rule[1 - sub_rule_len]] is a negative index: it
    counts from the end of the rule. *)
Fixpoint match_chain (self : Self) (sub_rule : list string) (remaining : nat)
    (cur_node_name : string) (matched_node_name : list string)
    : result (nat * list string) :=
  match remaining with
  | 0 => Ok (1, matched_node_name)
  | S remaining' =>
      let sub_rule_len := S remaining in
      let* cur := od_get (node_name_mapping self) cur_node_name in
      match output cur with
      | [] => Ok (sub_rule_len, matched_node_name)
      | next_node_name :: _ =>
          let* next := od_get (node_name_mapping self) next_node_name in
          let next_node_op := op (node next) in
          let* quantizable :=
            add_op_quantizable self cur_node_name next_node_name next_node_op in
          let is_shared_output := (1 <? length (output cur))%nat in
          let* op_matches :=
            if quantizable && negb is_shared_output then
              let* expected :=
                list_getitem sub_rule (length sub_rule + 1 - sub_rule_len) in
              Ok (String.eqb next_node_op expected)
            else Ok false in
          if op_matches
          then match_chain self sub_rule remaining' next_node_name
                 (matched_node_name ++ [next_node_name])
          else Ok (sub_rule_len, [])
      end
  end.

(** The [for sub_rule in patterns] loop at the anchor with index [k]. *)
Fixpoint try_rules (self : Self) (v : string) (k : nat) (rules : list (list string))
    : result (option (list string * list string)) :=
  match rules with
  | [] => Ok None
  | sub_rule :: rules' =>
      let* first := list_getitem sub_rule 0 in
      if negb (String.eqb v first) then try_rules self v k rules'
      else
        let sub_rule_len := length sub_rule in
        let* cur_node_name := list_getitem (od_keys (node_name_mapping self)) k in
        let* '(sub_rule_len, matched_node_name) :=
          match_chain self sub_rule (sub_rule_len - 1) cur_node_name [cur_node_name] in
        if (sub_rule_len =? 1)%nat then Ok (Some (sub_rule, matched_node_name))
        else try_rules self v k rules'
  end.

(** [set(fusion[0] for fusion in patterns)] *)
Fixpoint first_ops (rules : list (list string)) : result (list string) :=
  match rules with
  | [] => Ok []
  | fusion :: rules' =>
      let* f := list_getitem fusion 0 in
      let* fs := first_ops rules' in
      Ok (f :: fs)
  end.

(** The [for k, v in enumerate(self.op_list)] loop, from index [k] on. *)
Fixpoint scan_anchors (self : Self) (rules : list (list string)) (k : nat)
    (ops : list string) : result (option (list string * list string)) :=
  match ops with
  | [] => Ok None
  | v :: ops' =>
      let* firsts := first_ops rules in
      if str_in v firsts then
        let* key := list_getitem (od_keys (node_name_mapping self)) k in
        let* d := od_get (node_name_mapping self) key in
        let cur_node := node d in
        if negb (String.eqb (name cur_node) (start_node_name self))
        then scan_anchors self rules (S k) ops'
        else
          let* skip :=
            if str_in v ["Conv2D"; "DepthwiseConv2dNative"] && negb (enable_s8 self)
            then let* relu := _find_relu_node self cur_node in Ok (negb relu)
            else Ok false in
          if skip then scan_anchors self rules (S k) ops'
          else
            let* r := try_rules self v k rules in
            match r with
            | Some m => Ok (Some m)
            | None => scan_anchors self rules (S k) ops'
            end
      else scan_anchors self rules (S k) ops'
  end.

(** [_is_match]: [None] stands for the pair [(None, None)]. *)
Definition _is_match (self : Self) (rules : list (list string))
    : result (option (list string * list string)) :=
  scan_anchors self rules 0 (op_list self).

(** ** The redundant-quantization eliminator *)

Definition create_nodes_map (graph : GraphDef) : result (gmap string NodeDef) :=
  for_each (fun nodes_map n =>
              match nodes_map !! name n with
              | None => Ok (<[name n := n]> nodes_map)
              | Some _ => Raise ValueError
              end)
    graph ∅.

(** Lines 447-460: do the min and the max input come from the same
    tensor, directly or through [Concat] and a second [Min]? *)
Definition is_same_input (old_nodes_map : gmap string NodeDef)
    (min_node_input_name max_node_input_name : string) : result bool :=
  if String.eqb min_node_input_name max_node_input_name then Ok true
  else
    let* first_min_node_input := dict_getitem old_nodes_map min_node_input_name in
    if String.eqb (op first_min_node_input) "Concat" then
      let* i1 := list_getitem (input first_min_node_input) 1 in
      let second_min_node_name := node_name_from_input i1 in
      let* second_min_node := dict_getitem old_nodes_map second_min_node_name in
      if String.eqb (op second_min_node) "Min" then
        let* i0 := list_getitem (input second_min_node) 0 in
        let second_min_node_input_name := node_name_from_input i0 in
        Ok (String.eqb second_min_node_input_name max_node_input_name)
      else Ok false
    else Ok false.

(** Body of the first loop of [remove_redundant_quantization]: examine
    one node and extend [inputs_to_rename]; [continue] leaves it as is. *)
Definition scan_node (old_nodes_map : gmap string NodeDef)
    (inputs_to_rename : gmap string string) (n : NodeDef) : result (gmap string string) :=
  if negb (str_in (op n) ["Quantize"; "QuantizeV2"]) then Ok inputs_to_rename
  else
    let* i0 := list_getitem (input n) 0 in
    let dequantize_node_name := node_name_from_input i0 in
    match old_nodes_map !! dequantize_node_name with
    | None => Raise ValueError
    | Some dequantize_node =>
        if negb (String.eqb (op dequantize_node) "Dequantize") then Ok inputs_to_rename
        else if negb (AttrValue_eqb (attr_get n "T") (attr_get dequantize_node "T"))
        then Ok inputs_to_rename
        else
          let* i1 := list_getitem (input n) 1 in
          let min_node_name := node_name_from_input i1 in
          let* i2 := list_getitem (input n) 2 in
          let max_node_name := node_name_from_input i2 in
          let* min_node := dict_getitem old_nodes_map min_node_name in
          let* max_node := dict_getitem old_nodes_map max_node_name in
          let is_min_right_type := str_in (op min_node) ["Min"; "Dequantize"] in
          let is_max_right_type := str_in (op max_node) ["Max"; "Dequantize"] in
          if negb is_min_right_type || negb is_max_right_type then Ok inputs_to_rename
          else
            let* mi0 := list_getitem (input min_node) 0 in
            let min_node_input_name := node_name_from_input mi0 in
            let* ma0 := list_getitem (input max_node) 0 in
            let max_node_input_name := node_name_from_input ma0 in
            let* same := is_same_input old_nodes_map min_node_input_name max_node_input_name in
            if negb same then Ok inputs_to_rename
            else
              let* d0 := list_getitem (input dequantize_node) 0 in
              let dequantize_source_name := node_name_from_input d0 in
              let node_tensor_name := ensure_tensor_name_has_port (name n) in
              let min_tensor_name := name n +:+ ":1" in
              let max_tensor_name := name n +:+ ":2" in
              let inputs_to_rename :=
                <[node_tensor_name := dequantize_source_name]> inputs_to_rename in
              let* d1 := list_getitem (input dequantize_node) 1 in
              let inputs_to_rename := <[min_tensor_name := d1]> inputs_to_rename in
              let* d2 := list_getitem (input dequantize_node) 2 in
              let inputs_to_rename := <[max_tensor_name := d2]> inputs_to_rename in
              Ok inputs_to_rename
    end.

(** [node.input[index] = inputs_to_rename[input_name]], for every index
    whose port-qualified name is a key. *)
Definition rewire_input (inputs_to_rename : gmap string string) (input_full_name : string)
    : string :=
  let input_name := ensure_tensor_name_has_port input_full_name in
  match inputs_to_rename !! input_name with
  | Some target => target
  | None => input_full_name
  end.

Definition rewire_node (inputs_to_rename : gmap string string) (n : NodeDef) : NodeDef :=
  set_input n (map (rewire_input inputs_to_rename) (input n)).

(** Body of the second loop.  The node objects of [old_graph] are
    rewritten in place: the state carries, next to the object, the nodes
    of [old_graph] already visited, as they are after the visit. *)
Definition apply_step (inputs_to_rename : gmap string string)
    (st : Self * list NodeDef) (n : NodeDef) : result (Self * list NodeDef) :=
  let '(self, visited) := st in
  let n := rewire_node inputs_to_rename n in
  let* self := add_output_graph_node self n in
  Ok (self, visited ++ [n]).

(** [node.attr[key]] on the protobuf map is a read that writes: a key
    that is missing is stored with the default [AttrValue]. *)
Definition attr_read (n : NodeDef) (key : string) : NodeDef :=
  match attr n !! key with
  | Some _ => n
  | None => set_attr n key AttrValue_unset
  end.

(** Line 425 reads [attr["T"]] of the Quantize node and of the node
    feeding it, once that node is known to be a [Dequantize]: the names
    of the nodes the scan of [n] reads it from. *)
Definition scan_reads (old_nodes_map : gmap string NodeDef) (n : NodeDef) : list string :=
  if negb (str_in (op n) ["Quantize"; "QuantizeV2"]) then []
  else
    match input n !! 0 with
    | None => []
    | Some i0 =>
        match old_nodes_map !! node_name_from_input i0 with
        | Some dequantize_node =>
            if String.eqb (op dequantize_node) "Dequantize"
            then [name n; name dequantize_node]
            else []
        | None => []
        end
    end.

(** The nodes of [old_graph] as the first loop leaves them.  The nodes
    of [old_nodes_map] are those of [old_graph], so a read of
    [attr["T"]] shows in the graph: a node read without a [T] has an
    unset one afterwards.  No test of the scan can tell, since an unset
    [T] is what a missing one reads as; so the scan is run on the nodes
    as they come and what it has left in them is applied here. *)
Definition scan_effect (old_nodes_map : gmap string NodeDef) (old_graph : GraphDef)
    : GraphDef :=
  let read := concat (map (scan_reads old_nodes_map) old_graph) in
  map (fun n => if str_in (name n) read then attr_read n "T" else n) old_graph.

(** [remove_redundant_quantization].  The result holds the returned graph
    ([self.output_graph]), the nodes of [old_graph] as the call leaves
    them, and the object.  [old_graph] is a graph of its own: the
    object's fields hold no node of it. *)
Definition remove_redundant_quantization (self : Self) (old_graph : GraphDef)
    : result (GraphDef * GraphDef * Self) :=
  let* old_nodes_map := create_nodes_map old_graph in
  let self := with_output self [] (output_node_maps self) in
  let inputs_to_rename : gmap string string := ∅ in
  let* inputs_to_rename := for_each (scan_node old_nodes_map) old_graph inputs_to_rename in
  let old_graph := scan_effect old_nodes_map old_graph in
  let* '(self, old_graph) := for_each (apply_step inputs_to_rename) old_graph (self, []) in
  Ok (output_graph self, old_graph, self).

(** ** Weight calibration and quantization *)

(** [np.maximum] and [np.minimum] on two elements: a NaN operand wins. *)
Definition np_maximum (a b : float) : float :=
  if (b <=? a)%float || is_nan a then a else b.

Definition np_minimum (a b : float) : float :=
  if (a <=? b)%float || is_nan a then a else b.

(** The rows of a C-ordered array whose trailing axes hold [n] elements. *)
Fixpoint rows_of (count n : nat) (l : list float) : list (list float) :=
  match count with
  | 0 => []
  | S count' => take n l :: rows_of count' n (drop n l)
  end.

Definition prod (l : list nat) : nat := foldr Nat.mul 1 l.

(** The array seen with its leading [k] axes folded into one: a list of
    rows, each holding the elements of the trailing axes. *)
Definition leading_rows (k : nat) (a : ndarray float) : list (list float) :=
  rows_of (prod (take k (shape a))) (prod (drop k (shape a))) (data a).

(** [a.max(axis=(0, .., k-1))]: reduce the leading [k] axes, keeping one
    value per position of the trailing ones.  A reduction over no
    element has no identity. *)
Definition np_max_leading (k : nat) (a : ndarray float) : result (list float) :=
  if (length (shape a) <? k)%nat then Raise AxisError
  else
    match leading_rows k a with
    | [] => Raise ValueError
    | r :: rs => Ok (foldl (zip_with np_maximum) r rs)
    end.

Definition np_abs (a : ndarray float) : ndarray float :=
  mk_ndarray (shape a) (map PrimFloat.abs (data a)).

(** [np.min(a.flatten())] and [np.max(a.flatten())] *)
Definition np_min_flat (a : ndarray float) : result float :=
  match data a with
  | [] => Raise ValueError
  | x :: xs => Ok (foldl np_minimum x xs)
  end.

Definition np_max_flat (a : ndarray float) : result float :=
  match data a with
  | [] => Raise ValueError
  | x :: xs => Ok (foldl np_maximum x xs)
  end.

(** The value of a finite float, rounded toward zero. *)
Definition float_trunc (f : float) : option Z :=
  match Prim2SF f with
  | S754_zero _ => Some 0%Z
  | S754_finite s m e =>
      let a := if (0 <=? e)%Z then (Z.pos m * 2 ^ e)%Z else (Z.pos m / 2 ^ (- e))%Z in
      Some (if s then (- a)%Z else a)
  | _ => None
  end.

(** What [astype(np.int8)] yields where the C conversion is undefined
    (NaN, infinities, values outside [-128, 127]). *)
Variable undefined_int8_cast : float -> Z.

(** [x.astype(np.int8)] on one element: the fractional part is dropped. *)
Definition astype_int8 (f : float) : Z :=
  match float_trunc f with
  | Some z => if (-128 <=? z)%Z && (z <=? 127)%Z then z else undefined_int8_cast f
  | None => undefined_int8_cast f
  end.

(** The runtime kernel [array_ops.quantize_v2(input, min, max, qint8,
    mode, round_mode="HALF_TO_EVEN")], evaluated in a session: its three
    outputs. *)
Variable quantize_v2 : ndarray float -> float -> float -> string -> list Z * float * float.

Definition epsilon : float := 0.0001%float.

(** The weight tensor of a float constant is a [float32] array, and so
    are the arrays computed from it.  Their elements are binary32
    values, held here in binary64 (every binary32 value is a binary64
    value).  A Python float that meets such an array is converted to
    binary32 first, whether it is compared with the array or stored in
    it, and an operation on the array rounds its exact result to
    binary32, to nearest even: [SpecFloat]'s operations at precision 24
    and maximal exponent 128. *)
Definition float32 (x : float) : float :=
  match Prim2SF x with
  | S754_finite s m e => SF2Prim (binary_round 24 128 s m e)
  | _ => x
  end.

Definition mul32 (a b : float) : float :=
  SF2Prim (SFmul 24 128 (Prim2SF a) (Prim2SF b)).

Definition div32 (a b : float) : float :=
  SF2Prim (SFdiv 24 128 (Prim2SF a) (Prim2SF b)).

(** [ranges[ranges < epsilon] = epsilon] and its two siblings. *)
Definition nudge_ranges (ranges : list float) : list float :=
  map (fun r => if (r <? float32 epsilon)%float then float32 epsilon else r) ranges.

Definition nudge_min (min_value : list float) : list float :=
  map (fun m => if (PrimFloat.abs m <? float32 epsilon)%float
                then float32 (- epsilon)%float else m) min_value.

Definition nudge_max (max_value : list float) : list float :=
  map (fun m => if (PrimFloat.abs m <? float32 epsilon)%float
                then float32 epsilon else m) max_value.

(** Lines 613-620 and 657-670 share this computation on [ranges], the
    per-channel maxima of the absolute values; [rows] are the rows of the
    tensor the ranges are broadcast against.  [max_value = ranges] binds
    a second name to the same array, so the in-place assignment to
    [max_value] writes the array the division then reads. *)
Definition per_channel_quantize (rows : list (list float)) (ranges : list float)
    : list Z * list float * list float :=
  let min_value := map PrimFloat.opp ranges in
  let ranges := nudge_ranges ranges in
  let min_value := nudge_min min_value in
  let ranges := nudge_max ranges in
  let max_value := ranges in
  let qint8_tensor :=
    concat (map (fun row => zip_with (fun v r => astype_int8 (div32 (mul32 v 127.0) r))
                              row ranges)
              rows) in
  (qint8_tensor, min_value, max_value).

(** Lines 626-634: the correction of the per-tensor range. *)
Definition per_tensor_range (min_value max_value : float) : float * float :=
  let min_value := if (0.0 <? min_value)%float then 0.0%float else min_value in
  let max_value :=
    if (min_value =? max_value)%float then
      if (PrimFloat.abs min_value <? 0.000001)%float then (min_value + 1.0)%float
      else if (0 <? min_value)%float then (2 * min_value)%float
      else (min_value / 2.0)%float
    else max_value in
  (min_value, max_value).

(** [tensor_util.MakeNdarray] on the [value] attribute of a constant;
    the model covers float payloads, which the tensor holds as binary32
    values and the array as [float32]. *)
Definition MakeNdarray (a : AttrValue) : result (ndarray float) :=
  match a with
  | AttrValue_tensor t =>
      match tensor_values t with
      | float_val l => Ok (mk_ndarray (tensor_shape t) (map float32 l))
      | int_val _ => Raise TypeError
      end
  | _ => Raise TypeError
  end.

Definition TensorShapeProtoToList (a : AttrValue) : list nat :=
  match a with
  | AttrValue_tensor t => tensor_shape t
  | _ => []
  end.

(** The three results of the quantization proper: the signed 8-bit
    tensor, and the values of the min and max constants. *)
Definition quantize_weight_values (parent : string) (float_tensor : ndarray float)
    (per_channel_ : bool) (quantization_mode : string)
    : result (list Z * const_value * const_value) :=
  if str_in parent ["Conv2D"; "MatMul"] then
    if per_channel_ then
      let* ranges := np_max_leading 3 (np_abs float_tensor) in
      (* over a 3-D tensor the reduction yields a scalar, and a scalar
         does not support the item assignments that follow *)
      if (length (shape float_tensor) =? 3)%nat then Raise TypeError
      else
        let '(qint8_tensor, min_value, max_value) :=
          per_channel_quantize (leading_rows 3 float_tensor) ranges in
        let channels := drop 3 (shape float_tensor) in
        Ok (qint8_tensor, value_floats (mk_ndarray channels min_value),
            value_floats (mk_ndarray channels max_value))
    else
      let* min_value := np_min_flat float_tensor in
      let* max_value := np_max_flat float_tensor in
      let '(min_value, max_value) := per_tensor_range min_value max_value in
      let '(qint8_tensor, min_value, max_value) :=
        quantize_v2 float_tensor min_value max_value quantization_mode in
      Ok (qint8_tensor, value_float min_value, value_float max_value)
  else if String.eqb parent "DepthwiseConv2dNative" then
    let* ranges := np_max_leading 2 (np_abs float_tensor) in
    match shape float_tensor with
    | [a; b; c; d] =>
        let '(qint8_tensor, min_value, max_value) :=
          per_channel_quantize (leading_rows 2 (mk_ndarray [a; b; c * d] (data float_tensor)))
            ranges in
        Ok (qint8_tensor, value_floats (mk_ndarray [length ranges] min_value),
            value_floats (mk_ndarray [length ranges] max_value))
    | _ => Raise ValueError
    end
  else Raise UnboundLocalError.

Definition _intel_cpu_quantize_weight_eightbit (self : Self) (parent : string)
    (input_node : NodeDef) (per_channel_ : bool) (quantization_mode : string)
    : result Self :=
  let base_name := name input_node +:+ "_" in
  let qint8_const_name := base_name +:+ "qint8_const" in
  let min_name := base_name +:+ "min" in
  let max_name := base_name +:+ "max" in
  let* float_tensor := MakeNdarray (attr_get input_node "value") in
  let* '(qint8_tensor, min_value, max_value) :=
    quantize_weight_values parent float_tensor per_channel_ quantization_mode in
  let shape_ := TensorShapeProtoToList (attr_get input_node "value") in
  let qint8_const_node :=
    helper.create_constant_node qint8_const_name
      (value_int8s (mk_ndarray (shape float_tensor) qint8_tensor))
      dtypes.qint8 (Some shape_) None in
  let min_node :=
    helper.create_constant_node min_name min_value dtypes.float32 None (Some (device self)) in
  let max_node :=
    helper.create_constant_node max_name max_value dtypes.float32 None (Some (device self)) in
  let dequantize_node :=
    helper.create_node "Dequantize" (name input_node) [qint8_const_name; min_name; max_name] in
  let dequantize_node := helper.set_attr_dtype dequantize_node "T" dtypes.qint8 in
  let dequantize_node := helper.set_attr_string dequantize_node "mode" "SCALED" in
  let* self := add_output_graph_node self qint8_const_node in
  let* self := add_output_graph_node self min_node in
  let* self := add_output_graph_node self max_node in
  add_output_graph_node self dequantize_node.

End QuantizeNodeBase.

(** ** A model of the helper's operations on input references *)

Module helper_model.

Definition is_digit (c : ascii) : bool :=
  (48 <=? nat_of_ascii c)%nat && (nat_of_ascii c <=? 57)%nat.

(** On the reversed characters of a reference: what precedes a trailing
    [:<digits>], if the reference ends in one. *)
Fixpoint before_port (rev_chars : list ascii) (seen_digit : bool) : option (list ascii) :=
  match rev_chars with
  | [] => None
  | c :: rest =>
      if is_digit c then before_port rest true
      else if Ascii.eqb c ":"%char && seen_digit then Some rest
      else None
  end.

Definition port_prefix (s : string) : option string :=
  match before_port (rev (list_ascii_of_string s)) false with
  | Some r => Some (string_of_list_ascii (rev r))
  | None => None
  end.

(** Modelled from the spec: [helper.node_name_from_input] is missing; an
    input reference is a data edge "optionally carrying an output-slot
    index" or a control edge "distinguished by a reserved name marker";
    the node name is the reference without marker and slot. *)
Definition node_name_from_input (node_name : string) : string :=
  let node_name :=
    match node_name with
    | String "^"%char rest => rest
    | _ => node_name
    end in
  match port_prefix node_name with
  | Some m => m
  | None => node_name
  end.

(** Modelled from the spec: [helper.ensure_tensor_name_has_port] is
    missing; rewires apply "by exact output-slot-qualified name", slot 0
    being the one a bare name denotes. *)
Definition ensure_tensor_name_has_port (node_name : string) : string :=
  match port_prefix node_name with
  | Some _ => node_name
  | None => node_name +:+ ":0"
  end.

Fixpoint replace_char (c : ascii) (by_ : string) (s : string) : string :=
  match s with
  | EmptyString => EmptyString
  | String x rest =>
      if Ascii.eqb x c then by_ +:+ replace_char c by_ rest
      else String x (replace_char c by_ rest)
  end.

(** Modelled from the spec: [helper.unique_node_name_from_input] is
    missing; "the memo key is the producing node+slot identity", spelled
    so that it can take part in a node name. *)
Definition unique_node_name_from_input (node_name : string) : string :=
  replace_char "^"%char "__hat__" (replace_char ":"%char "__port__" node_name).

End helper_model.

Definition helper_instance : QuantizeGraphHelper := {|
  node_name_from_input := helper_model.node_name_from_input;
  ensure_tensor_name_has_port := helper_model.ensure_tensor_name_has_port;
  unique_node_name_from_input := helper_model.unique_node_name_from_input;
|}.

(** ** Reference definitions for the properties

    These follow the wording of the design description; the theorems
    compare them with the definitions embedded from the code. *)

(** A result that is not a match: the no-match result, or an exception. *)
Definition no_match {A} (r : result (option A)) : Prop :=
  r = Ok None \/ exists e, r = Raise e.

(** Channel [o] holds nothing but zeros, of either sign. *)
Definition zero_channel (rows : list (list float)) (o : nat) : Prop :=
  Forall (fun row => row !! o = Some 0%float \/ row !! o = Some (- 0)%float) rows.

(** A divisor that is not below [epsilon], and at least [epsilon] unless
    it is a NaN. *)
Definition at_least_epsilon (r : float) : Prop :=
  (r <? epsilon)%float = false
  /\ (is_nan r = false -> (epsilon <=? r)%float = true).

(** The same for [epsilon] as the [float32] range array holds it. *)
Definition at_least_stored_epsilon (r : float) : Prop :=
  (r <? float32 epsilon)%float = false
  /\ (is_nan r = false -> (float32 epsilon <=? r)%float = true).

(** The per-channel paths of the weight quantizer, with the rows the
    channel ranges are taken over. *)
Inductive per_channel_path (parent : string) (per_channel_ : bool) (t : ndarray float)
    : list (list float) -> Prop :=
  | conv_path :
      str_in parent ["Conv2D"; "MatMul"] = true ->
      per_channel_ = true ->
      3 < length (shape t) ->
      per_channel_path parent per_channel_ t (leading_rows 3 t)
  | depthwise_path a b c d :
      parent = "DepthwiseConv2dNative" ->
      shape t = [a; b; c; d] ->
      per_channel_path parent per_channel_ t (rows_of (a * b) (c * d) (data t)).

Section Reference.
Context `{QuantizeGraphHelper}.
Variable recursion_limit : nat.

(** The dtype priority as described: an emitted [Dequantize] producer
    first, then a preceding ReLU, then a MatMul anchor, then signed. *)
Definition described_dtype (self : Self) (original_node input_node_name : string)
    : result dtypes.DType :=
  let* anchor := od_get (node_name_mapping self) original_node in
  let emitted_dequantize :=
    match output_node_maps self !! input_node_name with
    | Some emitted => if String.eqb (op emitted) "Dequantize" then Some emitted else None
    | None => None
    end in
  match emitted_dequantize with
  | Some emitted => Ok (AttrValue_type_of (attr_get emitted "T"))
  | None =>
      let* relu := _find_relu_node recursion_limit self (node anchor) in
      Ok (if relu then dtypes.quint8
          else if String.eqb (op (node anchor)) "MatMul" then dtypes.quint8
          else dtypes.qint8)
  end.

(** "The min and max inputs trace to the same source tensor": directly,
    or through a [Concat] whose second operand is a [Min] on the source
    of the max. *)
Definition same_source (old_nodes_map : gmap string NodeDef) (min_node max_node : NodeDef)
    : Prop :=
  exists mi ma,
    input min_node !! 0 = Some mi /\ input max_node !! 0 = Some ma /\
    (node_name_from_input mi = node_name_from_input ma
     \/ exists concat_node second second_min x,
          old_nodes_map !! node_name_from_input mi = Some concat_node
          /\ op concat_node = "Concat"
          /\ input concat_node !! 1 = Some second
          /\ old_nodes_map !! node_name_from_input second = Some second_min
          /\ op second_min = "Min"
          /\ input second_min !! 0 = Some x
          /\ node_name_from_input x = node_name_from_input ma).

(** The three rewires recorded for a Quantize node [n] fed by the
    Dequantize node with inputs [d0], [d1], [d2]. *)
Definition recorded (inputs_to_rename : gmap string string) (n : NodeDef) (d0 d1 d2 : string)
    : gmap string string :=
  <[name n +:+ ":2" := d2]>
    (<[name n +:+ ":1" := d1]>
       (<[ensure_tensor_name_has_port (name n) := node_name_from_input d0]>
          inputs_to_rename)).

(** The rewire map the first loop of [remove_redundant_quantization]
    ends with on a graph. *)
Definition recorded_rewires (g : GraphDef) : result (gmap string string) :=
  let* old_nodes_map := create_nodes_map g in
  for_each (scan_node old_nodes_map) g ∅.

(** The nodes of a graph as the scan of the eliminator leaves them. *)
Definition scanned (g : GraphDef) : GraphDef :=
  match create_nodes_map g with
  | Ok old_nodes_map => scan_effect old_nodes_map g
  | Raise _ => g
  end.

(** The nodes whose [T] attribute the scan reads: a Quantize or
    QuantizeV2 node whose first input names a [Dequantize] node of the
    graph, and that [Dequantize] node. *)
Definition reads_T (g : GraphDef) (n : NodeDef) : Prop :=
  exists q i0 d,
    In q g /\ In d g
    /\ str_in (op q) ["Quantize"; "QuantizeV2"] = true
    /\ input q !! 0 = Some i0
    /\ name d = node_name_from_input i0
    /\ op d = "Dequantize"
    /\ (n = q \/ n = d).

(** The op kinds whose input lists the scan reads. *)
Definition scan_inspects (op_ : string) : bool :=
  str_in op_ ["Quantize"; "QuantizeV2"; "Dequantize"; "Min"; "Max"; "Concat"].

(** No node of a recognized pattern consumes what a recorded rewire
    routes around, and no recorded target is itself routed around:
    the graph holds no chain of round trips. *)
Definition unchained (g : GraphDef) (inputs_to_rename : gmap string string) : Prop :=
  (forall n i,
     In n g -> scan_inspects (op n) = true -> In i (input n) ->
     inputs_to_rename !! ensure_tensor_name_has_port i = None)
  /\ map_Forall (fun _ target =>
                   inputs_to_rename !! ensure_tensor_name_has_port target = None)
       inputs_to_rename.

(** One state change of a synthesis pass: any of the node-emitting
    methods, run to completion. *)
Inductive pass_step : Self -> Self -> Prop :=
  | step_add_output_graph_node self n self' :
      add_output_graph_node self n = Ok self' -> pass_step self self'
  | step_common self prefix ctl r self' :
      _add_common_quantization_nodes self prefix ctl = Ok (r, self') -> pass_step self self'
  | step_eightbitize_input self prefix i rs rd dtype r self' :
      _eightbitize_input_to_node self prefix i rs rd dtype = Ok (r, self') ->
      pass_step self self'
  | step_prologue self original_node r self' :
      _add_eightbit_prologue_nodes recursion_limit self original_node = Ok (r, self') ->
      pass_step self self'
  | step_dequantize_result self q o dtype i self' :
      _intel_cpu_add_dequantize_result_node self q o dtype i = Ok self' ->
      pass_step self self'
  | step_single_input self n f self' :
      eightbitize_single_input_tensor_node recursion_limit self n f = Ok self' ->
      pass_step self self'
  | step_quantize_down self n q t relu6 r self' :
      _add_quantize_down_nodes self n q t relu6 = Ok (r, self') -> pass_step self self'
  | step_quantize_weight cast kernel self parent n pc mode self' :
      _intel_cpu_quantize_weight_eightbit cast kernel self parent n pc mode = Ok self' ->
      pass_step self self'
  | step_remove_redundant self g r g' self' :
      remove_redundant_quantization self g = Ok (r, g', self') -> pass_step self self'
  | step_reset self :
      pass_step self (_reset_output_node_maps self).

(** The later states of a pass. *)
Inductive pass_steps : Self -> Self -> Prop :=
  | pass_refl self : pass_steps self self
  | pass_next self self' self'' :
      pass_step self self' -> pass_steps self' self'' -> pass_steps self self''.

End Reference.

(** ** Concrete graphs *)

Module examples.

#[local] Existing Instance helper_instance.

Definition blank : Self :=
  {| input_graph := []; node_name_mapping := []; op_list := [];
     output_node_names := []; output_node_maps := ∅; output_graph := [];
     quantized_node_dict := ∅; intel_cpu_eightbitize := true; patterns := [];
     per_channel := false; start_node_name := ""; is_asymmetric := false;
     device := "cpu"; enable_s8 := true |}.

Definition const (n : string) : NodeDef := helper.create_node "Const" n [].

Definition typed (t : dtypes.DType) (n : NodeDef) : NodeDef :=
  helper.set_attr_dtype n "T" t.

(** A quantized tensor [S] with range [m0], [M0], dequantized by [D0]
    and quantized again by [Q1] over the range of [D0]. *)
Definition D0 : NodeDef :=
  typed dtypes.qint8 (helper.create_node "Dequantize" "D0" ["S"; "m0"; "M0"]).
Definition mn1 : NodeDef := helper.create_node "Min" "mn1" ["D0"; "dims"].
Definition mx1 : NodeDef := helper.create_node "Max" "mx1" ["D0"; "dims"].
Definition Q1 : NodeDef :=
  typed dtypes.qint8 (helper.create_node "QuantizeV2" "Q1" ["D0"; "mn1"; "mx1"]).

Definition pair_prefix : GraphDef :=
  [ const "S"; const "m0"; const "M0"; const "dims"; D0; mn1; mx1; Q1 ].

Definition pair_graph : GraphDef :=
  pair_prefix ++ [ helper.create_node "QuantizedRelu" "C" ["Q1"; "Q1:1"; "Q1:2"] ].

(** Two such round trips in a row: [D1] dequantizes [Q1], [Q2]
    quantizes [D1], and [C] consumes [Q2]. *)
Definition chain_graph : GraphDef :=
  pair_prefix ++
  [ typed dtypes.qint8 (helper.create_node "Dequantize" "D1" ["Q1"; "Q1:1"; "Q1:2"]);
    helper.create_node "Min" "mn2" ["D1"; "dims"];
    helper.create_node "Max" "mx2" ["D1"; "dims"];
    typed dtypes.qint8 (helper.create_node "QuantizeV2" "Q2" ["D1"; "mn2"; "mx2"]);
    helper.create_node "QuantizedRelu" "C" ["Q2"; "Q2:1"; "Q2:2"] ].

Definition inputs_of (g : GraphDef) : list (string * list string) :=
  map (fun n => (name n, input n)) g.

Definition pair_nodes_map : gmap string NodeDef :=
  match create_nodes_map pair_graph with
  | Ok nodes_map => nodes_map
  | Raise _ => ∅
  end.

(** The rewires of the one round trip of [pair_graph]. *)
Definition pair_rewires : gmap string string := recorded ∅ Q1 "S" "m0" "M0".

(** A pooling node whose output feeds two consumers. *)
Definition pool_graph : GraphDef :=
  [ const "x"; helper.create_node "MaxPool" "pool" ["x"];
    helper.create_node "Relu" "c1" ["pool"]; helper.create_node "Relu" "c2" ["pool"] ].

Definition pool_self : Self :=
  match __init__ true pool_graph ["c1"; "c2"] [] false "pool" "cpu" false true with
  | Ok self => _get_op_list self
  | Raise _ => blank
  end.

(** A MatMul anchor [mm] over a float input [x] that no emitted node
    produces, and no ReLU before it. *)
Definition matmul_graph : GraphDef :=
  [ helper.create_node "Placeholder" "x" []; const "w";
    helper.create_node "MatMul" "mm" ["x"; "w"] ].

Definition matmul_self : Self :=
  match __init__ true matmul_graph ["mm"] [] false "mm" "cpu" false true with
  | Ok self => _get_op_list self
  | Raise _ => blank
  end.

Definition matmul_anchor : node_details :=
  {| node := helper.create_node "MatMul" "mm" ["x"; "w"]; input_node := []; output := [] |}.

(** A 1x1x2x2 weight tensor whose first output channel is all zeros. *)
Definition zero_channel_weights : ndarray float :=
  mk_ndarray [1; 1; 2; 2] [0%float; 1.5%float; (- 0)%float; (- 3)%float].

Definition no_kernel (t : ndarray float) (mn mx : float) (mode : string)
    : list Z * float * float := ([], mn, mx).

End examples.

(** ** [QuantizeGraphBase] *)

(** [d[k] = v] on an [OrderedDict]: a key already present keeps its
    place, a new key goes to the end. *)
Fixpoint od_set {V} (d : OrderedDict V) (k : string) (v : V) : OrderedDict V :=
  match d with
  | [] => [(k, v)]
  | (k', v') :: d' =>
      if String.eqb k' k then (k', v) :: d' else (k', v') :: od_set d' k v
  end.

Section QuantizeGraphBase.
(** What a registered transformer entry is, is up to the derived class. *)
Variable entry : Type.

Record QuantizeGraphBase := {
  base_output_node_names : list string;
  transformers : OrderedDict (list entry);
}.

Definition QuantizeGraphBase_init (output_node_names_ : list string) : QuantizeGraphBase :=
  {| base_output_node_names := output_node_names_; transformers := [] |}.

Definition register_transformer (self : QuantizeGraphBase) (node_name : string) (e : entry)
    : result QuantizeGraphBase :=
  let transformers_ :=
    if negb (od_contains (transformers self) node_name)
    then od_set (transformers self) node_name []
    else transformers self in
  let* registered := od_get transformers_ node_name in
  Ok {| base_output_node_names := base_output_node_names self;
        transformers := od_set transformers_ node_name (registered ++ [e]) |}.

Definition get_supported_fusion_node (self : QuantizeGraphBase) : list string :=
  od_keys (transformers self).

End QuantizeGraphBase.

Arguments base_output_node_names {entry} q.
Arguments transformers {entry} q.
Arguments QuantizeGraphBase_init {entry} output_node_names_.
Arguments register_transformer {entry} self node_name e.
Arguments get_supported_fusion_node {entry} self.

(** ** [_get_node_input] *)

(** One of the two list comprehensions of [_get_node_input]: the inputs
    whose first character is ([control]) or is not the control marker. *)
Fixpoint select_inputs (control : bool) (l : list string) : result (list string) :=
  match l with
  | [] => Ok []
  | i :: l' =>
      let* c := is_control_input i in
      let* rest := select_inputs control l' in
      Ok (if Bool.eqb c control then i :: rest else rest)
  end.

Definition _get_node_input (self : Self) (node_name : string)
    : result (list string * list string) :=
  let* d := od_get (node_name_mapping self) node_name in
  let* control_inputs := select_inputs true (input (node d)) in
  let* d := od_get (node_name_mapping self) node_name in
  let* data_inputs := select_inputs false (input (node d)) in
  Ok (control_inputs, data_inputs).

(** ** Further reference definitions *)

Section Reference_index.
Context `{QuantizeGraphHelper}.

(** Every input reference of a graph, as the pair of the node referenced
    and the node referencing it, in the order [_parse_graph] visits them. *)
Definition references (g : GraphDef) : list (string * string) :=
  concat (map (fun n => map (fun i => (node_name_from_input i, name n)) (input n)) g).

(** The nodes that reference [key], once per reference, in that order. *)
Definition consumers (g : GraphDef) (key : string) : list string :=
  map snd (List.filter (fun p => String.eqb (fst p) key) (references g)).

(** A chain the matcher fuses: from [cur], every node has exactly one
    consumer entry, resolved in the index, which passes the Add/AddN
    check and is of the op kind the rule expects next. *)
Inductive fused_chain (self : Self) : list string -> string -> list string -> Prop :=
  | chain_end cur : fused_chain self [] cur []
  | chain_step cur d next dn expected ops tail :
      od_get (node_name_mapping self) cur = Ok d ->
      output d = [next] ->
      od_get (node_name_mapping self) next = Ok dn ->
      add_op_quantizable self cur next (op (node dn)) = Ok true ->
      op (node dn) = expected ->
      fused_chain self ops next tail ->
      fused_chain self (expected :: ops) cur (next :: tail).

(** The lookback on [n] goes on with [n']: [n] is neither a ReLU nor a
    quantized op without one, its op kind is one the lookback sees
    through, and its first input resolves to [n']. *)
Definition looks_through (self : Self) (n n' : NodeDef) : Prop :=
  str_in (op n) ["Relu"; "Relu6"] || str_find "AndRelu" (op n) = false
  /\ (str_find "QuantizedConv" (op n)
       || str_find "QuantizedDepthwiseConv" (op n)
       || str_find "QuantizedMatMul" (op n))
      && negb (str_find "Relu" (op n)) = false
  /\ _need_to_check (op n) = true
  /\ exists i0 d,
       input n !! 0 = Some i0
       /\ od_get (node_name_mapping self) (node_name_from_input i0) = Ok d
       /\ node d = n'.

End Reference_index.

(** The registry agrees with the output graph: no two nodes of the
    graph share a name, and every node is registered under its name. *)
Definition registry_consistent (self : Self) : Prop :=
  NoDup (map name (output_graph self))
  /\ forall n, In n (output_graph self) -> output_node_maps self !! name n = Some n.

(** What the node-emitting methods do to the object, step by step: add
    a node, write the memo, start a new output graph. *)
Inductive emits : Self -> Self -> Prop :=
  | emits_refl self : emits self self
  | emits_add self n self' self'' :
      add_output_graph_node self n = Ok self' -> emits self' self'' -> emits self self''
  | emits_memo self d self'' :
      emits (with_quantized_node_dict self d) self'' -> emits self self''
  | emits_new_graph self self'' :
      emits (with_output self [] (output_node_maps self)) self'' -> emits self self''.

(** The settings of the object: the fields other than the graphs, the
    index, the registry and the memo. *)
Definition same_settings (self self' : Self) : Prop :=
  op_list self' = op_list self
  /\ output_node_names self' = output_node_names self
  /\ intel_cpu_eightbitize self' = intel_cpu_eightbitize self
  /\ patterns self' = patterns self
  /\ per_channel self' = per_channel self
  /\ start_node_name self' = start_node_name self
  /\ is_asymmetric self' = is_asymmetric self
  /\ device self' = device self
  /\ enable_s8 self' = enable_s8 self.

(** The fields the elementary state changes leave alone. *)
Definition same_configuration (self self' : Self) : Prop :=
  input_graph self' = input_graph self
  /\ node_name_mapping self' = node_name_mapping self
  /\ op_list self' = op_list self
  /\ output_node_names self' = output_node_names self
  /\ intel_cpu_eightbitize self' = intel_cpu_eightbitize self
  /\ patterns self' = patterns self
  /\ per_channel self' = per_channel self
  /\ start_node_name self' = start_node_name self
  /\ is_asymmetric self' = is_asymmetric self
  /\ device self' = device self
  /\ enable_s8 self' = enable_s8 self.

(** ** Further concrete graphs *)

Module cases.

#[local] Existing Instance helper_instance.

(** A pooling node that is its own input. *)
Definition loop_node : NodeDef := helper.create_node "MaxPool" "p" ["p"].

Definition loop_self : Self :=
  match __init__ true [loop_node] ["p"] [] false "p" "cpu" false true with
  | Ok self => _get_op_list self
  | Raise _ => examples.blank
  end.

(** A convolution over a float input, followed by a bias addition and a
    ReLU, each the only consumer of the one before. *)
Definition conv_node : NodeDef := helper.create_node "Conv2D" "conv" ["x"; "w"].
Definition bias_node : NodeDef := helper.create_node "BiasAdd" "bias" ["conv"; "b"].
Definition relu_node : NodeDef := helper.create_node "Relu" "relu" ["bias"].

Definition conv_graph : GraphDef :=
  [ conv_node; bias_node; relu_node;
    helper.create_node "Placeholder" "x" []; examples.const "w"; examples.const "b" ].

Definition conv_rule : list string := ["Conv2D"; "BiasAdd"; "Relu"].

(** The object for [conv_graph], for a start node and a TensorFlow
    version with or without signed 8-bit support. *)
Definition conv_self (start_node_name_ : string) (tf_has_s8 : bool) : Self :=
  match __init__ tf_has_s8 conv_graph ["relu"] [conv_rule] false start_node_name_ "cpu"
          false true with
  | Ok self => _get_op_list self
  | Raise _ => examples.blank
  end.

Definition conv_anchor : node_details :=
  {| node := conv_node; input_node := []; output := ["bias"] |}.

(** An object that has emitted the node [S]. *)
Definition taken_self : Self :=
  match add_output_graph_node examples.blank (examples.const "S") with
  | Ok self => self
  | Raise _ => examples.blank
  end.

(** An [Add] whose first operand is a [Dequantize] and whose second is
    the convolution. *)
Definition side_node : NodeDef := helper.create_node "Dequantize" "side" ["q"; "mn"; "mx"].
Definition add_node : NodeDef := helper.create_node "Add" "add" ["side"; "conv"].

Definition add_graph : GraphDef :=
  [ conv_node; add_node; side_node; examples.const "q"; examples.const "mn";
    examples.const "mx"; helper.create_node "Placeholder" "x" []; examples.const "w" ].

Definition add_self : Self :=
  match __init__ true add_graph ["add"] [["Conv2D"; "Add"]] false "conv" "cpu" false true with
  | Ok self => _get_op_list self
  | Raise _ => examples.blank
  end.

(** The round trip of [examples.pair_prefix] with no [T] declared on
    the [Dequantize] and the [QuantizeV2] node. *)
Definition untyped_pair_graph : GraphDef :=
  [ examples.const "S"; examples.const "m0"; examples.const "M0"; examples.const "dims";
    helper.create_node "Dequantize" "D0" ["S"; "m0"; "M0"]; examples.mn1; examples.mx1;
    helper.create_node "QuantizeV2" "Q1" ["D0"; "mn1"; "mx1"] ].

(** A [QuantizeV2] whose first input is not in the graph. *)
Definition dangling_graph : GraphDef :=
  [ helper.create_node "QuantizeV2" "q" ["gone"; "mn"; "mx"];
    examples.const "mn"; examples.const "mx" ].

(** A 2x2 weight, as a MatMul has it. *)
Definition matmul_weights : ndarray float :=
  mk_ndarray [2; 2] [1%float; 2%float; 3%float; 4%float].

(** A float weight constant. *)
Definition weight_node : NodeDef :=
  helper.create_constant_node "w" (value_floats examples.zero_channel_weights)
    dtypes.float32 None None.

End cases.

(** * Properties *)

(** ** Tactics for the result monad *)

Lemma bind_Ok {A B} (m : result A) (k : A -> result B) (b : B) :
  bind m k = Ok b -> exists a, m = Ok a /\ k a = Ok b.
Proof. destruct m as [a|e]; simpl; [eauto | discriminate]. Qed.

Ltac inv_bind H :=
  let a := fresh "a" in
  let Ha := fresh "Ha" in
  apply bind_Ok in H; destruct H as (a & Ha & H).

(** ** The per-tensor range correction *)

Section Per_tensor.
#[local] Open Scope float_scope.

(** After the clamp the working minimum is never positive: the [2 * min]
    arm of the degenerate-range correction cannot fire. *)
Lemma per_tensor_min_not_positive (min_value max_value : float) :
  (0 <? fst (per_tensor_range min_value max_value)) = false.
Proof.
  unfold per_tensor_range; simpl.
  destruct (0 <? min_value) eqn:E; [reflexivity | exact E].
Qed.

(** C7: in the per-tensor path a positive true minimum is clamped to 0,
    and, with [mn] the minimum after the clamp, a degenerate range
    [mn == max] is widened to [mn + 1] when [|mn| < 1e-6], else to
    [2 * mn] when [mn > 0], else (so when [mn < 0]) to [mn / 2]; any
    other range is kept.  In particular [min = max = 0.0] yields
    [(0.0, 1.0)].  The corrected pair is what the quantize kernel is
    invoked with. *)
Theorem per_tensor_range_correction (min_value max_value : float) :
  let mn := fst (per_tensor_range min_value max_value) in
  let mx := snd (per_tensor_range min_value max_value) in
  ((0 <? min_value) = true -> mn = 0)
  /\ ((0 <? min_value) = false -> mn = min_value)
  /\ ((mn =? max_value) = true ->
        ((abs mn <? 0.000001) = true -> mx = mn + 1)
        /\ ((abs mn <? 0.000001) = false -> (0 <? mn) = true -> mx = 2 * mn)
        /\ ((abs mn <? 0.000001) = false -> (mn <? 0) = true -> mx = mn / 2)
        /\ ((abs mn <? 0.000001) = false -> (0 <? mn) = false -> mx = mn / 2))
  /\ ((mn =? max_value) = false -> mx = max_value)
  /\ per_tensor_range 0 0 = (0, 1)
  /\ (forall cast kernel parent t mode,
        str_in parent ["Conv2D"; "MatMul"] = true ->
        np_min_flat t = Ok min_value ->
        np_max_flat t = Ok max_value ->
        quantize_weight_values cast kernel parent t false mode
        = Ok (let '(q, kernel_min, kernel_max) := kernel t mn mx mode in
              (q, value_float kernel_min, value_float kernel_max))).
Proof.
  assert (Hkernel : forall cast kernel parent t mode,
    str_in parent ["Conv2D"; "MatMul"] = true ->
    np_min_flat t = Ok min_value ->
    np_max_flat t = Ok max_value ->
    quantize_weight_values cast kernel parent t false mode
    = Ok (let '(q, kernel_min, kernel_max) :=
            kernel t (fst (per_tensor_range min_value max_value))
              (snd (per_tensor_range min_value max_value)) mode in
          (q, value_float kernel_min, value_float kernel_max))).
  { intros cast kernel parent t mode Hparent Hmin Hmax.
    unfold quantize_weight_values. rewrite Hparent, Hmin, Hmax. cbn [bind].
    destruct (per_tensor_range min_value max_value) as [a b]. cbn [fst snd].
    now destruct (kernel t a b mode) as [[q kmin] kmax]. }
  pose proof (per_tensor_min_not_positive min_value max_value) as Hneg.
  revert Hneg Hkernel. unfold per_tensor_range. cbn [fst snd].
  set (mn := if 0 <? min_value then 0 else min_value).
  intros Hneg Hkernel.
  split; [| split; [| split; [| split; [| split]]]].
  - intros E. subst mn. now rewrite E.
  - intros E. subst mn. now rewrite E.
  - intros E. rewrite E. repeat split.
    + intros E1. now rewrite E1.
    + intros E1 E2. now rewrite E1, E2.
    + intros E1 _. now rewrite E1, Hneg.
    + intros E1 E2. now rewrite E1, E2.
  - intros E. now rewrite E.
  - reflexivity.
  - exact Hkernel.
Qed.

End Per_tensor.

(** ** Strings and the registry *)

Lemma append_inj_l (p a b : string) : p +:+ a = p +:+ b -> a = b.
Proof.
  induction p as [|c p IH]; simpl; [easy |].
  intros E. injection E as E. auto.
Qed.

Lemma append_ne_l (p a b : string) : a <> b -> p +:+ a <> p +:+ b.
Proof. intros Hab E. apply Hab. eapply append_inj_l, E. Qed.

Lemma add_output_graph_node_Ok (self : Self) (n : NodeDef) :
  output_node_maps self !! name n = None ->
  add_output_graph_node self n
  = Ok (with_output self (output_graph self ++ [n]) (<[name n := n]> (output_node_maps self))).
Proof.
  intros Hfresh. unfold add_output_graph_node, _add_output_node. simpl.
  now rewrite Hfresh.
Qed.

Lemma add_output_graph_node_Raise (self : Self) (n : NodeDef) :
  is_Some (output_node_maps self !! name n) ->
  add_output_graph_node self n = Raise ValueError.
Proof.
  intros [x Hx]. unfold add_output_graph_node, _add_output_node. simpl.
  now rewrite Hx.
Qed.

Lemma add_output_graph_node_inv (self self' : Self) (n : NodeDef) :
  add_output_graph_node self n = Ok self' ->
  output_node_maps self !! name n = None
  /\ self' = with_output self (output_graph self ++ [n])
               (<[name n := n]> (output_node_maps self)).
Proof.
  intros E. destruct (output_node_maps self !! name n) eqn:Hl.
  - rewrite add_output_graph_node_Raise in E by eauto. discriminate.
  - rewrite add_output_graph_node_Ok in E by assumption. now injection E as <-.
Qed.

(** ** The requantize epilogue *)

Section Quantize_down.

(** C5 (as amended): with the two node names free, the Requantize
    epilogue emits the range node and then the requantize node; in
    per-channel mode the range node is a [RequantizationRangePerChannel]
    whose [clip_value_max] is 6.0 under [is_relu6] and 1e30 otherwise; in
    per-tensor mode it is a [RequantizationRange] without any
    [clip_value_max] attribute. *)
Theorem quantize_down_clip_value (self : Self) (original_node : NodeDef)
    (quantized_output_name : string) (requantize_type : dtypes.DType) (is_relu6 : bool) :
  let range_name := name original_node +:+ "_eightbit_requant_range" in
  let requantize_name := name original_node +:+ "_eightbit_requantize" in
  output_node_maps self !! range_name = None ->
  output_node_maps self !! requantize_name = None ->
  exists range_node requantize_node self',
    _add_quantize_down_nodes self original_node quantized_output_name requantize_type is_relu6
    = Ok (requantize_name, self')
    /\ output_graph self' = output_graph self ++ [range_node; requantize_node]
    /\ name range_node = range_name
    /\ op requantize_node = (if per_channel self then "RequantizePerChannel" else "Requantize")
    /\ input requantize_node
       = [quantized_output_name; quantized_output_name +:+ ":1";
          quantized_output_name +:+ ":2"; range_name +:+ ":0"; range_name +:+ ":1"]
    /\ (per_channel self = true ->
          op range_node = "RequantizationRangePerChannel"
          /\ attr range_node !! "clip_value_max"
             = Some (AttrValue_f (if is_relu6 then 6.0 else 1e30)%float))
    /\ (per_channel self = false ->
          op range_node = "RequantizationRange"
          /\ attr range_node !! "clip_value_max" = None).
Proof.
  intros range_name requantize_name Hrange Hrequantize.
  assert (Hne : range_name <> requantize_name).
  { unfold range_name, requantize_name. apply append_ne_l. discriminate. }
  unfold _add_quantize_down_nodes.
  destruct (per_channel self) eqn:Hpc, is_relu6;
    (rewrite add_output_graph_node_Ok by exact Hrange);
    cbn [bind with_output per_channel]; rewrite Hpc;
    (rewrite add_output_graph_node_Ok
       by (cbn; rewrite lookup_insert_ne; [exact Hrequantize | exact Hne]));
    cbn [bind]; do 3 eexists; (split; [reflexivity |]);
    cbn; rewrite <- app_assoc; (split; [reflexivity |]);
    repeat split; try reflexivity; try discriminate.
Qed.

End Quantize_down.

(** ** The quantized-input memo *)

Section Memo.
Context `{QuantizeGraphHelper}.
Variable recursion_limit : nat.

Lemma for_each_invariant {A S} (R : S -> S -> Prop) (body : S -> A -> result S) :
  (forall s, R s s) ->
  (forall s1 s2 s3, R s1 s2 -> R s2 s3 -> R s1 s3) ->
  (forall s a s', body s a = Ok s' -> R s s') ->
  forall l s s', for_each body l s = Ok s' -> R s s'.
Proof.
  intros Hrefl Htrans Hbody l.
  induction l as [|a l IH]; simpl; intros s s' E.
  - injection E as <-. apply Hrefl.
  - inv_bind E. eapply Htrans; [eapply Hbody, Ha | eapply IH, E].
Qed.

(** Emitting a node leaves the memo alone. *)
Lemma add_output_graph_node_memo (self self' : Self) (n : NodeDef) :
  add_output_graph_node self n = Ok self' ->
  quantized_node_dict self' = quantized_node_dict self.
Proof. intros E. apply add_output_graph_node_inv in E as [_ ->]. reflexivity. Qed.

Ltac memo_adds :=
  repeat match goal with
  | E : bind (add_output_graph_node _ _) _ = Ok _ |- _ =>
      let s := fresh "s" in
      let Hs := fresh "Hs" in
      apply bind_Ok in E; destruct E as (s & Hs & E);
      apply add_output_graph_node_memo in Hs
  | E : add_output_graph_node _ _ = Ok _ |- _ => apply add_output_graph_node_memo in E
  | E : Ok _ = Ok _ |- _ => injection E as E; try subst
  end.

Lemma common_memo (self self' : Self) (prefix ctl : string) r :
  _add_common_quantization_nodes self prefix ctl = Ok (r, self') ->
  quantized_node_dict self' = quantized_node_dict self.
Proof.
  unfold _add_common_quantization_nodes. intros E. memo_adds. congruence.
Qed.

Lemma eightbitize_hit (self : Self) (prefix i rs rd : string) (dtype : dtypes.DType) t :
  quantized_node_dict self !! unique_node_name_from_input i = Some t ->
  _eightbitize_input_to_node self prefix i rs rd dtype = Ok (t, self).
Proof. intros Hhit. unfold _eightbitize_input_to_node. now rewrite Hhit. Qed.

Lemma eightbitize_memo (self self' : Self) (prefix i rs rd : string) (dtype : dtypes.DType) r :
  _eightbitize_input_to_node self prefix i rs rd dtype = Ok (r, self') ->
  quantized_node_dict self ⊆ quantized_node_dict self'.
Proof.
  unfold _eightbitize_input_to_node.
  destruct (quantized_node_dict self !! unique_node_name_from_input i) eqn:Hlook; intros E.
  - injection E as _ <-. reflexivity.
  - memo_adds. cbn. rewrite Hs2, Hs1, Hs0, Hs.
    now apply insert_subseteq.
Qed.

Lemma prologue_step_memo (original_node prefix rs rd : string) st i st' :
  prologue_step recursion_limit original_node prefix rs rd st i = Ok st' ->
  quantized_node_dict (fst (fst st)) ⊆ quantized_node_dict (fst (fst st')).
Proof.
  destruct st as [[self ins] mms]. unfold prologue_step. intros E.
  inv_bind E. destruct a.
  - injection E as <-. reflexivity.
  - inv_bind E. inv_bind E. destruct a0 as [[[q mn] mx] self1].
    injection E as <-. cbn. eapply eightbitize_memo, Ha1.
Qed.

Lemma prologue_memo (self self' : Self) (original_node : string) r :
  _add_eightbit_prologue_nodes recursion_limit self original_node = Ok (r, self') ->
  quantized_node_dict self ⊆ quantized_node_dict self'.
Proof.
  unfold _add_eightbit_prologue_nodes. intros E.
  inv_bind E. inv_bind E. inv_bind E. destruct a1 as [[rs rd] self1].
  inv_bind E. inv_bind E. destruct a2 as [[self2 ins] mms].
  inv_bind E. inv_bind E. injection E as _ <-.
  apply common_memo in Ha1. rewrite <- Ha1.
  apply (for_each_invariant
           (fun st st' => quantized_node_dict (fst (fst st))
                          ⊆ quantized_node_dict (fst (fst st')))) in Ha3;
    [exact Ha3 | reflexivity | intros ? ? ? ? ?; etransitivity; eassumption |].
  intros ? ? ?. apply prologue_step_memo.
Qed.

Lemma dequantize_result_memo (self self' : Self) (q o : string) dtype i :
  _intel_cpu_add_dequantize_result_node self q o dtype i = Ok self' ->
  quantized_node_dict self' = quantized_node_dict self.
Proof.
  unfold _intel_cpu_add_dequantize_result_node. cbn [list_getitem lookup]. cbn [bind].
  intros E. cbn in E. memo_adds. exact E.
Qed.

Lemma quantize_down_memo (self self' : Self) n q t relu6 r :
  _add_quantize_down_nodes self n q t relu6 = Ok (r, self') ->
  quantized_node_dict self' = quantized_node_dict self.
Proof.
  unfold _add_quantize_down_nodes. intros E. memo_adds. congruence.
Qed.

Lemma quantize_weight_memo cast kernel (self self' : Self) parent n pc mode :
  _intel_cpu_quantize_weight_eightbit cast kernel self parent n pc mode = Ok self' ->
  quantized_node_dict self' = quantized_node_dict self.
Proof.
  unfold _intel_cpu_quantize_weight_eightbit. intros E.
  inv_bind E. inv_bind E. destruct a0 as [[q mn] mx]. memo_adds. congruence.
Qed.

Lemma remove_redundant_memo (self self' : Self) (g g' r : GraphDef) :
  remove_redundant_quantization self g = Ok (r, g', self') ->
  quantized_node_dict self' = quantized_node_dict self.
Proof.
  unfold remove_redundant_quantization. intros E.
  inv_bind E. inv_bind E. inv_bind E. destruct a1 as [self1 old]. injection E as _ _ <-.
  apply (for_each_invariant
           (fun st st' => quantized_node_dict (fst st') = quantized_node_dict (fst st)))
    in Ha1; [exact Ha1 | reflexivity | intros ? ? ? ? ?; etransitivity; eassumption |].
  intros [s v] n [s' v']. unfold apply_step. intros E. inv_bind E.
  injection E as <- _. cbn. eapply add_output_graph_node_memo; eassumption.
Qed.

(** Within a pass the memo only grows. *)
Lemma pass_step_memo (self self' : Self) :
  pass_step recursion_limit self self' ->
  quantized_node_dict self ⊆ quantized_node_dict self'.
Proof.
  intros Hstep. destruct Hstep as
    [self n self' E | self p c r self' E | self p i rs rd d r self' E
    | self o r self' E | self q o d i self' E | self n f self' E
    | self n q t b r self' E | cast kernel self p n pc m self' E
    | self g r g' self' E | self].
  - apply add_output_graph_node_memo in E. now rewrite E.
  - apply common_memo in E. now rewrite E.
  - eapply eightbitize_memo, E.
  - eapply prologue_memo, E.
  - apply dequantize_result_memo in E. now rewrite E.
  - unfold eightbitize_single_input_tensor_node in E.
    inv_bind E. destruct a as [names self1]. inv_bind E.
    apply prologue_memo in Ha. apply add_output_graph_node_memo in Ha0.
    apply dequantize_result_memo in E. now rewrite E, Ha0.
  - apply quantize_down_memo in E. now rewrite E.
  - apply quantize_weight_memo in E. now rewrite E.
  - apply remove_redundant_memo in E. now rewrite E.
  - reflexivity.
Qed.

Lemma pass_steps_memo (self self' : Self) :
  pass_steps recursion_limit self self' ->
  quantized_node_dict self ⊆ quantized_node_dict self'.
Proof.
  induction 1 as [self | self self' self'' Hstep _ IH]; [reflexivity |].
  etransitivity; [eapply pass_step_memo, Hstep | exact IH].
Qed.

(** A first call for a key emits Reshape, Min, Max and QuantizeV2, in
    this order, and memoizes the names of the three quantize outputs. *)
Lemma eightbitize_miss (self : Self) (prefix i rs rd : string) (dtype : dtypes.DType) :
  let u := unique_node_name_from_input i in
  let reshape_name := prefix +:+ "_reshape_" +:+ u in
  let min_name := prefix +:+ "_min_" +:+ u in
  let max_name := prefix +:+ "_max_" +:+ u in
  let quantize_name := prefix +:+ "_quantize_" +:+ u in
  let triple := (quantize_name, quantize_name +:+ ":1", quantize_name +:+ ":2") in
  quantized_node_dict self !! u = None ->
  output_node_maps self !! reshape_name = None ->
  output_node_maps self !! min_name = None ->
  output_node_maps self !! max_name = None ->
  output_node_maps self !! quantize_name = None ->
  exists self1 n1 n2 n3 n4,
    _eightbitize_input_to_node self prefix i rs rd dtype = Ok (triple, self1)
    /\ output_graph self1 = output_graph self ++ [n1; n2; n3; n4]
    /\ (op n1 = "Reshape" /\ name n1 = reshape_name /\ input n1 = [i; rs])
    /\ (op n2 = "Min" /\ name n2 = min_name /\ input n2 = [reshape_name; rd])
    /\ (op n3 = "Max" /\ name n3 = max_name /\ input n3 = [reshape_name; rd])
    /\ (op n4 = "QuantizeV2" /\ name n4 = quantize_name
        /\ input n4 = [i; min_name; max_name]
        /\ attr n4 !! "T" = Some (AttrValue_type dtype))
    /\ quantized_node_dict self1 = <[u := triple]> (quantized_node_dict self).
Proof.
  intros u reshape_name min_name max_name quantize_name triple
    Hmemo Hreshape Hmin Hmax Hquantize.
  assert (Hd : reshape_name <> min_name /\ reshape_name <> max_name
               /\ reshape_name <> quantize_name /\ min_name <> max_name
               /\ min_name <> quantize_name /\ max_name <> quantize_name).
  { unfold reshape_name, min_name, max_name, quantize_name.
    repeat split; apply append_ne_l; simpl; intros E; injection E; intros; discriminate. }
  destruct Hd as (D1 & D2 & D3 & D4 & D5 & D6).
  unfold _eightbitize_input_to_node. fold u. rewrite Hmemo.
  fold reshape_name min_name max_name quantize_name.
  rewrite add_output_graph_node_Ok by exact Hreshape. cbn [bind].
  rewrite add_output_graph_node_Ok
    by (cbn; rewrite lookup_insert_ne; [exact Hmin | exact D1]).
  cbn [bind].
  rewrite add_output_graph_node_Ok
    by (cbn; rewrite !lookup_insert_ne; [exact Hmax | exact D2 | exact D4]).
  cbn [bind].
  rewrite add_output_graph_node_Ok.
  2:{ cbn. destruct (is_asymmetric self); cbn;
      (rewrite !lookup_insert_ne; [exact Hquantize | exact D3 | exact D5 | exact D6]). }
  cbn [bind]. do 5 eexists. split; [reflexivity |].
  cbn. rewrite <- !app_assoc. cbn. split; [reflexivity |].
  destruct (is_asymmetric self); cbn; repeat split; try reflexivity;
    rewrite ?lookup_insert_ne by discriminate; apply lookup_insert_eq.
Qed.

(** C6: within one pass at most one Reshape/Min/Max/QuantizeV2 subgraph
    is emitted per memo key.  The first call for a key (its four node
    names being free) emits exactly these four nodes and memoizes the
    triple of quantize output names; in every later state of the pass,
    every call whose input has the same key returns that triple and
    leaves the object, hence the output graph, as it was. *)
Theorem memo_at_most_one_subgraph (self : Self) (prefix i rs rd : string)
    (dtype : dtypes.DType) :
  let u := unique_node_name_from_input i in
  let reshape_name := prefix +:+ "_reshape_" +:+ u in
  let min_name := prefix +:+ "_min_" +:+ u in
  let max_name := prefix +:+ "_max_" +:+ u in
  let quantize_name := prefix +:+ "_quantize_" +:+ u in
  let triple := (quantize_name, quantize_name +:+ ":1", quantize_name +:+ ":2") in
  quantized_node_dict self !! u = None ->
  output_node_maps self !! reshape_name = None ->
  output_node_maps self !! min_name = None ->
  output_node_maps self !! max_name = None ->
  output_node_maps self !! quantize_name = None ->
  exists self1 n1 n2 n3 n4,
    _eightbitize_input_to_node self prefix i rs rd dtype = Ok (triple, self1)
    /\ output_graph self1 = output_graph self ++ [n1; n2; n3; n4]
    /\ map op [n1; n2; n3; n4] = ["Reshape"; "Min"; "Max"; "QuantizeV2"]
    /\ map name [n1; n2; n3; n4] = [reshape_name; min_name; max_name; quantize_name]
    /\ quantized_node_dict self1 !! u = Some triple
    /\ forall self2, pass_steps recursion_limit self1 self2 ->
       forall prefix' i' rs' rd' dtype',
         unique_node_name_from_input i' = u ->
         _eightbitize_input_to_node self2 prefix' i' rs' rd' dtype' = Ok (triple, self2).
Proof.
  intros u reshape_name min_name max_name quantize_name triple
    Hmemo Hreshape Hmin Hmax Hquantize.
  destruct (eightbitize_miss self prefix i rs rd dtype
              Hmemo Hreshape Hmin Hmax Hquantize)
    as (self1 & n1 & n2 & n3 & n4 & Hcall & Hgraph
        & (O1 & N1 & _) & (O2 & N2 & _) & (O3 & N3 & _) & (O4 & N4 & _) & Hdict).
  exists self1, n1, n2, n3, n4.
  split; [exact Hcall |]. split; [exact Hgraph |].
  split; [cbn; now rewrite O1, O2, O3, O4 |].
  split; [cbn; now rewrite N1, N2, N3, N4 |].
  assert (Hin : quantized_node_dict self1 !! u = Some triple).
  { rewrite Hdict. apply lookup_insert_eq. }
  split; [exact Hin |].
  intros self2 Hlater prefix' i' rs' rd' dtype' Hkey.
  apply eightbitize_hit. rewrite Hkey.
  eapply lookup_weaken; [exact Hin |].
  eapply pass_steps_memo, Hlater.
Qed.

(** A call that found no memo entry and succeeded has appended the
    QuantizeV2 node last, typed with the dtype it was given. *)
Lemma eightbitize_emits_quantize (self self1 : Self) (prefix i rs rd : string)
    (dtype : dtypes.DType) (triple : quantized_tuple) :
  _eightbitize_input_to_node self prefix i rs rd dtype = Ok (triple, self1) ->
  quantized_node_dict self !! unique_node_name_from_input i = None ->
  quantized_node_dict self1 !! unique_node_name_from_input i = Some triple
  /\ exists quantize_node,
       last (output_graph self1) = Some quantize_node
       /\ op quantize_node = "QuantizeV2"
       /\ name quantize_node = fst (fst triple)
       /\ attr quantize_node !! "T" = Some (AttrValue_type dtype).
Proof.
  intros Hfirst Hmemo.
  assert (Hfresh :
    output_node_maps self !! (prefix +:+ "_reshape_" +:+ unique_node_name_from_input i) = None
    /\ output_node_maps self !! (prefix +:+ "_min_" +:+ unique_node_name_from_input i) = None
    /\ output_node_maps self !! (prefix +:+ "_max_" +:+ unique_node_name_from_input i) = None
    /\ output_node_maps self !! (prefix +:+ "_quantize_" +:+ unique_node_name_from_input i)
       = None).
  { revert Hfirst. unfold _eightbitize_input_to_node. rewrite Hmemo. intros E.
    inv_bind E. apply add_output_graph_node_inv in Ha as [F1 ->].
    inv_bind E. apply add_output_graph_node_inv in Ha as [F2 ->].
    inv_bind E. apply add_output_graph_node_inv in Ha as [F3 ->].
    inv_bind E. apply add_output_graph_node_inv in Ha as [F4 ->].
    cbn in F1, F2, F3, F4.
    destruct (is_asymmetric self); cbn in F4;
      apply lookup_insert_None in F4 as [F4 _];
      apply lookup_insert_None in F4 as [F4 _];
      apply lookup_insert_None in F4 as [F4 _];
      apply lookup_insert_None in F3 as [F3 _];
      apply lookup_insert_None in F3 as [F3 _];
      apply lookup_insert_None in F2 as [F2 _]; auto. }
  destruct Hfresh as (F1 & F2 & F3 & F4).
  destruct (eightbitize_miss self prefix i rs rd dtype Hmemo F1 F2 F3 F4)
    as (self1' & n1 & n2 & n3 & n4 & Hcall & Hgraph & _ & _ & _
        & (O4 & N4 & _ & T4) & Hdict).
  rewrite Hcall in Hfirst. injection Hfirst as <- <-.
  split; [rewrite Hdict; apply lookup_insert_eq |].
  exists n4. rewrite Hgraph.
  split; [| now repeat split].
  change [n1; n2; n3; n4] with ([n1; n2; n3] ++ [n4]).
  rewrite app_assoc. apply last_snoc.
Qed.

(** C10: the memo is keyed by the input alone.  After a successful call
    for an input, a call for the same input with any other dtype (and
    any other prefix or dims names) returns the triple of the first call
    and changes nothing; when the first call was the one that emitted
    the subgraph, the QuantizeV2 node it appended carries the first
    dtype. *)
Theorem memo_key_ignores_dtype (self self1 : Self) (prefix i rs rd : string)
    (dtype1 : dtypes.DType) (triple : quantized_tuple) :
  _eightbitize_input_to_node self prefix i rs rd dtype1 = Ok (triple, self1) ->
  (forall prefix' rs' rd' dtype2,
     _eightbitize_input_to_node self1 prefix' i rs' rd' dtype2 = Ok (triple, self1))
  /\ (quantized_node_dict self !! unique_node_name_from_input i = None ->
      exists quantize_node,
        last (output_graph self1) = Some quantize_node
        /\ op quantize_node = "QuantizeV2"
        /\ name quantize_node = fst (fst triple)
        /\ attr quantize_node !! "T" = Some (AttrValue_type dtype1)).
Proof.
  intros Hfirst.
  destruct (quantized_node_dict self !! unique_node_name_from_input i) as [t|] eqn:Hmemo.
  - rewrite (eightbitize_hit self prefix i rs rd dtype1 t Hmemo) in Hfirst.
    injection Hfirst as <- <-.
    split; [| discriminate].
    intros. now apply eightbitize_hit.
  - destruct (eightbitize_emits_quantize _ _ _ _ _ _ _ _ Hfirst Hmemo) as [Hdict Hnode].
    split; [| intros _; exact Hnode].
    intros. now apply eightbitize_hit.
Qed.

(** ** The dtype of a prologue input *)

(** The dtype handed to the input quantization, branch by branch: the
    declared [T] of the input's producer when that producer has been
    emitted as a Dequantize node ([TypeError] when it declares none);
    else unsigned 8-bit when the lookback
    on the anchor finds a ReLU; else unsigned 8-bit when the anchor is a
    MatMul and the producer is in the output registry; else signed
    8-bit.  On a memo miss the QuantizeV2 node the step appends carries
    that dtype. *)
Theorem prologue_dtype_priority (self : Self) (original_node input_node_name : string)
    (anchor : node_details) :
  intel_cpu_eightbitize self = true ->
  od_get (node_name_mapping self) original_node = Ok anchor ->
  (forall emitted,
     output_node_maps self !! input_node_name = Some emitted ->
     op emitted = "Dequantize" ->
     prologue_dtype recursion_limit self original_node input_node_name
     = DType_of_enum (AttrValue_type_of (attr_get emitted "T")))
  /\ (forall relu,
        _find_relu_node recursion_limit self (node anchor) = Ok relu ->
        (forall emitted,
           output_node_maps self !! input_node_name = Some emitted ->
           op emitted <> "Dequantize" ->
           prologue_dtype recursion_limit self original_node input_node_name
           = Ok (if relu then dtypes.quint8
                 else if String.eqb (op (node anchor)) "MatMul" then dtypes.quint8
                 else dtypes.qint8))
        /\ (output_node_maps self !! input_node_name = None ->
            prologue_dtype recursion_limit self original_node input_node_name
            = Ok (if relu then dtypes.quint8 else dtypes.qint8)))
  /\ (forall prefix rs rd each_input_name ins mms dtype st',
        node_name_from_input each_input_name = input_node_name ->
        is_control_input each_input_name = Ok false ->
        prologue_dtype recursion_limit self original_node input_node_name = Ok dtype ->
        quantized_node_dict self !! unique_node_name_from_input each_input_name = None ->
        prologue_step recursion_limit original_node prefix rs rd (self, ins, mms)
          each_input_name = Ok st' ->
        exists quantize_node,
          last (output_graph (fst (fst st'))) = Some quantize_node
          /\ op quantize_node = "QuantizeV2"
          /\ attr quantize_node !! "T" = Some (AttrValue_type dtype)).
Proof.
  intros Height Hanchor.
  split; [| split].
  - intros emitted Hreg Hop. unfold prologue_dtype, dict_getitem.
    rewrite Height, Hreg. rewrite bool_decide_eq_true_2 by eauto. cbn.
    now rewrite Hop.
  - intros relu Hrelu. split.
    + intros emitted Hreg Hop. unfold prologue_dtype, dict_getitem.
      rewrite Height, Hreg. rewrite bool_decide_eq_true_2 by eauto. cbn.
      apply String.eqb_neq in Hop. rewrite Hop, Hanchor. cbn.
      rewrite Hrelu. cbn. now destruct relu, (String.eqb (op (node anchor)) "MatMul").
    + intros Hreg. unfold prologue_dtype.
      rewrite Height, Hreg.
      rewrite bool_decide_eq_false_2 by (intros [x Hx]; discriminate). cbn.
      rewrite Hanchor. cbn. now rewrite Hrelu.
  - intros prefix rs rd each_input_name ins mms dtype st' Hname Hctl Hdtype Hmemo.
    unfold prologue_step. rewrite Hctl. cbn. rewrite Hname, Hdtype. cbn.
    intros E. inv_bind E. destruct a as [[[q mn] mx] self1]. injection E as <-. cbn.
    destruct (eightbitize_emits_quantize _ _ _ _ _ _ _ _ Ha Hmemo)
      as [_ (qn & Hlast & Hop & _ & HT)].
    now exists qn.
Qed.

End Memo.

(** ** The redundant-quantization eliminator: what the scan records *)

Section Eliminator_scan.
Context `{QuantizeGraphHelper}.

Lemma list_getitem_Ok {A} (l : list A) (i : nat) (a : A) :
  l !! i = Some a -> list_getitem l i = Ok a.
Proof. intros E. unfold list_getitem. now rewrite E. Qed.

Lemma list_getitem_inv {A} (l : list A) (i : nat) (a : A) :
  list_getitem l i = Ok a -> l !! i = Some a.
Proof. unfold list_getitem. destruct (l !! i); [now intros [= ->] | discriminate]. Qed.

Lemma list_getitem_0 {A} (a : A) l : list_getitem (a :: l) 0 = Ok a.
Proof. reflexivity. Qed.

Lemma list_getitem_1 {A} (a b : A) l : list_getitem (a :: b :: l) 1 = Ok b.
Proof. reflexivity. Qed.

Lemma list_getitem_2 {A} (a b c : A) l : list_getitem (a :: b :: c :: l) 2 = Ok c.
Proof. reflexivity. Qed.

Lemma dict_getitem_Ok {V} (d : gmap string V) (k : string) (v : V) :
  d !! k = Some v -> dict_getitem d k = Ok v.
Proof. intros E. unfold dict_getitem. now rewrite E. Qed.

Lemma dict_getitem_inv {V} (d : gmap string V) (k : string) (v : V) :
  dict_getitem d k = Ok v -> d !! k = Some v.
Proof. unfold dict_getitem. destruct (d !! k); [now intros [= ->] | discriminate]. Qed.

(** The test of lines 447-460 decides [same_source]. *)
Lemma is_same_input_true (old_nodes_map : gmap string NodeDef)
    (min_node max_node : NodeDef) (mi ma : string) :
  input min_node !! 0 = Some mi ->
  input max_node !! 0 = Some ma ->
  is_same_input old_nodes_map (node_name_from_input mi) (node_name_from_input ma) = Ok true
  <-> same_source old_nodes_map min_node max_node.
Proof.
  intros Hmi Hma. unfold is_same_input. split.
  - destruct (String.eqb_spec (node_name_from_input mi) (node_name_from_input ma)) as [E|E].
    + intros _. exists mi, ma. auto.
    + intros Hsame. inv_bind Hsame. apply dict_getitem_inv in Ha.
      destruct (String.eqb_spec (op a) "Concat") as [Hc|Hc]; [| discriminate].
      inv_bind Hsame. apply list_getitem_inv in Ha0.
      inv_bind Hsame. apply dict_getitem_inv in Ha1.
      destruct (String.eqb_spec (op a1) "Min") as [Hm|Hm]; [| discriminate].
      inv_bind Hsame. apply list_getitem_inv in Ha2.
      injection Hsame as Hsame. apply String.eqb_eq in Hsame.
      exists mi, ma. split; [exact Hmi |]. split; [exact Hma |].
      right. exists a, a0, a1, a2. auto 10.
  - intros (mi' & ma' & Hmi' & Hma' & Hsrc).
    rewrite Hmi in Hmi'. rewrite Hma in Hma'.
    injection Hmi' as <-. injection Hma' as <-.
    destruct (String.eqb_spec (node_name_from_input mi) (node_name_from_input ma)) as [E|E];
      [reflexivity |].
    destruct Hsrc as [Hdirect | (c & second & second_min & x & Hc & Hop & Hs & Hm & Hmop & Hx & Hsrc)];
      [contradiction |].
    rewrite (dict_getitem_Ok _ _ _ Hc). cbn. rewrite Hop. cbn.
    rewrite (list_getitem_Ok _ _ _ Hs). cbn.
    rewrite (dict_getitem_Ok _ _ _ Hm). cbn. rewrite Hmop. cbn.
    rewrite (list_getitem_Ok _ _ _ Hx). cbn.
    rewrite Hsrc. now rewrite String.eqb_refl.
Qed.

(** C1: for a Quantize/QuantizeV2 node [n] whose first input is the
    Dequantize node [deq] (three inputs [d0], [d1], [d2]) with an equal
    [T] attribute, and whose min and max inputs are nodes of the accepted
    kinds, the scan records a rewire exactly when the min and max inputs
    trace to the same source: then it maps the value output of [n] to
    the node feeding [d0], and [n:1], [n:2] to [d1], [d2]; otherwise it
    leaves the map as it is, or fails on a reference it cannot resolve,
    and records nothing. *)
Theorem scan_records_iff_same_source (old_nodes_map : gmap string NodeDef)
    (inputs_to_rename : gmap string string) (n deq min_node max_node : NodeDef)
    (i0 i1 i2 d0 d1 d2 : string) (rest drest : list string) :
  str_in (op n) ["Quantize"; "QuantizeV2"] = true ->
  input n = i0 :: i1 :: i2 :: rest ->
  old_nodes_map !! node_name_from_input i0 = Some deq ->
  op deq = "Dequantize" ->
  AttrValue_eqb (attr_get n "T") (attr_get deq "T") = true ->
  input deq = d0 :: d1 :: d2 :: drest ->
  old_nodes_map !! node_name_from_input i1 = Some min_node ->
  old_nodes_map !! node_name_from_input i2 = Some max_node ->
  str_in (op min_node) ["Min"; "Dequantize"] = true ->
  str_in (op max_node) ["Max"; "Dequantize"] = true ->
  (same_source old_nodes_map min_node max_node ->
   scan_node old_nodes_map inputs_to_rename n
   = Ok (recorded inputs_to_rename n d0 d1 d2))
  /\ (~ same_source old_nodes_map min_node max_node ->
      scan_node old_nodes_map inputs_to_rename n = Ok inputs_to_rename
      \/ exists e, scan_node old_nodes_map inputs_to_rename n = Raise e).
Proof.
  intros Hop Hin Hdeq Hdop HT Hdin Hmin Hmax Hmint Hmaxt.
  assert (Hscan : scan_node old_nodes_map inputs_to_rename n =
    let* mi0 := list_getitem (input min_node) 0 in
    let* ma0 := list_getitem (input max_node) 0 in
    let* same := is_same_input old_nodes_map (node_name_from_input mi0)
                   (node_name_from_input ma0) in
    if negb same then Ok inputs_to_rename
    else Ok (recorded inputs_to_rename n d0 d1 d2)).
  { unfold scan_node. rewrite Hop, Hin. cbn [negb].
    rewrite list_getitem_0, list_getitem_1, list_getitem_2. cbn [bind].
    rewrite Hdeq, Hdop, HT. cbn [negb String.eqb Ascii.eqb Bool.eqb].
    rewrite (dict_getitem_Ok _ _ _ Hmin), (dict_getitem_Ok _ _ _ Hmax). cbn [bind].
    rewrite Hmint, Hmaxt, Hdin. cbn [negb orb].
    rewrite list_getitem_0, list_getitem_1, list_getitem_2.
    reflexivity. }
  rewrite Hscan. clear Hscan. split.
  - intros Hsame. destruct Hsame as (mi & ma & Hmi & Hma & Hsrc).
    rewrite (list_getitem_Ok _ _ _ Hmi), (list_getitem_Ok _ _ _ Hma). cbn.
    assert (Htrue : is_same_input old_nodes_map (node_name_from_input mi)
                      (node_name_from_input ma) = Ok true).
    { apply (is_same_input_true old_nodes_map min_node max_node mi ma Hmi Hma).
      exists mi, ma. auto. }
    now rewrite Htrue.
  - intros Hdiff.
    destruct (list_getitem (input min_node) 0) as [mi|e] eqn:Hmi; [| right; eauto].
    destruct (list_getitem (input max_node) 0) as [ma|e] eqn:Hma; [| right; eauto].
    cbn. apply list_getitem_inv in Hmi, Hma.
    destruct (is_same_input old_nodes_map (node_name_from_input mi)
                (node_name_from_input ma)) as [[|]|e] eqn:Hsame; cbn.
    + exfalso. apply Hdiff.
      now apply (is_same_input_true old_nodes_map min_node max_node mi ma Hmi Hma).
    + now left.
    + right; eauto.
Qed.

End Eliminator_scan.

(** ** The redundant-quantization eliminator: what the pass does to graphs *)

Section Eliminator_pass.
Context `{QuantizeGraphHelper}.

Lemma rewire_node_name (R : gmap string string) (n : NodeDef) :
  name (rewire_node R n) = name n.
Proof. reflexivity. Qed.

Lemma rewire_map_names (R : gmap string string) (g : GraphDef) :
  map name (map (rewire_node R) g) = map name g.
Proof. rewrite map_map. now apply map_ext. Qed.

(** The registry after the nodes of [g] have been added in order. *)
Lemma apply_loop_Ok (R : gmap string string) (g : GraphDef) :
  forall (self : Self) (visited : list NodeDef),
    NoDup (map name g) ->
    (forall n, In n g -> output_node_maps self !! name n = None) ->
    exists self',
      for_each (apply_step R) g (self, visited)
      = Ok (self', visited ++ map (rewire_node R) g)
      /\ output_graph self' = output_graph self ++ map (rewire_node R) g
      /\ quantized_node_dict self' = quantized_node_dict self.
Proof.
  induction g as [|n g IH]; intros self visited Hnodup Hfresh.
  - exists self. cbn. now rewrite !app_nil_r.
  - cbn [for_each]. unfold apply_step at 1.
    rewrite add_output_graph_node_Ok by exact (Hfresh n (or_introl eq_refl)).
    cbn [bind]. cbn [map] in Hnodup. apply NoDup_cons in Hnodup as [Hnotin Hnodup].
    destruct (IH (with_output self (output_graph self ++ [rewire_node R n])
                    (<[name (rewire_node R n) := rewire_node R n]> (output_node_maps self)))
                (visited ++ [rewire_node R n]) Hnodup) as (self' & Hrun & Hgraph & Hmemo).
    { intros n' Hin'. cbn.
      rewrite lookup_insert_ne; [apply Hfresh; now right |].
      intros E. apply Hnotin. rewrite E. apply list_elem_of_In, in_map, Hin'. }
    exists self'. rewrite Hrun. cbn in Hgraph.
    rewrite <- !app_assoc in *. cbn. auto.
Qed.

(** [create_nodes_map] succeeds exactly on graphs without two nodes of
    one name, and then maps every name to its node. *)
Lemma create_nodes_map_loop (g : GraphDef) :
  forall (m0 m : gmap string NodeDef),
    for_each (fun nodes_map n =>
                match nodes_map !! name n with
                | None => Ok (<[name n := n]> nodes_map)
                | Some _ => Raise ValueError
                end) g m0 = Ok m ->
    NoDup (map name g) /\ (forall n, In n g -> m0 !! name n = None).
Proof.
  induction g as [|n g IH]; intros m0 m E.
  - split; [constructor | intros ? []].
  - cbn in E. destruct (m0 !! name n) eqn:Hn; [discriminate |]. cbn in E.
    apply IH in E as [Hnodup Hfresh].
    assert (Hnotin : ~ In (name n) (map name g)).
    { intros Hin. apply in_map_iff in Hin as (n' & Hname & Hin').
      specialize (Hfresh n' Hin'). rewrite Hname, lookup_insert_eq in Hfresh.
      discriminate. }
    split.
    + cbn. apply NoDup_cons. split; [| exact Hnodup].
      intros Hin. apply Hnotin. now apply list_elem_of_In.
    + intros n' [<- | Hin']; [exact Hn |].
      specialize (Hfresh n' Hin').
      apply lookup_insert_None in Hfresh as [Hfresh _]. exact Hfresh.
Qed.

Lemma create_nodes_map_NoDup (g : GraphDef) (m : gmap string NodeDef) :
  create_nodes_map g = Ok m -> NoDup (map name g).
Proof. intros E. apply create_nodes_map_loop in E. tauto. Qed.

Lemma create_nodes_map_step_Ok (g : GraphDef) :
  forall m0 : gmap string NodeDef,
    NoDup (map name g) ->
    (forall n, In n g -> m0 !! name n = None) ->
    exists m,
      for_each (fun nodes_map n =>
                  match nodes_map !! name n with
                  | None => Ok (<[name n := n]> nodes_map)
                  | Some _ => Raise ValueError
                  end) g m0 = Ok m
      /\ (forall n, In n g -> m !! name n = Some n)
      /\ (forall k, ~ In k (map name g) -> m !! k = m0 !! k).
Proof.
  induction g as [|n g IH]; intros m0 Hnodup Hfresh.
  - exists m0. cbn. split; [reflexivity |]. split; [intros ? [] | auto].
  - cbn [map] in Hnodup. apply NoDup_cons in Hnodup as [Hnotin Hnodup].
    rewrite list_elem_of_In in Hnotin.
    cbn [for_each]. rewrite (Hfresh n) by now left. cbn [bind].
    destruct (IH (<[name n := n]> m0) Hnodup) as (m & Hrun & Hin & Hout).
    { intros n' Hin'. rewrite lookup_insert_ne; [apply Hfresh; now right |].
      intros E. apply Hnotin. rewrite E. now apply in_map. }
    exists m. split; [exact Hrun |]. split.
    + intros n' [<- | Hin']; [| now apply Hin].
      rewrite (Hout _ Hnotin). apply lookup_insert_eq.
    + intros k Hk. cbn in Hk. rewrite Hout by tauto.
      apply lookup_insert_ne. tauto.
Qed.

(** The nodes map holds the nodes of the graph, each under its name. *)
Lemma create_nodes_map_lookup (g : GraphDef) (m : gmap string NodeDef) :
  create_nodes_map g = Ok m ->
  (forall n, In n g -> m !! name n = Some n)
  /\ (forall k d, m !! k = Some d -> In d g /\ name d = k).
Proof.
  intros Hmap. pose proof (create_nodes_map_NoDup g m Hmap) as Hnodup.
  destruct (create_nodes_map_step_Ok g ∅ Hnodup) as (m' & Hrun & Hin & Hout).
  { intros n _. apply lookup_empty. }
  unfold create_nodes_map in Hmap. rewrite Hrun in Hmap. injection Hmap as ->.
  split; [exact Hin |].
  intros k d Hk.
  destruct (in_dec string_dec k (map name g)) as [Hkin | Hkout].
  - apply in_map_iff in Hkin as (n & <- & Hn).
    rewrite (Hin n Hn) in Hk. injection Hk as <-. auto.
  - rewrite (Hout k Hkout), lookup_empty in Hk. discriminate.
Qed.

Lemma NoDup_name_inj (g : GraphDef) (a b : NodeDef) :
  NoDup (map name g) -> In a g -> In b g -> name a = name b -> a = b.
Proof.
  induction g as [|n g IH]; intros Hnodup Ha Hb E; [destruct Ha |].
  cbn [map] in Hnodup. apply NoDup_cons in Hnodup as [Hnotin Hnodup].
  rewrite list_elem_of_In in Hnotin.
  destruct Ha as [<- | Ha], Hb as [<- | Hb]; [reflexivity | | | now apply IH].
  - exfalso. apply Hnotin. rewrite E. now apply in_map.
  - exfalso. apply Hnotin. rewrite <- E. now apply in_map.
Qed.

(** ** The attribute reads of the scan *)

Lemma attr_read_name (n : NodeDef) (k : string) : name (attr_read n k) = name n.
Proof. unfold attr_read. now destruct (attr n !! k). Qed.

Lemma attr_read_op (n : NodeDef) (k : string) : op (attr_read n k) = op n.
Proof. unfold attr_read. now destruct (attr n !! k). Qed.

Lemma attr_read_input (n : NodeDef) (k : string) : input (attr_read n k) = input n.
Proof. unfold attr_read. now destruct (attr n !! k). Qed.

(** A read leaves what every later read returns. *)
Lemma attr_read_get (n : NodeDef) (k k' : string) :
  attr_get (attr_read n k) k' = attr_get n k'.
Proof.
  unfold attr_read, attr_get. destruct (attr n !! k) eqn:E; [reflexivity |].
  cbn. destruct (String.eqb_spec k k') as [<- | Hne].
  - now rewrite lookup_insert_eq, E.
  - now rewrite lookup_insert_ne.
Qed.

Lemma attr_read_present (n : NodeDef) (k : string) :
  is_Some (attr n !! k) -> attr_read n k = n.
Proof. intros [v Hv]. unfold attr_read. now rewrite Hv. Qed.

Lemma attr_read_has (n : NodeDef) (k : string) : is_Some (attr (attr_read n k) !! k).
Proof.
  unfold attr_read. destruct (attr n !! k) eqn:E; [eauto |].
  cbn. rewrite lookup_insert_eq. eauto.
Qed.

Lemma str_in_In (x : string) (l : list string) : str_in x l = true <-> In x l.
Proof.
  unfold str_in. rewrite existsb_exists. split.
  - intros (y & Hy & E). apply String.eqb_eq in E. now subst.
  - intros Hx. exists x. split; [exact Hx | apply String.eqb_refl].
Qed.

(** The scan reads [T] from the nodes [reads_T] names, and from no other. *)
Lemma scan_reads_spec (g : GraphDef) (m : gmap string NodeDef) (n : NodeDef) :
  create_nodes_map g = Ok m ->
  In n g ->
  str_in (name n) (concat (map (scan_reads m) g)) = true <-> reads_T g n.
Proof.
  intros Hmap Hn. pose proof (create_nodes_map_NoDup g m Hmap) as Hnodup.
  destruct (create_nodes_map_lookup g m Hmap) as [Hin Hout].
  rewrite str_in_In, in_concat. split.
  - intros (l & Hl & Hnl). apply in_map_iff in Hl as (q & <- & Hq).
    unfold scan_reads in Hnl.
    destruct (str_in (op q) ["Quantize"; "QuantizeV2"]) eqn:Hop; cbn [negb] in Hnl;
      [| destruct Hnl].
    destruct (input q !! 0) as [i0|] eqn:Hi0; [| destruct Hnl].
    destruct (m !! node_name_from_input i0) as [d|] eqn:Hd; [| destruct Hnl].
    destruct (String.eqb_spec (op d) "Dequantize") as [Hdq | _]; [| destruct Hnl].
    destruct (Hout _ _ Hd) as [Hdin Hdname].
    exists q, i0, d. repeat split; auto.
    destruct Hnl as [E | [E | []]].
    + left. symmetry in E. now apply (NoDup_name_inj g).
    + right. symmetry in E. now apply (NoDup_name_inj g).
  - intros (q & i0 & d & Hq & Hd & Hop & Hi0 & Hname & Hdq & Hcase).
    exists (scan_reads m q). split; [apply in_map, Hq |].
    unfold scan_reads. rewrite Hop, Hi0. cbn [negb].
    rewrite <- Hname, (Hin d Hd), Hdq.
    change (String.eqb "Dequantize" "Dequantize") with true. cbn iota.
    destruct Hcase as [-> | ->]; [now left | right; now left].
Qed.

Lemma scan_effect_names (m : gmap string NodeDef) (g : GraphDef) :
  map name (scan_effect m g) = map name g.
Proof.
  unfold scan_effect. rewrite map_map. apply map_ext. intros n.
  destruct (str_in (name n) _); [apply attr_read_name | reflexivity].
Qed.

Lemma scanned_names (g : GraphDef) : map name (scanned g) = map name g.
Proof. unfold scanned. destruct (create_nodes_map g); [apply scan_effect_names | easy]. Qed.

(** What the scan leaves in a node. *)
Lemma scanned_nodes (g : GraphDef) (m : gmap string NodeDef) :
  create_nodes_map g = Ok m ->
  Forall2 (fun n n1 =>
             name n1 = name n /\ op n1 = op n /\ input n1 = input n
             /\ (reads_T g n -> n1 = attr_read n "T")
             /\ (~ reads_T g n -> n1 = n))
    g (scanned g).
Proof.
  intros Hmap. unfold scanned. rewrite Hmap. unfold scan_effect.
  apply Forall2_fmap_r, Forall_Forall2_diag, Forall_forall. intros n Hn.
  apply list_elem_of_In in Hn. unfold compose. cbn beta.
  pose proof (scan_reads_spec g m n Hmap Hn) as Hspec.
  destruct (str_in (name n) (concat (map (scan_reads m) g))) eqn:Hread.
  - rewrite attr_read_name, attr_read_op, attr_read_input.
    split; [reflexivity |]. split; [reflexivity |]. split; [reflexivity |].
    split; [reflexivity |].
    intros Hnot. exfalso. apply Hnot. now apply Hspec.
  - split; [reflexivity |]. split; [reflexivity |]. split; [reflexivity |].
    split; [| reflexivity].
    intros Hr. apply Hspec in Hr. discriminate.
Qed.

(** Nothing to read, or nothing missing: the scan leaves the graph as
    it found it. *)
Lemma scanned_id (g : GraphDef) :
  (forall n, In n g -> reads_T g n -> is_Some (attr n !! "T")) -> scanned g = g.
Proof.
  intros Hhas. unfold scanned.
  destruct (create_nodes_map g) as [m|e] eqn:Hmap; [| reflexivity].
  unfold scan_effect. transitivity (map id g); [| apply map_id].
  apply map_ext_in. intros n Hn. unfold id.
  destruct (str_in (name n) (concat (map (scan_reads m) g))) eqn:Hread; [| reflexivity].
  apply attr_read_present, Hhas; [exact Hn |].
  now apply (scan_reads_spec g m n Hmap Hn).
Qed.

(** What a run of the eliminator does, when the scan succeeds and no
    node name is taken in the registry. *)
Lemma remove_redundant_Ok (self : Self) (g : GraphDef) (R : gmap string string) :
  recorded_rewires g = Ok R ->
  (forall n, In n g -> output_node_maps self !! name n = None) ->
  exists self',
    remove_redundant_quantization self g
    = Ok (map (rewire_node R) (scanned g), map (rewire_node R) (scanned g), self')
    /\ output_graph self' = map (rewire_node R) (scanned g)
    /\ quantized_node_dict self' = quantized_node_dict self.
Proof.
  unfold recorded_rewires, remove_redundant_quantization, scanned. intros Hscan Hfresh.
  inv_bind Hscan. rewrite Ha. cbn [bind]. rewrite Hscan. cbn [bind]. cbn zeta.
  destruct (apply_loop_Ok R (scan_effect a g) (with_output self [] (output_node_maps self)) [])
    as (self' & Hrun & Hgraph & Hmemo).
  { rewrite scan_effect_names. eapply create_nodes_map_NoDup, Ha. }
  { intros n Hn. cbn. apply (in_map name) in Hn. rewrite scan_effect_names in Hn.
    apply in_map_iff in Hn as (n' & <- & Hn'). now apply Hfresh. }
  rewrite Hrun. cbn. cbn in Hgraph. exists self'. rewrite Hgraph. auto.
Qed.

(** The nodes whose input lists a rewire map changes. *)
Lemma rewire_node_id (R : gmap string string) (n : NodeDef) :
  (forall i, In i (input n) -> R !! ensure_tensor_name_has_port i = None) ->
  rewire_node R n = n.
Proof.
  intros Hnone. unfold rewire_node, set_input. destruct n as [nm o ins at_ dv]. cbn in *.
  f_equal. rewrite <- (map_id ins) at 2. apply map_ext_in.
  intros i Hin. unfold rewire_input. now rewrite (Hnone i Hin).
Qed.

Lemma Forall2_map_r_same {A B} (P : A -> B -> Prop) (f : B -> B) (l : list A) (l' : list B) :
  Forall2 (fun a b => P a (f b)) l l' -> Forall2 P l (map f l').
Proof. induction 1; cbn; constructor; auto. Qed.

(** C4 (as amended): when the scan succeeds with the map [R] and no node
    name of the graph is taken in the registry, the pass returns a graph
    built from scratch (whatever the previous output graph was), and it
    leaves the nodes of the input graph as the returned graph holds
    them.  Names and op kinds are kept.  Every input that is,
    port-qualified, a key of [R] is overwritten by the recorded target.
    Attributes are kept, except that the scan's read of [T] leaves an
    unset [T] in the nodes it reads and that have none: the Quantize
    and QuantizeV2 nodes fed by a [Dequantize] node, and those
    [Dequantize] nodes.  The input graph is unchanged when no input is a
    recorded key and every node whose [T] is read has one. *)
Theorem eliminator_rewires_in_place (self : Self) (g : GraphDef) (R : gmap string string) :
  recorded_rewires g = Ok R ->
  (forall n, In n g -> output_node_maps self !! name n = None) ->
  exists self' g1,
    remove_redundant_quantization self g = Ok (g1, g1, self')
    /\ output_graph self' = g1
    /\ Forall2 (fun n n1 =>
                  name n1 = name n
                  /\ op n1 = op n
                  /\ input n1 = map (rewire_input R) (input n)
                  /\ (reads_T g n -> attr n1 = attr (attr_read n "T"))
                  /\ (~ reads_T g n -> attr n1 = attr n))
         g g1
    /\ ((forall n i, In n g -> In i (input n) ->
           R !! ensure_tensor_name_has_port i = None) ->
        (forall n, In n g -> reads_T g n -> is_Some (attr n !! "T")) ->
        g1 = g).
Proof.
  intros Hscan Hfresh.
  destruct (remove_redundant_Ok self g R Hscan Hfresh) as (self' & Hrun & Hgraph & _).
  exists self', (map (rewire_node R) (scanned g)).
  split; [exact Hrun |]. split; [exact Hgraph |]. split.
  - unfold recorded_rewires in Hscan.
    destruct (create_nodes_map g) as [m|e] eqn:Hmap; [| discriminate].
    apply Forall2_map_r_same.
    eapply Forall2_impl; [exact (scanned_nodes g m Hmap) |].
    cbn. intros n n1 (Hname & Hop & Hinput & Hread & Hskip).
    rewrite <- Hinput.
    split; [exact Hname |]. split; [exact Hop |]. split; [reflexivity |]. split.
    + intros Hr. now rewrite (Hread Hr).
    + intros Hr. now rewrite (Hskip Hr).
  - intros Hnone Hhas. rewrite (scanned_id g Hhas).
    rewrite <- (map_id g) at 2. apply map_ext_in.
    intros n Hin. apply rewire_node_id. intros i. now apply Hnone.
Qed.

(** ** A second run of the eliminator *)

(** A rewrite of the nodes that the scan cannot tell from the
    original: names, op kinds and the [T] read are kept, and so are the
    input lists of the nodes of the graph whose inputs the scan reads. *)
Section Scan_invariance.
Variable f : NodeDef -> NodeDef.
Variable g : GraphDef.
Variable m : gmap string NodeDef.
Variable m' : gmap string NodeDef.
Hypothesis f_name : forall n, name (f n) = name n.
Hypothesis f_op : forall n, op (f n) = op n.
Hypothesis f_T : forall n, attr_get (f n) "T" = attr_get n "T".
Hypothesis f_input : forall n, In n g -> scan_inspects (op n) = true -> input (f n) = input n.
Hypothesis m_nodes : forall k d, m !! k = Some d -> In d g.
Hypothesis m_f : forall k, m' !! k = f <$> (m !! k).

Lemma is_same_input_invariant (a b : string) :
  is_same_input m' a b = is_same_input m a b.
Proof using f_op f_input m_nodes m_f.
  unfold is_same_input, dict_getitem. destruct (String.eqb a b); [reflexivity |].
  rewrite m_f. destruct (m !! a) as [c|] eqn:Hc; cbn [fmap option_fmap option_map bind]; [| reflexivity].
  rewrite f_op. destruct (String.eqb_spec (op c) "Concat") as [Hop | _]; [| reflexivity].
  rewrite (f_input c) by (eauto || (rewrite Hop; reflexivity)).
  destruct (list_getitem (input c) 1) as [i1|e]; cbn [fmap option_fmap option_map bind]; [| reflexivity].
  rewrite m_f. destruct (m !! node_name_from_input i1) as [d|] eqn:Hd; cbn [fmap option_fmap option_map bind]; [| reflexivity].
  rewrite f_op. destruct (String.eqb_spec (op d) "Min") as [Hop' | _]; [| reflexivity].
  rewrite (f_input d) by (eauto || (rewrite Hop'; reflexivity)).
  reflexivity.
Qed.

Lemma scan_node_invariant (R : gmap string string) (n : NodeDef) :
  In n g -> scan_node m' R (f n) = scan_node m R n.
Proof using f_name f_op f_T f_input m_nodes m_f.
  intros Hn. unfold scan_node, dict_getitem. rewrite f_op, f_name, !f_T.
  destruct (str_in (op n) ["Quantize"; "QuantizeV2"]) eqn:Hq; cbn [negb]; [| reflexivity].
  assert (Hins : scan_inspects (op n) = true).
  { unfold scan_inspects, str_in in *. cbn [existsb] in *.
    apply orb_true_iff in Hq as [-> | Hq]; [reflexivity |].
    apply orb_true_iff in Hq as [-> | Hq]; [now rewrite orb_true_r | discriminate]. }
  rewrite (f_input n Hn Hins).
  destruct (list_getitem (input n) 0) as [i0|e]; cbn [bind]; [| reflexivity].
  rewrite m_f. destruct (m !! node_name_from_input i0) as [d|] eqn:Hd; cbn [fmap option_fmap option_map bind]; [| reflexivity].
  rewrite f_op, f_T.
  destruct (String.eqb_spec (op d) "Dequantize") as [Hdq | _]; cbn [negb]; [| reflexivity].
  destruct (AttrValue_eqb (attr_get n "T") (attr_get d "T")); cbn [negb]; [| reflexivity].
  rewrite (f_input d) by (eauto || (rewrite Hdq; reflexivity)).
  destruct (list_getitem (input n) 1) as [i1|e]; cbn [bind]; [| reflexivity].
  destruct (list_getitem (input n) 2) as [i2|e]; cbn [bind]; [| reflexivity].
  rewrite !m_f.
  destruct (m !! node_name_from_input i1) as [mn|] eqn:Hmn; cbn [fmap option_fmap option_map bind]; [| reflexivity].
  destruct (m !! node_name_from_input i2) as [mx|] eqn:Hmx; cbn [fmap option_fmap option_map bind]; [| reflexivity].
  rewrite !f_op.
  destruct (str_in (op mn) ["Min"; "Dequantize"]) eqn:Hmin; cbn [negb orb]; [| reflexivity].
  destruct (str_in (op mx) ["Max"; "Dequantize"]) eqn:Hmax; cbn [negb orb]; [| reflexivity].
  assert (Hmn_ins : scan_inspects (op mn) = true).
  { unfold scan_inspects, str_in in *. cbn [existsb] in *.
    apply orb_true_iff in Hmin as [-> | Hmin]; [now rewrite !orb_true_r |].
    apply orb_true_iff in Hmin as [-> | Hmin]; [now rewrite !orb_true_r | discriminate]. }
  assert (Hmx_ins : scan_inspects (op mx) = true).
  { unfold scan_inspects, str_in in *. cbn [existsb] in *.
    apply orb_true_iff in Hmax as [-> | Hmax]; [now rewrite !orb_true_r |].
    apply orb_true_iff in Hmax as [-> | Hmax]; [now rewrite !orb_true_r | discriminate]. }
  rewrite (f_input mn (m_nodes _ _ Hmn) Hmn_ins), (f_input mx (m_nodes _ _ Hmx) Hmx_ins).
  destruct (list_getitem (input mn) 0) as [mi0|e]; cbn [bind]; [| reflexivity].
  destruct (list_getitem (input mx) 0) as [ma0|e]; cbn [bind]; [| reflexivity].
  rewrite is_same_input_invariant. reflexivity.
Qed.

Lemma scan_loop_invariant (l : list NodeDef) :
  forall R : gmap string string,
    (forall n, In n l -> In n g) ->
    for_each (scan_node m') (map f l) R = for_each (scan_node m) l R.
Proof using f_name f_op f_T f_input m_nodes m_f.
  induction l as [|n l IH]; intros R Hl; [reflexivity |].
  cbn [map for_each]. rewrite scan_node_invariant by (apply Hl; now left).
  destruct (scan_node m R n) as [R'|e]; cbn [bind]; [| reflexivity].
  apply IH. intros n' Hn'. apply Hl. now right.
Qed.

Lemma scan_reads_invariant (n : NodeDef) :
  In n g -> scan_reads m' (f n) = scan_reads m n.
Proof using f_name f_op f_input m_f.
  intros Hn. unfold scan_reads. rewrite f_op, f_name.
  destruct (str_in (op n) ["Quantize"; "QuantizeV2"]) eqn:Hq; cbn [negb]; [| reflexivity].
  assert (Hins : scan_inspects (op n) = true).
  { unfold scan_inspects, str_in in *. cbn [existsb] in *.
    apply orb_true_iff in Hq as [-> | Hq]; [reflexivity |].
    apply orb_true_iff in Hq as [-> | Hq]; [now rewrite orb_true_r | discriminate]. }
  rewrite (f_input n Hn Hins).
  destruct (input n !! 0) as [i0|]; [| reflexivity].
  rewrite m_f. destruct (m !! node_name_from_input i0) as [d|]; cbn [fmap option_fmap option_map bind]; [| reflexivity].
  now rewrite f_op, f_name.
Qed.

End Scan_invariance.

Lemma create_nodes_map_fmap (f : NodeDef -> NodeDef) (g : GraphDef) :
  (forall n, name (f n) = name n) ->
  forall m0 m : gmap string NodeDef,
    for_each (fun nodes_map n =>
                match nodes_map !! name n with
                | None => Ok (<[name n := n]> nodes_map)
                | Some _ => Raise ValueError
                end) g m0 = Ok m ->
    for_each (fun nodes_map n =>
                match nodes_map !! name n with
                | None => Ok (<[name n := n]> nodes_map)
                | Some _ => Raise ValueError
                end) (map f g) (f <$> m0) = Ok (f <$> m).
Proof.
  intros Hname. induction g as [|n g IH]; intros m0 m E.
  - cbn in E |- *. now injection E as <-.
  - cbn [map for_each] in E |- *. rewrite Hname, lookup_fmap.
    destruct (m0 !! name n); [discriminate |]. cbn [bind fmap option_fmap option_map] in E |- *.
    rewrite <- fmap_insert. now apply IH.
Qed.

(** C9 (as amended): on a graph without a chain of round trips, that
    is, where no node whose inputs the scan reads (a Quantize,
    QuantizeV2, Dequantize, Min, Max or Concat node) has an input that
    the first run records as a key, and no target the first run records
    is, port-qualified, itself a recorded key, a second run of the
    eliminator on the output of the first (with the registry reset in
    between) records exactly the rewire map of the first run, finds no
    input left to rewrite, and returns a graph equal to its input. *)
Theorem eliminator_second_run_fixpoint (self : Self) (g : GraphDef)
    (R1 : gmap string string) :
  recorded_rewires g = Ok R1 ->
  (forall n, In n g -> output_node_maps self !! name n = None) ->
  unchained g R1 ->
  exists self1 self2 g1,
    remove_redundant_quantization self g = Ok (g1, g1, self1)
    /\ recorded_rewires g1 = Ok R1
    /\ remove_redundant_quantization (_reset_output_node_maps self1) g1 = Ok (g1, g1, self2)
    /\ output_graph self2 = g1.
Proof.
  intros Hscan1 Hfresh [Hpattern Htargets].
  destruct (remove_redundant_Ok self g R1 Hscan1 Hfresh) as (self1 & Hrun1 & Hgraph1 & _).
  pose proof Hscan1 as Hscan. unfold recorded_rewires in Hscan.
  destruct (create_nodes_map g) as [m|e] eqn:Hmap; cbn [bind] in Hscan; [| discriminate].
  destruct (create_nodes_map_lookup g m Hmap) as [Hin Hout].
  set (read := concat (map (scan_reads m) g)).
  set (f := fun n => rewire_node R1 (if str_in (name n) read then attr_read n "T" else n)).
  assert (Hg1 : map (rewire_node R1) (scanned g) = map f g).
  { unfold scanned. rewrite Hmap. unfold scan_effect. now rewrite map_map. }
  rewrite Hg1 in *.
  assert (f_name : forall n, name (f n) = name n).
  { intros n. unfold f. cbn. destruct (str_in (name n) read);
      [apply attr_read_name | reflexivity]. }
  assert (f_op : forall n, op (f n) = op n).
  { intros n. unfold f. cbn. destruct (str_in (name n) read);
      [apply attr_read_op | reflexivity]. }
  assert (f_T : forall n, attr_get (f n) "T" = attr_get n "T").
  { intros n. unfold f. destruct (str_in (name n) read); [| reflexivity].
    apply (attr_read_get n "T" "T"). }
  assert (f_input : forall n, In n g -> scan_inspects (op n) = true -> input (f n) = input n).
  { intros n Hn Hins. unfold f. cbn [rewire_node set_input input].
    assert (Hsame : input (if str_in (name n) read then attr_read n "T" else n) = input n).
    { destruct (str_in (name n) read); [apply attr_read_input | reflexivity]. }
    rewrite Hsame. rewrite <- (map_id (input n)) at 2. apply map_ext_in.
    intros i Hi. unfold rewire_input. now rewrite (Hpattern n i Hn Hins Hi). }
  assert (m_nodes : forall k d, m !! k = Some d -> In d g).
  { intros k d Hk. now destruct (Hout k d Hk). }
  assert (Hmap1 : create_nodes_map (map f g) = Ok (f <$> m)).
  { unfold create_nodes_map in *. rewrite <- (fmap_empty f).
    now apply create_nodes_map_fmap. }
  assert (m_f : forall k, (f <$> m) !! k = f <$> (m !! k)).
  { intros k. apply lookup_fmap. }
  assert (Hscan2 : recorded_rewires (map f g) = Ok R1).
  { unfold recorded_rewires. rewrite Hmap1. cbn [bind].
    rewrite (scan_loop_invariant f g m (f <$> m) f_name f_op f_T f_input m_nodes m_f g);
      auto. }
  assert (Hscanned : scanned (map f g) = map f g).
  { unfold scanned. rewrite Hmap1. unfold scan_effect. rewrite !map_map.
    assert (Hread : concat (map (fun x => scan_reads (f <$> m) (f x)) g) = read).
    { unfold read. f_equal. apply map_ext_in. intros n Hn.
      now apply (scan_reads_invariant f g m (f <$> m) f_name f_op f_input m_f). }
    rewrite Hread. apply map_ext. intros n. rewrite f_name.
    destruct (str_in (name n) read) eqn:Hn; [| reflexivity].
    apply attr_read_present. unfold f. rewrite Hn. cbn [rewire_node set_input attr].
    apply attr_read_has. }
  assert (Hfix : map (rewire_node R1) (map f g) = map f g).
  { rewrite <- (map_id (map f g)) at 2. apply map_ext_in.
    intros n1 Hin1. apply rewire_node_id. intros i' Hi'.
    apply in_map_iff in Hin1 as (n & <- & Hn).
    unfold f in Hi'. cbn [rewire_node set_input input] in Hi'.
    apply in_map_iff in Hi' as (i & <- & Hi).
    unfold rewire_input.
    destruct (R1 !! ensure_tensor_name_has_port i) as [v|] eqn:Hlook.
    - apply (Htargets _ _ Hlook).
    - exact Hlook. }
  destruct (remove_redundant_Ok (_reset_output_node_maps self1) (map f g) R1 Hscan2)
    as (self2 & Hrun2 & Hgraph2 & _).
  { intros n _. apply lookup_empty. }
  rewrite Hscanned, Hfix in Hrun2, Hgraph2.
  exists self1, self2, (map f g). auto.
Qed.

End Eliminator_pass.

(** ** The fusion matcher at an anchor with a shared output *)

Section Matcher.
Context `{QuantizeGraphHelper}.
Variable recursion_limit : nat.

Lemma no_match_bind {A B} (m : result A) (k : A -> result (option B)) :
  (forall a, m = Ok a -> no_match (k a)) -> no_match (bind m k).
Proof.
  intros Hk. destruct m as [a|e]; cbn; [now apply Hk | right; eauto].
Qed.

(** One round of the [while] loop at a node with several consumers ends
    the loop with [sub_rule_len] still above 1. *)
Lemma match_chain_shared (self : Self) (sub_rule : list string) (remaining : nat)
    (cur_node_name : string) (matched : list string) (d : node_details) :
  od_get (node_name_mapping self) cur_node_name = Ok d ->
  1 < length (output d) ->
  match_chain self sub_rule (S remaining) cur_node_name matched = Ok (S (S remaining), [])
  \/ exists e, match_chain self sub_rule (S remaining) cur_node_name matched = Raise e.
Proof.
  intros Hcur Hshared. cbn [match_chain]. rewrite Hcur. cbn [bind].
  destruct (output d) as [|next rest] eqn:Hout; [cbn in Hshared; lia |].
  destruct (od_get (node_name_mapping self) next) as [dn|e]; [| right; eauto].
  cbn [bind].
  destruct (add_op_quantizable self cur_node_name next (op (node dn))) as [q|e];
    [| right; eauto].
  cbn [bind].
  assert (Hlen : (1 <? length (next :: rest))%nat = true) by now apply Nat.ltb_lt.
  rewrite Hlen. rewrite andb_false_r. cbn. now left.
Qed.

Lemma try_rules_shared (self : Self) (v key : string) (k : nat) (d : node_details)
    (rules : list (list string)) :
  od_keys (node_name_mapping self) !! k = Some key ->
  od_get (node_name_mapping self) key = Ok d ->
  1 < length (output d) ->
  ~ In [v] rules ->
  no_match (try_rules self v k rules).
Proof.
  intros Hkey Hd Hshared. induction rules as [|sub_rule rules IH]; intros Hsingle.
  - now left.
  - cbn [try_rules].
    assert (Hrest : ~ In [v] rules) by (intros Hin; apply Hsingle; now right).
    destruct sub_rule as [|first tl]; [right; cbn; eauto |].
    rewrite list_getitem_0. cbn [bind].
    destruct (String.eqb_spec v first) as [<- | Hne]; cbn [negb]; [| now apply IH].
    rewrite (list_getitem_Ok _ _ _ Hkey). cbn [bind].
    destruct tl as [|t tl'].
    { exfalso. apply Hsingle. now left. }
    cbn [length Nat.sub].
    replace (S (length tl') - 0) with (S (length tl')) by lia.
    destruct (match_chain_shared self (v :: t :: tl') (length tl') key [key] d Hd Hshared)
      as [E | [e E]]; rewrite E; [| right; cbn; eauto].
    cbn. now apply IH.
Qed.

Lemma scan_anchors_shared (self : Self) (rules : list (list string)) :
  (forall key d,
     od_get (node_name_mapping self) key = Ok d ->
     name (node d) = start_node_name self -> 1 < length (output d)) ->
  (forall k v key d,
     op_list self !! k = Some v ->
     od_keys (node_name_mapping self) !! k = Some key ->
     od_get (node_name_mapping self) key = Ok d ->
     name (node d) = start_node_name self -> ~ In [v] rules) ->
  forall ops k,
    (forall j v, ops !! j = Some v -> op_list self !! (k + j) = Some v) ->
    no_match (scan_anchors recursion_limit self rules k ops).
Proof.
  intros Hshared Hsingle ops. induction ops as [|v ops IH]; intros k Halign.
  - now left.
  - assert (Hnext : no_match (scan_anchors recursion_limit self rules (S k) ops)).
    { apply IH. intros j w Hj. replace (S k + j) with (k + S j) by lia.
      now apply Halign. }
    cbn [scan_anchors].
    apply no_match_bind. intros firsts _.
    destruct (str_in v firsts); [| exact Hnext].
    apply no_match_bind. intros key Hkey. apply list_getitem_inv in Hkey.
    apply no_match_bind. intros d Hd.
    destruct (String.eqb_spec (name (node d)) (start_node_name self)) as [Hname|Hname];
      cbn [negb]; [| exact Hnext].
    apply no_match_bind. intros skip _.
    destruct skip; [exact Hnext |].
    assert (Hv : op_list self !! k = Some v).
    { replace k with (k + 0) by lia. now apply Halign. }
    destruct (try_rules_shared self v key k d rules Hkey Hd (Hshared _ _ Hd Hname)
                (Hsingle _ _ _ _ Hv Hkey Hd Hname)) as [E | [e E]];
      rewrite E; cbn [bind]; [exact Hnext | right; eauto].
Qed.

Lemma first_ops_Ok (rules : list (list string)) :
  Forall (fun r => r <> []) rules -> exists firsts, first_ops rules = Ok firsts.
Proof.
  induction 1 as [|r rules Hr _ [firsts IH]]; [now exists [] |].
  destruct r as [|f r]; [contradiction |].
  cbn [first_ops]. rewrite list_getitem_0. cbn [bind]. rewrite IH. cbn. eauto.
Qed.

(** Every key of the index resolves. *)
Lemma od_get_key {V} (d : OrderedDict V) (k : nat) (key : string) :
  od_keys d !! k = Some key -> exists v, od_get d key = Ok v.
Proof.
  revert k. induction d as [|[k' v] d IH]; intros k Hk; [destruct k; discriminate |].
  cbn [od_get]. destruct (String.eqb_spec k' key) as [E|E]; [eauto |].
  destruct k as [|k]; [cbn in Hk; congruence |]. eapply IH, Hk.
Qed.

Lemma match_chain_shared_Ok (self : Self) (sub_rule : list string) (remaining : nat)
    (cur_node_name : string) (matched : list string) (d : node_details) :
  od_get (node_name_mapping self) cur_node_name = Ok d ->
  1 < length (output d) ->
  (forall next rest,
     output d = next :: rest ->
     exists dn q,
       od_get (node_name_mapping self) next = Ok dn
       /\ add_op_quantizable self cur_node_name next (op (node dn)) = Ok q) ->
  match_chain self sub_rule (S remaining) cur_node_name matched = Ok (S (S remaining), []).
Proof.
  intros Hcur Hshared Hnext. cbn [match_chain]. rewrite Hcur. cbn [bind].
  destruct (output d) as [|next rest] eqn:Hout; [cbn in Hshared; lia |].
  destruct (Hnext next rest eq_refl) as (dn & q & Hdn & Hq).
  rewrite Hdn. cbn [bind]. rewrite Hq. cbn [bind].
  assert (Hlen : (1 <? length (next :: rest))%nat = true) by now apply Nat.ltb_lt.
  rewrite Hlen. rewrite andb_false_r. reflexivity.
Qed.

Lemma try_rules_shared_Ok (self : Self) (v key : string) (k : nat) (d : node_details)
    (rules : list (list string)) :
  od_keys (node_name_mapping self) !! k = Some key ->
  od_get (node_name_mapping self) key = Ok d ->
  1 < length (output d) ->
  (forall next rest,
     output d = next :: rest ->
     exists dn q,
       od_get (node_name_mapping self) next = Ok dn
       /\ add_op_quantizable self key next (op (node dn)) = Ok q) ->
  ~ In [v] rules ->
  Forall (fun r => r <> []) rules ->
  try_rules self v k rules = Ok None.
Proof.
  intros Hkey Hd Hshared Hnext Hsingle Hnonempty.
  induction Hnonempty as [|sub_rule rules Hne _ IH]; [reflexivity |].
  assert (Hrest : ~ In [v] rules) by (intros Hin; apply Hsingle; now right).
  cbn [try_rules]. destruct sub_rule as [|first tl]; [contradiction |].
  rewrite list_getitem_0. cbn [bind].
  destruct (String.eqb_spec v first) as [<- | Hdiff]; cbn [negb]; [| now apply IH].
  rewrite (list_getitem_Ok _ _ _ Hkey). cbn [bind].
  destruct tl as [|t tl'].
  { exfalso. apply Hsingle. now left. }
  cbn [length Nat.sub].
  replace (S (length tl') - 0) with (S (length tl')) by lia.
  rewrite (match_chain_shared_Ok self (v :: t :: tl') (length tl') key [key] d
             Hd Hshared Hnext).
  cbn. now apply IH.
Qed.

Lemma scan_anchors_shared_Ok (self : Self) (rules : list (list string)) :
  (forall key d,
     od_get (node_name_mapping self) key = Ok d ->
     name (node d) = start_node_name self -> 1 < length (output d)) ->
  (forall k v key d,
     op_list self !! k = Some v ->
     od_keys (node_name_mapping self) !! k = Some key ->
     od_get (node_name_mapping self) key = Ok d ->
     name (node d) = start_node_name self -> ~ In [v] rules) ->
  Forall (fun r => r <> []) rules ->
  enable_s8 self = true ->
  (forall key d next rest,
     od_get (node_name_mapping self) key = Ok d ->
     name (node d) = start_node_name self ->
     output d = next :: rest ->
     exists dn q,
       od_get (node_name_mapping self) next = Ok dn
       /\ add_op_quantizable self key next (op (node dn)) = Ok q) ->
  forall ops k,
    (forall j v, ops !! j = Some v -> op_list self !! (k + j) = Some v) ->
    k + length ops <= length (node_name_mapping self) ->
    scan_anchors recursion_limit self rules k ops = Ok None.
Proof.
  intros Hshared Hsingle Hnonempty Hs8 Hcons ops.
  destruct (first_ops_Ok rules Hnonempty) as [firsts Hfirsts].
  induction ops as [|v ops IH]; intros k Halign Hlen; [reflexivity |].
  assert (Hnext : scan_anchors recursion_limit self rules (S k) ops = Ok None).
  { apply IH.
    - intros j w Hj. replace (S k + j) with (k + S j) by lia. now apply Halign.
    - cbn [length] in Hlen. lia. }
  cbn [scan_anchors]. rewrite Hfirsts. cbn [bind].
  destruct (str_in v firsts); [| exact Hnext].
  assert (Hk : k < length (od_keys (node_name_mapping self))).
  { unfold od_keys. rewrite length_map. cbn [length] in Hlen. lia. }
  apply lookup_lt_is_Some in Hk as [key Hkey].
  rewrite (list_getitem_Ok _ _ _ Hkey). cbn [bind].
  destruct (od_get_key _ _ _ Hkey) as [d Hd]. rewrite Hd. cbn [bind].
  destruct (String.eqb_spec (name (node d)) (start_node_name self)) as [Hname|Hname];
    cbn [negb]; [| exact Hnext].
  rewrite Hs8. cbn [negb]. rewrite andb_false_r. cbn [bind].
  assert (Hv : op_list self !! k = Some v).
  { replace k with (k + 0) by lia. now apply Halign. }
  rewrite (try_rules_shared_Ok self v key k d rules Hkey Hd (Hshared _ _ Hd Hname)
             (fun next rest Hout => Hcons key d next rest Hd Hname Hout)
             (Hsingle _ _ _ _ Hv Hkey Hd Hname) Hnonempty).
  cbn [bind]. exact Hnext.
Qed.

(** C2 (as amended): when every index entry whose node is named
    [start_node_name] has more than one consumer, and no rule consists
    of the anchor's op kind alone, the matcher returns no matched chain:
    its result is the no-match pair, or an exception.  It is the
    no-match pair when, besides, no rule is empty, the op list is no
    longer than the index, signed 8-bit is enabled (no lookback runs)
    and the anchor's first consumer resolves and passes the Add/AddN
    check without an exception.  (A rule of one element is matched
    without looking at the consumers.) *)
Theorem shared_anchor_never_matches (self : Self) (rules : list (list string)) :
  (forall key d,
     od_get (node_name_mapping self) key = Ok d ->
     name (node d) = start_node_name self -> 1 < length (output d)) ->
  (forall k v key d,
     op_list self !! k = Some v ->
     od_keys (node_name_mapping self) !! k = Some key ->
     od_get (node_name_mapping self) key = Ok d ->
     name (node d) = start_node_name self -> ~ In [v] rules) ->
  (_is_match recursion_limit self rules = Ok None
   \/ exists e, _is_match recursion_limit self rules = Raise e)
  /\ (forall m, _is_match recursion_limit self rules <> Ok (Some m))
  /\ (Forall (fun r => r <> []) rules ->
      length (op_list self) <= length (node_name_mapping self) ->
      enable_s8 self = true ->
      (forall key d next rest,
         od_get (node_name_mapping self) key = Ok d ->
         name (node d) = start_node_name self ->
         output d = next :: rest ->
         exists dn q,
           od_get (node_name_mapping self) next = Ok dn
           /\ add_op_quantizable self key next (op (node dn)) = Ok q) ->
      _is_match recursion_limit self rules = Ok None).
Proof.
  intros Hshared Hsingle.
  assert (Hno : no_match (_is_match recursion_limit self rules)).
  { unfold _is_match. apply scan_anchors_shared; [exact Hshared | exact Hsingle |].
    intros j v Hj. exact Hj. }
  split; [exact Hno |]. split.
  - intros m E. destruct Hno as [E' | [e E']]; rewrite E' in E; discriminate.
  - intros Hnonempty Hlen Hs8 Hcons. unfold _is_match.
    apply scan_anchors_shared_Ok; auto.
Qed.

End Matcher.

(** ** Per-channel weight ranges *)

Section Per_channel.
#[local] Open Scope float_scope.
Variable undefined_int8_cast : float -> Z.
Variable quantize_v2 : ndarray float -> float -> float -> string -> list Z * float * float.

Lemma SFcompare_not_lt_le (x : spec_float) (m : positive) (e : Z) :
  SFltb x (S754_finite false m e) = false ->
  SFeqb x x = true ->
  SFleb (S754_finite false m e) x = true.
Proof.
  unfold SFltb, SFeqb, SFleb.
  destruct x as [s | s | | s mx ex]; cbn; try discriminate; try (destruct s; easy).
  destruct s; [discriminate |].
  rewrite (Z.compare_antisym ex e).
  assert (Hanti : Pos.compare_cont Eq m mx = CompOpp (Pos.compare_cont Eq mx m))
    by (symmetry; apply (Pos.compare_cont_antisym mx m Eq)).
  rewrite Hanti.
  destruct (ex ?= e)%Z; cbn [CompOpp]; try easy.
  destruct (Pos.compare_cont Eq mx m); cbn [CompOpp]; easy.
Qed.

(** [epsilon] as a binary32 value. *)
Lemma stored_epsilon : Prim2SF (float32 epsilon) = S754_finite false 7378697443082240 (-66).
Proof. vm_compute. reflexivity. Qed.

(** A float that is not below the stored [epsilon] and is a number is
    at least the stored [epsilon]. *)
Lemma not_below_at_least (r : float) :
  (r <? float32 epsilon) = false -> at_least_stored_epsilon r.
Proof.
  intros Hlt. split; [exact Hlt |].
  unfold is_nan. intros Hnan. apply negb_false_iff in Hnan.
  rewrite FloatAxioms.ltb_spec in Hlt. rewrite FloatAxioms.eqb_spec in Hnan.
  rewrite FloatAxioms.leb_spec.
  revert Hlt. rewrite stored_epsilon.
  intros Hlt. now apply SFcompare_not_lt_le.
Qed.

(** The two assignments that reach the divisor array never leave a
    value below [epsilon] in it. *)
Lemma nudged_at_least (r : float) :
  at_least_stored_epsilon
    (let r1 := if r <? float32 epsilon then float32 epsilon else r in
     if abs r1 <? float32 epsilon then float32 epsilon else r1).
Proof.
  apply not_below_at_least. cbn zeta.
  destruct (r <? float32 epsilon) eqn:E1.
  - now destruct (abs (float32 epsilon) <? float32 epsilon).
  - destruct (abs r <? float32 epsilon) eqn:E2; [reflexivity | exact E1].
Qed.

Lemma lookup_map {A B} (f : A -> B) (l : list A) (i : nat) :
  map f l !! i = f <$> (l !! i).
Proof.
  revert i. induction l as [|a l IH]; intros [|i]; cbn; auto.
Qed.

Lemma rows_of_map (f : float -> float) (count n : nat) (l : list float) :
  rows_of count n (map f l) = map (map f) (rows_of count n l).
Proof.
  revert l. induction count as [|count IH]; intros l; cbn; [reflexivity |].
  now rewrite firstn_map, skipn_map, IH.
Qed.

(** The maximum over the rows of a channel of zeros is [+0]. *)
Lemma column_max_zero (o : nat) (rs : list (list float)) :
  forall acc : list float,
    acc !! o = Some 0 ->
    zero_channel rs o ->
    foldl (zip_with np_maximum) acc (map (map abs) rs) !! o = Some 0.
Proof.
  induction rs as [|row rs IH]; intros acc Hacc Hzero; [exact Hacc |].
  apply Forall_cons in Hzero as [Hrow Hzero].
  cbn [map foldl]. apply IH; [| exact Hzero].
  rewrite lookup_zip_with, Hacc, lookup_map. cbn.
  destruct Hrow as [-> | ->]; reflexivity.
Qed.

(** The shared computation on the ranges of the rows. *)
Lemma per_channel_quantize_zero (r : list float) (rs : list (list float)) :
  let ranges := foldl (zip_with np_maximum) (map abs r) (map (map abs) rs) in
  let divisors := nudge_max (nudge_ranges ranges) in
  let mins := nudge_min (map PrimFloat.opp ranges) in
  per_channel_quantize undefined_int8_cast (r :: rs) ranges
  = (concat (map (fun row =>
                    zip_with (fun v d => astype_int8 undefined_int8_cast (div32 (mul32 v 127) d))
                      row divisors) (r :: rs)),
     mins, divisors)
  /\ Forall at_least_stored_epsilon divisors
  /\ forall o,
       zero_channel (r :: rs) o ->
       divisors !! o = Some (float32 epsilon)
       /\ mins !! o = Some (float32 (- epsilon))
       /\ Forall (fun row =>
                    zip_with (fun v d => astype_int8 undefined_int8_cast (div32 (mul32 v 127) d))
                      row divisors !! o = Some 0%Z) (r :: rs).
Proof.
  intros ranges divisors mins. split; [reflexivity |]. split.
  - unfold divisors, nudge_max, nudge_ranges. rewrite map_map.
    apply Forall_forall. intros x Hx.
    apply list_elem_of_In, in_map_iff in Hx as (r0 & <- & _).
    apply nudged_at_least.
  - intros o Hzero.
    assert (Hrange : ranges !! o = Some 0).
    { unfold ranges. pose proof Hzero as Hz.
      apply Forall_cons in Hz as [Hr Hrs].
      apply column_max_zero; [| exact Hrs].
      rewrite lookup_map. destruct Hr as [-> | ->]; reflexivity. }
    assert (Hdiv : divisors !! o = Some (float32 epsilon)).
    { unfold divisors, nudge_max, nudge_ranges.
      rewrite !lookup_map, Hrange. vm_compute. reflexivity. }
    split; [exact Hdiv |]. split.
    + unfold mins, nudge_min. rewrite !lookup_map, Hrange. vm_compute. reflexivity.
    + eapply Forall_impl; [exact Hzero |].
      intros row Hrow. rewrite lookup_zip_with, Hdiv.
      destruct Hrow as [-> | ->]; vm_compute; reflexivity.
Qed.

(** C8 (as amended): on the per-channel paths that reach the division
    (a Conv2D or MatMul weight of at least four axes with [per_channel],
    and a 4-D DepthwiseConv2dNative weight), over a tensor with at least
    one row, the quantized values are [value * 127 / range], computed in
    binary32 and truncated toward zero by the cast to [int8], and no
    channel range used as divisor is below [epsilon] as the [float32]
    range array stores it (each is at least that value unless it is a
    NaN).  For a channel of zeros the divisor is the stored [epsilon],
    the min and max constants are the stored [-epsilon] and [epsilon],
    and every quantized value of the channel is 0.  With [per_channel],
    a Conv2D or MatMul weight of fewer than three axes never reaches the
    division: the reduction raises [AxisError]. *)
Theorem per_channel_divisor_at_least_epsilon (parent : string) (per_channel_ : bool)
    (t : ndarray float) (mode : string) :
  (forall rows,
     per_channel_path parent per_channel_ t rows ->
     rows <> [] ->
     exists q mins divisors channels,
       quantize_weight_values undefined_int8_cast quantize_v2 parent t per_channel_ mode
       = Ok (q, value_floats (mk_ndarray channels mins),
             value_floats (mk_ndarray channels divisors))
       /\ q = concat (map (fun row =>
                             zip_with (fun v d =>
                                         astype_int8 undefined_int8_cast (div32 (mul32 v 127) d))
                               row divisors) rows)
       /\ Forall at_least_stored_epsilon divisors
       /\ forall o,
            zero_channel rows o ->
            divisors !! o = Some (float32 epsilon)
            /\ mins !! o = Some (float32 (- epsilon))
            /\ Forall (fun row =>
                         zip_with (fun v d =>
                                     astype_int8 undefined_int8_cast (div32 (mul32 v 127) d))
                           row divisors !! o = Some 0%Z) rows)
  /\ (str_in parent ["Conv2D"; "MatMul"] = true ->
      per_channel_ = true ->
      (length (shape t) < 3)%nat ->
      quantize_weight_values undefined_int8_cast quantize_v2 parent t per_channel_ mode
      = Raise AxisError).
Proof.
  split.
  2:{ intros Hparent -> Hlen. unfold quantize_weight_values, np_max_leading.
      rewrite Hparent. cbn [np_abs shape].
      apply Nat.ltb_lt in Hlen. now rewrite Hlen. }
  intros rows Hpath Hrows.
  destruct Hpath as [Hparent -> Hdims | a b c d -> Hshape].
  - destruct (leading_rows 3 t) as [|r rs] eqn:Hr; [contradiction |].
    destruct (per_channel_quantize_zero r rs) as (Hq & Hsafe & Hzero).
    unfold quantize_weight_values. rewrite Hparent.
    unfold np_max_leading. cbn [np_abs shape data].
    assert (Hlen : (length (shape t) <? 3)%nat = false) by (apply Nat.ltb_ge; lia).
    rewrite Hlen.
    assert (Habs : leading_rows 3 (np_abs t) = map abs r :: map (map abs) rs).
    { unfold leading_rows in *. cbn [np_abs shape data]. now rewrite rows_of_map, Hr. }
    rewrite Habs. cbn [bind].
    assert (Hlen3 : (length (shape t) =? 3)%nat = false) by (apply Nat.eqb_neq; lia).
    rewrite Hlen3, Hr, Hq.
    do 4 eexists. split; [reflexivity |]. split; [reflexivity |]. split; assumption.
  - assert (Hrow : leading_rows 2 t = rows_of (a * b) (c * d) (data t)).
    { unfold leading_rows. rewrite Hshape. cbn [take drop prod foldr firstn skipn].
      now rewrite !Nat.mul_1_r. }
    destruct (rows_of (a * b) (c * d) (data t)) as [|r rs] eqn:Hr; [contradiction |].
    destruct (per_channel_quantize_zero r rs) as (Hq & Hsafe & Hzero).
    unfold quantize_weight_values. cbn [str_in existsb String.eqb Ascii.eqb Bool.eqb orb].
    unfold np_max_leading. cbn [np_abs shape data]. rewrite Hshape.
    cbn [length Nat.ltb Nat.leb].
    assert (Habs : leading_rows 2 (np_abs t) = map abs r :: map (map abs) rs).
    { unfold leading_rows in *. cbn [np_abs shape data] in *.
      now rewrite rows_of_map, Hrow. }
    rewrite Habs. cbn [bind].
    assert (Hdiv : leading_rows 2 (mk_ndarray [a; b; (c * d)%nat] (data t)) = r :: rs).
    { unfold leading_rows. cbn [shape data take drop prod foldr firstn skipn].
      now rewrite !Nat.mul_1_r. }
    rewrite Hdiv, Hq.
    do 4 eexists. split; [reflexivity |]. split; [reflexivity |]. split; assumption.
Qed.

End Per_channel.

(** ** The loop combinator and the ordered dictionary *)

Lemma for_each_app {A S} (body : S -> A -> result S) (l1 l2 : list A) (s : S) :
  for_each body (l1 ++ l2) s = bind (for_each body l1 s) (for_each body l2).
Proof.
  revert s. induction l1 as [|a l1 IH]; intros s; cbn; [reflexivity |].
  destruct (body s a) as [s'|e]; cbn; [apply IH | reflexivity].
Qed.

Lemma for_each_map {A B S} (body : S -> B -> result S) (f : A -> B) (l : list A) (s : S) :
  for_each (fun s a => body s (f a)) l s = for_each body (map f l) s.
Proof.
  revert s. induction l as [|a l IH]; intros s; cbn; [reflexivity |].
  destruct (body s (f a)) as [s'|e]; cbn; [apply IH | reflexivity].
Qed.

Lemma for_each_ext {A S} (body1 body2 : S -> A -> result S) (l : list A) (s : S) :
  (forall s a, body1 s a = body2 s a) -> for_each body1 l s = for_each body2 l s.
Proof.
  intros Hext. revert s. induction l as [|a l IH]; intros s; cbn; [reflexivity |].
  rewrite Hext. destruct (body2 s a) as [s'|e]; cbn; [apply IH | reflexivity].
Qed.

Lemma for_each_concat {A B S} (body : S -> B -> result S) (f : A -> list B)
    (l : list A) (s : S) :
  for_each (fun s a => for_each body (f a) s) l s = for_each body (concat (map f l)) s.
Proof.
  revert s. induction l as [|a l IH]; intros s; cbn; [reflexivity |].
  rewrite for_each_app. destruct (for_each body (f a) s) as [s'|e]; cbn;
    [apply IH | reflexivity].
Qed.

Lemma od_contains_In {V} (d : OrderedDict V) (k : string) :
  od_contains d k = true <-> In k (od_keys d).
Proof.
  induction d as [|[k' v] d IH]; cbn; [easy |].
  rewrite orb_true_iff, IH, String.eqb_eq. tauto.
Qed.

Lemma od_contains_app {V} (d1 d2 : OrderedDict V) (k : string) :
  od_contains (d1 ++ d2) k = od_contains d1 k || od_contains d2 k.
Proof.
  induction d1 as [|[k' v] d1 IH]; cbn; [reflexivity |].
  now rewrite IH, orb_assoc.
Qed.

Lemma od_get_contains {V} (d : OrderedDict V) (k : string) :
  od_contains d k = false -> od_get d k = Raise KeyError.
Proof.
  induction d as [|[k' v] d IH]; cbn; [reflexivity |].
  destruct (String.eqb k' k); cbn; [discriminate | exact IH].
Qed.

(** With unique keys, every pair of the list is what its key reads. *)
Lemma od_get_In {V} (d : OrderedDict V) (k : string) (v : V) :
  NoDup (od_keys d) -> In (k, v) d -> od_get d k = Ok v.
Proof.
  induction d as [|[k' v'] d IH]; cbn; [easy |].
  intros Hnodup Hin. apply NoDup_cons in Hnodup as [Hnotin Hnodup].
  destruct Hin as [[= -> ->] | Hin]; [now rewrite String.eqb_refl |].
  destruct (String.eqb_spec k' k) as [-> | _]; [| now apply IH].
  exfalso. apply Hnotin, list_elem_of_In. unfold od_keys.
  apply in_map_iff. now exists (k, v).
Qed.

(** ** [create_nodes_map] *)

Section Nodes_map.

Lemma create_nodes_map_raises (g : GraphDef) :
  forall m0 : gmap string NodeDef,
    (exists m, for_each (fun nodes_map n =>
                           match nodes_map !! name n with
                           | None => Ok (<[name n := n]> nodes_map)
                           | Some _ => Raise ValueError
                           end) g m0 = Ok m)
    \/ for_each (fun nodes_map n =>
                   match nodes_map !! name n with
                   | None => Ok (<[name n := n]> nodes_map)
                   | Some _ => Raise ValueError
                   end) g m0 = Raise ValueError.
Proof.
  induction g as [|n g IH]; intros m0; cbn; [left; eauto |].
  destruct (m0 !! name n); cbn; [now right | apply IH].
Qed.

(** X1: [create_nodes_map] succeeds exactly on graphs whose node names
    are pairwise distinct, and raises [ValueError] on the others; the
    map it builds reads every node back under its name and holds no
    other key. *)
Theorem create_nodes_map_spec (g : GraphDef) :
  (NoDup (map name g) ->
   exists m,
     create_nodes_map g = Ok m
     /\ (forall n, In n g -> m !! name n = Some n)
     /\ (forall k, ~ In k (map name g) -> m !! k = None))
  /\ (~ NoDup (map name g) -> create_nodes_map g = Raise ValueError).
Proof.
  split.
  - intros Hnodup.
    destruct (create_nodes_map_step_Ok g ∅ Hnodup) as (m & Hrun & Hin & Hout).
    { intros n _. apply lookup_empty. }
    exists m. split; [exact Hrun |]. split; [exact Hin |].
    intros k Hk. rewrite (Hout k Hk). apply lookup_empty.
  - intros Hdup. destruct (create_nodes_map_raises g ∅) as [[m Hrun] | Hraise];
      [| exact Hraise].
    exfalso. apply Hdup. eapply create_nodes_map_NoDup, Hrun.
Qed.

End Nodes_map.

(** ** The graph index built by [_parse_graph] *)

Section Graph_index.
Context `{QuantizeGraphHelper}.

Lemma od_get_is_key {V} (d : OrderedDict V) (key : string) :
  In key (od_keys d) -> exists v, od_get d key = Ok v.
Proof.
  intros Hin. apply list_elem_of_In, list_elem_of_lookup in Hin as [i Hi].
  eapply od_get_key, Hi.
Qed.

Lemma od_get_Ok_key {V} (d : OrderedDict V) (key : string) (v : V) :
  od_get d key = Ok v -> In key (od_keys d).
Proof.
  intros Hget. apply od_contains_In.
  destruct (od_contains d key) eqn:E; [reflexivity |].
  rewrite (od_get_contains d key E) in Hget. discriminate.
Qed.

(** The first pass: one entry per node, in order, unless a name repeats. *)
Lemma parse_entries (g : GraphDef) :
  forall m0 m : OrderedDict node_details,
    for_each (fun mapping n =>
                let each_node := {| node := n; input_node := []; output := [] |} in
                if od_contains mapping (name n) then Raise ValueError
                else Ok (mapping ++ [(name n, each_node)])) g m0 = Ok m ->
    m = m0 ++ map (fun n => (name n, {| node := n; input_node := []; output := [] |})) g
    /\ NoDup (map name g)
    /\ (forall n, In n g -> od_contains m0 (name n) = false).
Proof.
  induction g as [|n g IH]; intros m0 m E.
  - injection E as <-. rewrite app_nil_r. split; [reflexivity |].
    split; [constructor | intros ? []].
  - cbn in E. destruct (od_contains m0 (name n)) eqn:Hn; [discriminate |]. cbn in E.
    apply IH in E as (-> & Hnodup & Hfresh).
    split; [now rewrite <- app_assoc |].
    assert (Hnotin : ~ In (name n) (map name g)).
    { intros Hin. apply in_map_iff in Hin as (n' & Hname & Hin').
      specialize (Hfresh n' Hin'). rewrite od_contains_app, Hname in Hfresh.
      cbn in Hfresh. rewrite String.eqb_refl, orb_true_r in Hfresh. discriminate. }
    split.
    + cbn. apply NoDup_cons. split; [| exact Hnodup].
      now rewrite list_elem_of_In.
    + intros n' [<- | Hin']; [exact Hn |].
      specialize (Hfresh n' Hin'). rewrite od_contains_app in Hfresh.
      now apply orb_false_iff in Hfresh.
Qed.

Lemma parse_entries_Ok (g : GraphDef) :
  forall m0 : OrderedDict node_details,
    NoDup (map name g) ->
    (forall n, In n g -> od_contains m0 (name n) = false) ->
    for_each (fun mapping n =>
                let each_node := {| node := n; input_node := []; output := [] |} in
                if od_contains mapping (name n) then Raise ValueError
                else Ok (mapping ++ [(name n, each_node)])) g m0
    = Ok (m0 ++ map (fun n => (name n, {| node := n; input_node := []; output := [] |})) g).
Proof.
  induction g as [|n g IH]; intros m0 Hnodup Hfresh.
  - cbn. now rewrite app_nil_r.
  - cbn [map] in Hnodup. apply NoDup_cons in Hnodup as [Hnotin Hnodup].
    rewrite list_elem_of_In in Hnotin.
    cbn. rewrite (Hfresh n) by now left. cbn. rewrite IH; [now rewrite <- app_assoc | exact Hnodup |].
    intros n' Hin'. rewrite od_contains_app, (Hfresh n') by now right. cbn.
    rewrite orb_false_r. apply String.eqb_neq. intros E. apply Hnotin.
    rewrite E. now apply in_map.
Qed.

Lemma parse_entries_raises (g : GraphDef) :
  forall m0 : OrderedDict node_details,
    (exists m,
       for_each (fun mapping n =>
                   let each_node := {| node := n; input_node := []; output := [] |} in
                   if od_contains mapping (name n) then Raise ValueError
                   else Ok (mapping ++ [(name n, each_node)])) g m0 = Ok m)
    \/ for_each (fun mapping n =>
                   let each_node := {| node := n; input_node := []; output := [] |} in
                   if od_contains mapping (name n) then Raise ValueError
                   else Ok (mapping ++ [(name n, each_node)])) g m0 = Raise ValueError.
Proof.
  induction g as [|n g IH]; intros m0; cbn; [left; eauto |].
  destruct (od_contains m0 (name n)); cbn; [now right | apply IH].
Qed.

(** Appending a consumer fails on a missing key and otherwise changes
    the consumer list under that key and nothing else. *)
Lemma od_append_output_missing (d : OrderedDict node_details) (k c : string) :
  od_contains d k = false -> od_append_output d k c = Raise KeyError.
Proof.
  induction d as [|[k' v] d IH]; cbn; [reflexivity |].
  destruct (String.eqb k' k); cbn; [discriminate |].
  intros E. now rewrite IH.
Qed.

Lemma od_append_output_present (d : OrderedDict node_details) (k c : string) :
  od_contains d k = true ->
  exists d',
    od_append_output d k c = Ok d'
    /\ od_keys d' = od_keys d
    /\ forall key,
         od_get d' key
         = match od_get d key with
           | Ok v => Ok (if String.eqb k key
                         then {| node := node v; input_node := input_node v;
                                 output := output v ++ [c] |}
                         else v)
           | Raise e => Raise e
           end.
Proof.
  induction d as [|[k' v] d IH]; cbn; [discriminate |].
  destruct (String.eqb_spec k' k) as [-> | Hne]; cbn.
  - intros _. eexists. split; [reflexivity |]. split; [reflexivity |].
    intros key. cbn. destruct (String.eqb_spec k key) as [-> | Hk]; [reflexivity |].
    now destruct (od_get d key).
  - intros Hin. destruct (IH Hin) as (d' & Hrun & Hkeys & Hget).
    rewrite Hrun. cbn. eexists. split; [reflexivity |].
    split; [unfold od_keys in *; cbn; now f_equal |].
    intros key. cbn. destruct (String.eqb_spec k' key) as [-> | Hk].
    + apply String.eqb_neq in Hne. rewrite String.eqb_sym in Hne. now rewrite Hne.
    + apply Hget.
Qed.

(** The second pass, seen as one loop over the references of the graph. *)
Lemma parse_consumers (refs : list (string * string)) :
  forall m : OrderedDict node_details,
    (forall p, In p refs -> In (fst p) (od_keys m)) ->
    exists m',
      for_each (fun mapping p => od_append_output mapping (fst p) (snd p)) refs m = Ok m'
      /\ od_keys m' = od_keys m
      /\ forall key,
           od_get m' key
           = match od_get m key with
             | Ok v => Ok {| node := node v; input_node := input_node v;
                             output := output v
                                       ++ map snd (List.filter
                                                     (fun p => String.eqb (fst p) key) refs) |}
             | Raise e => Raise e
             end.
Proof.
  induction refs as [|[k c] refs IH]; intros m Hres.
  - exists m. split; [reflexivity |]. split; [reflexivity |].
    intros key. destruct (od_get m key) as [[n i o]|e]; cbn; [| reflexivity].
    now rewrite app_nil_r.
  - destruct (od_append_output_present m k c) as (m1 & Hrun1 & Hkeys1 & Hget1).
    { apply od_contains_In. apply (Hres (k, c)). now left. }
    destruct (IH m1) as (m' & Hrun & Hkeys & Hget).
    { intros p Hp. rewrite Hkeys1. apply Hres. now right. }
    exists m'. cbn [for_each fst snd]. rewrite Hrun1. cbn [bind].
    split; [exact Hrun |]. split; [congruence |].
    intros key. rewrite Hget, Hget1.
    destruct (od_get m key) as [v|e]; [| reflexivity].
    cbn [List.filter fst snd]. destruct (String.eqb k key); cbn; [| reflexivity].
    now rewrite <- app_assoc.
Qed.

Lemma parse_consumers_raises (refs : list (string * string)) :
  forall m : OrderedDict node_details,
    (exists p, In p refs /\ ~ In (fst p) (od_keys m)) ->
    for_each (fun mapping p => od_append_output mapping (fst p) (snd p)) refs m
    = Raise KeyError.
Proof.
  induction refs as [|[k c] refs IH]; intros m (p & Hp & Hmiss); [destruct Hp |].
  cbn [for_each fst snd].
  destruct (od_contains m k) eqn:Hk.
  - destruct (od_append_output_present m k c Hk) as (m1 & Hrun1 & Hkeys1 & _).
    rewrite Hrun1. cbn [bind]. apply IH. exists p. rewrite Hkeys1.
    destruct Hp as [<- | Hp]; [| now split].
    exfalso. apply Hmiss. now apply od_contains_In.
  - now rewrite od_append_output_missing.
Qed.

Lemma references_resolved_dec (refs : list (string * string))
    (m : OrderedDict node_details) :
  (forall p, In p refs -> In (fst p) (od_keys m))
  \/ (exists p, In p refs /\ ~ In (fst p) (od_keys m)).
Proof.
  induction refs as [|p refs [IH | (q & Hq & Hmiss)]].
  - left. intros ? [].
  - destruct (od_contains m (fst p)) eqn:Hp.
    + left. intros q [<- | Hq]; [now apply od_contains_In | now apply IH].
    + right. exists p. split; [now left |].
      intros Hin. apply od_contains_In in Hin. congruence.
  - right. exists q. split; [now right | exact Hmiss].
Qed.

Lemma parse_graph_unfold (g : GraphDef) :
  _parse_graph g
  = let* mapping :=
      for_each (fun mapping n =>
                  let each_node := {| node := n; input_node := []; output := [] |} in
                  if od_contains mapping (name n) then Raise ValueError
                  else Ok (mapping ++ [(name n, each_node)])) g [] in
    for_each (fun mapping p => od_append_output mapping (fst p) (snd p))
      (references g) mapping.
Proof.
  unfold _parse_graph, references.
  match goal with |- bind ?X _ = _ => destruct X as [m|e] end; cbn [bind]; [| reflexivity].
  rewrite <- for_each_concat. apply for_each_ext. intros s n.
  now rewrite <- for_each_map.
Qed.

Lemma parse_graph_Ok_inv (g : GraphDef) (m : OrderedDict node_details) :
  _parse_graph g = Ok m ->
  od_keys m = map name g
  /\ NoDup (map name g)
  /\ forall n, In n g ->
       od_get m (name n)
       = Ok {| node := n; input_node := []; output := consumers g (name n) |}.
Proof.
  rewrite parse_graph_unfold. intros E. inv_bind E.
  apply parse_entries in Ha as (-> & Hnodup & _). cbn [app] in E.
  set (m1 := map (fun n => (name n, {| node := n; input_node := []; output := [] |})) g) in *.
  assert (Hkeys1 : od_keys m1 = map name g).
  { unfold od_keys, m1. rewrite map_map. now apply map_ext. }
  destruct (references_resolved_dec (references g) m1) as [Hres | Hmiss].
  2:{ rewrite (parse_consumers_raises _ _ Hmiss) in E. discriminate. }
  destruct (parse_consumers (references g) m1 Hres) as (m' & Hrun & Hkeys & Hget).
  rewrite Hrun in E. injection E as <-.
  split; [congruence |]. split; [exact Hnodup |].
  intros n Hin. rewrite Hget.
  assert (Hn : od_get m1 (name n)
               = Ok {| node := n; input_node := []; output := [] |}).
  { apply od_get_In; [now rewrite Hkeys1 |].
    unfold m1. apply in_map_iff. now exists n. }
  rewrite Hn. reflexivity.
Qed.

(** X2: when [_parse_graph] succeeds, the index lists the node names in
    graph order, every node is read back under its name, the consumer
    list of an entry holds the nodes referencing it, once per reference
    and in graph order, and [input_node] is left empty. *)
Theorem parse_graph_index (g : GraphDef) (m : OrderedDict node_details) :
  _parse_graph g = Ok m ->
  od_keys m = map name g
  /\ NoDup (map name g)
  /\ forall n, In n g ->
       od_get m (name n)
       = Ok {| node := n; input_node := []; output := consumers g (name n) |}.
Proof.
  apply parse_graph_Ok_inv.
Qed.

Lemma in_references (g : GraphDef) (p : string * string) :
  In p (references g)
  <-> exists n i, In n g /\ In i (input n) /\ p = (node_name_from_input i, name n).
Proof.
  unfold references. rewrite in_concat. split.
  - intros (l & Hl & Hp). apply in_map_iff in Hl as (n & <- & Hn).
    apply in_map_iff in Hp as (i & <- & Hi). eauto.
  - intros (n & i & Hn & Hi & ->).
    exists (map (fun i => (node_name_from_input i, name n)) (input n)). split.
    + apply in_map_iff. eauto.
    + apply in_map_iff. eauto.
Qed.

(** X3: [_parse_graph] raises [ValueError] when two nodes share a name,
    raises [KeyError] when the names are distinct but some input names a
    node that is not in the graph, and succeeds in every other case. *)
Theorem parse_graph_errors (g : GraphDef) :
  (~ NoDup (map name g) -> _parse_graph g = Raise ValueError)
  /\ (NoDup (map name g) ->
      (exists n i, In n g /\ In i (input n)
                   /\ ~ In (node_name_from_input i) (map name g)) ->
      _parse_graph g = Raise KeyError)
  /\ (NoDup (map name g) ->
      (forall n i, In n g -> In i (input n) -> In (node_name_from_input i) (map name g)) ->
      exists m, _parse_graph g = Ok m).
Proof.
  rewrite parse_graph_unfold.
  assert (Hkeys : od_keys (map (fun n => (name n, {| node := n; input_node := [];
                                                      output := [] |})) g)
                  = map name g).
  { unfold od_keys. rewrite map_map. now apply map_ext. }
  split; [| split].
  - intros Hdup. destruct (parse_entries_raises g []) as [[m Hrun] | Hraise].
    + exfalso. apply Hdup. now apply parse_entries in Hrun.
    + now rewrite Hraise.
  - intros Hnodup (n & i & Hn & Hi & Hmiss).
    rewrite (parse_entries_Ok g [] Hnodup (fun n _ => eq_refl)). cbn [bind app].
    apply parse_consumers_raises. exists (node_name_from_input i, name n).
    split; [apply in_references; eauto |]. cbn [fst]. now rewrite Hkeys.
  - intros Hnodup Hres.
    rewrite (parse_entries_Ok g [] Hnodup (fun n _ => eq_refl)). cbn [bind app].
    destruct (parse_consumers (references g)
                (map (fun n => (name n, {| node := n; input_node := []; output := [] |})) g))
      as (m & Hrun & _).
    { intros p Hp. apply in_references in Hp as (n & i & Hn & Hi & ->). cbn [fst].
      rewrite Hkeys. exact (Hres n i Hn Hi). }
    now exists m.
Qed.

End Graph_index.

(** ** What a pass does to the object *)

Section Pass_frame.
Context `{QuantizeGraphHelper}.
Variable recursion_limit : nat.

Lemma emits_trans (s1 s2 s3 : Self) : emits s1 s2 -> emits s2 s3 -> emits s1 s3.
Proof.
  induction 1 as [s | s n s' s'' Hadd _ IH | s d s'' _ IH | s s'' _ IH]; intros H23.
  - exact H23.
  - eapply emits_add; [exact Hadd | now apply IH].
  - apply (emits_memo s d). now apply IH.
  - apply emits_new_graph. now apply IH.
Qed.

Lemma emits_add1 (s s' : Self) (n : NodeDef) :
  add_output_graph_node s n = Ok s' -> emits s s'.
Proof. intros E. eapply emits_add; [exact E | apply emits_refl]. Qed.

Ltac emits_adds :=
  repeat match goal with
  | E : bind (add_output_graph_node ?s _) _ = Ok _ |- emits ?s _ =>
      let s' := fresh "s" in
      let Hs := fresh "Hs" in
      apply bind_Ok in E; destruct E as (s' & Hs & E);
      apply (emits_add _ _ _ _ Hs)
  | E : add_output_graph_node ?s _ = Ok _ |- emits ?s _ =>
      apply (emits_add _ _ _ _ E)
  | E : Ok _ = Ok _ |- _ => simplify_eq
  end;
  try apply emits_refl.

Lemma common_emits (self self' : Self) (prefix ctl : string) r :
  _add_common_quantization_nodes self prefix ctl = Ok (r, self') -> emits self self'.
Proof. unfold _add_common_quantization_nodes. intros E. emits_adds. Qed.

Lemma eightbitize_emits (self self' : Self) (prefix i rs rd : string) (dtype : dtypes.DType) r :
  _eightbitize_input_to_node self prefix i rs rd dtype = Ok (r, self') -> emits self self'.
Proof.
  unfold _eightbitize_input_to_node.
  destruct (quantized_node_dict self !! unique_node_name_from_input i); intros E.
  - simplify_eq. apply emits_refl.
  - emits_adds. eapply emits_memo, emits_refl.
Qed.

Lemma for_each_emits {A S} (proj : S -> Self) (body : S -> A -> result S) :
  (forall s a s', body s a = Ok s' -> emits (proj s) (proj s')) ->
  forall l s s', for_each body l s = Ok s' -> emits (proj s) (proj s').
Proof.
  intros Hbody. apply (for_each_invariant (fun s s' => emits (proj s) (proj s'))).
  - intros s. apply emits_refl.
  - intros s1 s2 s3. apply emits_trans.
  - exact Hbody.
Qed.

Lemma prologue_step_emits (original_node prefix rs rd : string) st i st' :
  prologue_step recursion_limit original_node prefix rs rd st i = Ok st' ->
  emits (fst (fst st)) (fst (fst st')).
Proof.
  destruct st as [[s ins] mms]. unfold prologue_step.
  destruct (is_control_input i) as [[|]|e]; cbn [bind]; intros E;
    [simplify_eq; apply emits_refl | | discriminate].
  destruct (prologue_dtype recursion_limit s original_node (node_name_from_input i))
    as [dtype|e]; cbn [bind] in E; [| discriminate].
  destruct (_eightbitize_input_to_node s prefix i rs rd dtype)
    as [[[[q mn] mx] s1]|e] eqn:Hcall; cbn [bind] in E; [| discriminate].
  simplify_eq. cbn. eapply eightbitize_emits, Hcall.
Qed.

Lemma prologue_emits (self self' : Self) (original_node : string) r :
  _add_eightbit_prologue_nodes recursion_limit self original_node = Ok (r, self') ->
  emits self self'.
Proof.
  unfold _add_eightbit_prologue_nodes. intros E.
  inv_bind E. inv_bind E. inv_bind E. destruct a1 as [[rs rd] self1].
  inv_bind E. inv_bind E. destruct a2 as [[self2 ins] mms].
  inv_bind E. inv_bind E. simplify_eq.
  eapply emits_trans; [eapply common_emits; eassumption |].
  eapply (for_each_emits (fun st => fst (fst st))) in Ha3; [exact Ha3 |].
  intros st i st'. apply prologue_step_emits.
Qed.

Lemma dequantize_result_emits (self self' : Self) (q o : string) dtype i :
  _intel_cpu_add_dequantize_result_node self q o dtype i = Ok self' -> emits self self'.
Proof.
  unfold _intel_cpu_add_dequantize_result_node. intros E. cbn in E. emits_adds.
Qed.

Lemma single_input_emits (self self' : Self) (n : NodeDef) f :
  eightbitize_single_input_tensor_node recursion_limit self n f = Ok self' ->
  emits self self'.
Proof.
  unfold eightbitize_single_input_tensor_node. intros E.
  inv_bind E. destruct a as [names self1]. inv_bind E.
  eapply emits_trans; [eapply prologue_emits; eassumption |].
  eapply emits_trans; [eapply emits_add1; eassumption |].
  eapply dequantize_result_emits; eassumption.
Qed.

Lemma quantize_down_emits (self self' : Self) n q t relu6 r :
  _add_quantize_down_nodes self n q t relu6 = Ok (r, self') -> emits self self'.
Proof. unfold _add_quantize_down_nodes. intros E. emits_adds. Qed.

Lemma quantize_weight_emits cast kernel (self self' : Self) parent n pc mode :
  _intel_cpu_quantize_weight_eightbit cast kernel self parent n pc mode = Ok self' ->
  emits self self'.
Proof.
  unfold _intel_cpu_quantize_weight_eightbit. intros E.
  inv_bind E. inv_bind E. destruct a0 as [[q mn] mx]. emits_adds.
Qed.

Lemma remove_redundant_emits (self self' : Self) (g g' r : GraphDef) :
  remove_redundant_quantization self g = Ok (r, g', self') -> emits self self'.
Proof.
  unfold remove_redundant_quantization. intros E.
  inv_bind E. inv_bind E. inv_bind E. destruct a1 as [self1 old]. simplify_eq.
  apply emits_new_graph.
  eapply (for_each_emits fst) in Ha1; [exact Ha1 |].
  intros [s v] n [s' v']. unfold apply_step. intros E. inv_bind E. simplify_eq.
  eapply emits_add1; eassumption.
Qed.

(** Every state change of a pass is a sequence of the three elementary
    ones, the reset of the registry apart. *)
Lemma pass_step_emits (self self' : Self) :
  pass_step recursion_limit self self' ->
  emits self self' \/ self' = _reset_output_node_maps self.
Proof.
  intros Hstep. destruct Hstep as
    [self n self' E | self p c r self' E | self p i rs rd d r self' E
    | self o r self' E | self q o d i self' E | self n f self' E
    | self n q t b r self' E | cast kernel self p n pc m self' E
    | self g r g' self' E | self];
    [left .. | now right].
  - eapply emits_add1, E.
  - eapply common_emits, E.
  - eapply eightbitize_emits, E.
  - eapply prologue_emits, E.
  - eapply dequantize_result_emits, E.
  - eapply single_input_emits, E.
  - eapply quantize_down_emits, E.
  - eapply quantize_weight_emits, E.
  - eapply remove_redundant_emits, E.
Qed.

Lemma emits_configuration (self self' : Self) :
  emits self self' -> same_configuration self self'.
Proof.
  induction 1 as [s | s n s' s'' Hadd _ IH | s d s'' _ IH | s s'' _ IH].
  - repeat split.
  - apply add_output_graph_node_inv in Hadd as [_ ->]. exact IH.
  - exact IH.
  - exact IH.
Qed.

Lemma emits_registry (self self' : Self) :
  emits self self' -> output_node_maps self ⊆ output_node_maps self'.
Proof.
  induction 1 as [s | s n s' s'' Hadd _ IH | s d s'' _ IH | s s'' _ IH];
    [reflexivity | | exact IH | exact IH].
  apply add_output_graph_node_inv in Hadd as [Hfresh ->]. cbn in IH.
  etransitivity; [| exact IH]. now apply insert_subseteq.
Qed.

Lemma emits_consistent (self self' : Self) :
  emits self self' -> registry_consistent self -> registry_consistent self'.
Proof.
  induction 1 as [s | s n s' s'' Hadd _ IH | s d s'' _ IH | s s'' _ IH]; intros Hcons.
  - exact Hcons.
  - apply IH. apply add_output_graph_node_inv in Hadd as [Hfresh ->].
    destruct Hcons as [Hnodup Hreg]. unfold registry_consistent. cbn.
    assert (Hnew : ~ In (name n) (map name (output_graph s))).
    { intros Hin. apply in_map_iff in Hin as (n' & Hname & Hin').
      specialize (Hreg n' Hin'). rewrite Hname, Hfresh in Hreg. discriminate. }
    split.
    + rewrite map_app. cbn. apply NoDup_app. split; [exact Hnodup |].
      split; [| apply NoDup_singleton].
      intros x Hx Hx'. apply list_elem_of_In in Hx. apply list_elem_of_In in Hx'.
      destruct Hx' as [<- | []]. contradiction.
    + intros n' Hin'. apply in_app_iff in Hin' as [Hin' | [<- | []]].
      * rewrite lookup_insert_ne; [now apply Hreg |].
        intros E. apply Hnew. rewrite E. now apply in_map.
      * apply lookup_insert_eq.
  - apply IH. exact Hcons.
  - apply IH. split; [constructor | intros ? []].
Qed.

(** X4: no method of a pass writes the settings of the object: the op
    list, the output node names, the rules, the start node name, the
    device and the mode flags are, after any sequence of state changes
    of a pass, what they were before. *)
Theorem pass_keeps_configuration (self self' : Self) :
  pass_steps recursion_limit self self' -> same_settings self self'.
Proof.
  induction 1 as [self | self self' self'' Hstep _ IH]; [repeat split |].
  assert (Hone : same_settings self self').
  { destruct (pass_step_emits _ _ Hstep) as [Hemits | ->]; [| repeat split].
    apply emits_configuration in Hemits.
    unfold same_configuration in Hemits. unfold same_settings. tauto. }
  unfold same_settings in *.
  destruct Hone as (? & ? & ? & ? & ? & ? & ? & ? & ?).
  destruct IH as (? & ? & ? & ? & ? & ? & ? & ? & ?).
  repeat split; congruence.
Qed.

(** X5: a state change of a pass other than the reset of the registry
    never drops or overwrites a registered node, and keeps the registry
    in agreement with the output graph: if no two nodes of the output
    graph shared a name and each was registered under its name before,
    the same holds after. *)
Theorem pass_step_keeps_registry (self self' : Self) :
  pass_step recursion_limit self self' ->
  self' = _reset_output_node_maps self
  \/ (output_node_maps self ⊆ output_node_maps self'
      /\ (registry_consistent self -> registry_consistent self')).
Proof.
  intros Hstep. destruct (pass_step_emits _ _ Hstep) as [Hemits | ->]; [right | now left].
  split; [now apply emits_registry | now apply emits_consistent].
Qed.

End Pass_frame.

(** ** The activation lookback *)

Section Lookback.
Context `{QuantizeGraphHelper}.

(** X6: an answer of the lookback does not depend on the recursion
    limit it was found under: whatever a run returns or raises, short of
    [RecursionError], every larger limit returns or raises as well. *)
Theorem find_relu_limit_monotone (limit limit' : nat) (self : Self) (n : NodeDef)
    (r : result bool) :
  _find_relu_node limit self n = r ->
  r <> Raise RecursionError ->
  limit <= limit' ->
  _find_relu_node limit' self n = r.
Proof.
  unfold _find_relu_node. revert limit' n.
  induction limit as [|limit IH]; intros limit' n Hrun Hr Hle.
  - cbn in Hrun. congruence.
  - destruct limit' as [|limit']; [lia |].
    cbn [_find_relu_node_rec] in *.
    destruct (str_in (op n) ["Relu"; "Relu6"] || str_find "AndRelu" (op n));
      [exact Hrun |].
    destruct ((str_find "QuantizedConv" (op n)
               || str_find "QuantizedDepthwiseConv" (op n)
               || str_find "QuantizedMatMul" (op n))
              && negb (str_find "Relu" (op n))); [exact Hrun |].
    destruct (_need_to_check (op n)); [| exact Hrun].
    destruct (list_getitem (input n) 0) as [i0|e]; cbn [bind] in *; [| exact Hrun].
    destruct (od_get (node_name_mapping self) (node_name_from_input i0)) as [d|e];
      cbn [bind] in *; [| exact Hrun].
    apply IH; [exact Hrun | exact Hr | lia].
Qed.

(** X7: the lookback has no guard against cycles.  On a set of nodes
    each of which the lookback sees through into another node of the
    set, it ends in [RecursionError] under every recursion limit. *)
Theorem find_relu_cycle_overflows (self : Self) (cycle : NodeDef -> Prop) :
  (forall n, cycle n -> exists n', cycle n' /\ looks_through self n n') ->
  forall limit n, cycle n -> _find_relu_node limit self n = Raise RecursionError.
Proof.
  intros Hclosed. unfold _find_relu_node.
  induction limit as [|limit IH]; intros n Hn; [reflexivity |].
  destruct (Hclosed n Hn) as (n' & Hn' & Hrelu & Hquant & Hcheck & i0 & d & Hi0 & Hd & <-).
  cbn [_find_relu_node_rec]. rewrite Hrelu, Hquant, Hcheck.
  rewrite (list_getitem_Ok _ _ _ Hi0). cbn [bind]. rewrite Hd. cbn [bind].
  now apply IH.
Qed.

End Lookback.

(** ** What the fusion matcher returns *)

Section Matcher_results.
Context `{QuantizeGraphHelper}.
Variable recursion_limit : nat.

Lemma fused_chain_length (self : Self) (ops : list string) (cur : string)
    (tail : list string) :
  fused_chain self ops cur tail -> length tail = length ops.
Proof. induction 1; cbn; congruence. Qed.

Lemma drop_cons_inv {A} (l : list A) (i : nat) (x : A) (l' : list A) :
  drop i l = x :: l' -> l !! i = Some x /\ drop (S i) l = l'.
Proof.
  revert i. induction l as [|a l IH]; intros [|i] E; cbn in *; try discriminate.
  - now injection E as -> ->.
  - now apply IH.
Qed.

(** The [while] loop ends with [sub_rule_len = 1] exactly along a chain
    of sole consumers whose op kinds spell the rest of the rule. *)
Lemma match_chain_sound (self : Self) (rule : list string) :
  forall remaining cur matched m,
    remaining < length rule ->
    match_chain self rule remaining cur matched = Ok (1, m) ->
    exists tail,
      m = matched ++ tail
      /\ fused_chain self (drop (length rule - remaining) rule) cur tail.
Proof.
  induction remaining as [|r IH]; intros cur matched m Hlen E.
  - cbn in E. injection E as <-. exists []. rewrite app_nil_r.
    replace (length rule - 0) with (length rule) by lia.
    rewrite drop_all. split; [reflexivity | constructor].
  - cbn [match_chain] in E.
    destruct (od_get (node_name_mapping self) cur) as [d|e] eqn:Hd; cbn [bind] in E;
      [| discriminate].
    destruct (output d) as [|next rest] eqn:Hout; [discriminate |].
    destruct (od_get (node_name_mapping self) next) as [dn|e] eqn:Hdn; cbn [bind] in E;
      [| discriminate].
    destruct (add_op_quantizable self cur next (op (node dn))) as [q|e] eqn:Hq;
      cbn [bind] in E; [| discriminate].
    destruct (q && negb (1 <? length (next :: rest))%nat) eqn:Hok; cbn [bind] in E;
      [| discriminate].
    apply andb_true_iff in Hok as [-> Hshared].
    apply negb_true_iff, Nat.ltb_ge in Hshared. cbn in Hshared.
    destruct rest; [| cbn in Hshared; lia].
    destruct (list_getitem rule (length rule + 1 - S (S r))) as [expected|e] eqn:Hexp;
      cbn [bind] in E; [| discriminate].
    destruct (String.eqb_spec (op (node dn)) expected) as [Hop|Hop]; [| discriminate].
    apply IH in E as (tail & -> & Hchain); [| lia].
    exists (next :: tail). split; [now rewrite <- app_assoc |].
    apply list_getitem_inv in Hexp.
    replace (length rule + 1 - S (S r)) with (length rule - S r) in Hexp by lia.
    rewrite (drop_S _ _ _ Hexp).
    replace (S (length rule - S r)) with (length rule - r) by lia.
    econstructor; eauto.
Qed.

Lemma match_chain_complete (self : Self) (rule : list string) :
  forall remaining cur matched tail,
    remaining < length rule ->
    fused_chain self (drop (length rule - remaining) rule) cur tail ->
    match_chain self rule remaining cur matched = Ok (1, matched ++ tail).
Proof.
  induction remaining as [|r IH]; intros cur matched tail Hlen Hchain.
  - replace (length rule - 0) with (length rule) in Hchain by lia.
    rewrite drop_all in Hchain. inversion Hchain; subst. cbn. now rewrite app_nil_r.
  - inversion Hchain as [| cur' d next dn expected ops tail' Hd Hout Hdn Hq Hop Hrest Hdrop];
      subst.
    { exfalso. symmetry in H0. apply (f_equal length) in H0.
      rewrite length_drop in H0. cbn in H0. lia. }
    symmetry in Hdrop. apply drop_cons_inv in Hdrop as [Hexp Hdrop].
    replace (S (length rule - S r)) with (length rule - r) in Hdrop by lia.
    cbn [match_chain]. rewrite Hd. cbn [bind]. rewrite Hout, Hdn. cbn [bind].
    rewrite Hq. cbn [bind length Nat.ltb Nat.leb negb andb].
    replace (length rule + 1 - S (S r)) with (length rule - S r) by lia.
    rewrite (list_getitem_Ok _ _ _ Hexp). cbn [bind]. rewrite String.eqb_refl.
    rewrite (IH next (matched ++ [next]) tail'); [| lia | now rewrite Hdrop].
    now rewrite <- app_assoc.
Qed.

Lemma try_rules_sound (self : Self) (v : string) (k : nat) (rules : list (list string))
    (rule names : list string) :
  try_rules self v k rules = Ok (Some (rule, names)) ->
  In rule rules
  /\ exists ops key tail,
       rule = v :: ops
       /\ od_keys (node_name_mapping self) !! k = Some key
       /\ names = key :: tail
       /\ fused_chain self ops key tail.
Proof.
  induction rules as [|sub_rule rules IH]; intros E; [discriminate |].
  cbn [try_rules] in E.
  destruct sub_rule as [|first tl]; [discriminate |].
  rewrite list_getitem_0 in E. cbn [bind] in E.
  destruct (String.eqb_spec v first) as [<- | Hne]; cbn [negb] in E.
  2:{ apply IH in E as [Hin Hrest]. split; [now right | exact Hrest]. }
  destruct (list_getitem (od_keys (node_name_mapping self)) k) as [key|e] eqn:Hkey;
    cbn [bind] in E; [| discriminate].
  apply list_getitem_inv in Hkey.
  cbn [length Nat.sub] in E. replace (length tl - 0) with (length tl) in E by lia.
  destruct (match_chain self (v :: tl) (length tl) key [key]) as [[len m]|e] eqn:Hchain;
    cbn [bind] in E; [| discriminate].
  destruct (Nat.eqb_spec len 1) as [-> | Hlen].
  - injection E as <- <-.
    apply match_chain_sound in Hchain as (tail & -> & Hfused); [| cbn; lia].
    split; [now left |].
    exists tl, key, tail. repeat split; [exact Hkey |].
    cbn [length] in Hfused.
    replace (S (length tl) - length tl) with 1 in Hfused by lia. exact Hfused.
  - apply IH in E as [Hin Hrest]. split; [now right | exact Hrest].
Qed.

Lemma scan_anchors_sound (self : Self) (rules : list (list string))
    (rule names : list string) :
  forall ops k,
    (forall j v, ops !! j = Some v -> op_list self !! (k + j) = Some v) ->
    scan_anchors recursion_limit self rules k ops = Ok (Some (rule, names)) ->
    In rule rules
    /\ exists pos first rest key d tail,
         rule = first :: rest
         /\ op_list self !! pos = Some first
         /\ od_keys (node_name_mapping self) !! pos = Some key
         /\ od_get (node_name_mapping self) key = Ok d
         /\ name (node d) = start_node_name self
         /\ names = key :: tail
         /\ fused_chain self rest key tail.
Proof.
  induction ops as [|v ops IH]; intros k Halign E; [discriminate |].
  pose proof (IH (S k)) as Hnext.
  assert (Hshift : forall j w, ops !! j = Some w -> op_list self !! (S k + j) = Some w).
  { intros j w Hj. replace (S k + j) with (k + S j) by lia. now apply Halign. }
  specialize (Hnext Hshift).
  cbn [scan_anchors] in E.
  destruct (first_ops rules) as [firsts|e]; cbn [bind] in E; [| discriminate].
  destruct (str_in v firsts); [| now apply Hnext].
  destruct (list_getitem (od_keys (node_name_mapping self)) k) as [key|e] eqn:Hkey;
    cbn [bind] in E; [| discriminate].
  apply list_getitem_inv in Hkey.
  destruct (od_get (node_name_mapping self) key) as [d|e] eqn:Hd; cbn [bind] in E;
    [| discriminate].
  destruct (String.eqb_spec (name (node d)) (start_node_name self)) as [Hname|Hname];
    cbn [negb] in E; [| now apply Hnext].
  match type of E with bind ?X _ = _ => destruct X as [skip|e] end; cbn [bind] in E;
    [| discriminate].
  destruct skip; [now apply Hnext |].
  destruct (try_rules self v k rules) as [[[rule' names']|]|e] eqn:Htry; cbn [bind] in E;
    [| now apply Hnext | discriminate].
  injection E as -> ->.
  apply try_rules_sound in Htry as (Hin & ops' & key' & tail & -> & Hkey' & -> & Hchain).
  split; [exact Hin |].
  assert (key' = key) as -> by congruence.
  exists k, v, ops', key, d, tail. repeat split; auto.
  replace k with (k + 0) by lia. now apply Halign.
Qed.

(** X8: a chain the matcher returns is well formed.  The rule is one of
    the rules given; the chain starts at the index entry named
    [start_node_name], whose op kind is the head of the rule; each node
    of the chain is the only consumer entry of the one before, passes
    the Add/AddN check, and has the op kind the rule names at its
    position; so the chain is as long as the rule. *)
Theorem is_match_sound (self : Self) (rules : list (list string))
    (rule names : list string) :
  _is_match recursion_limit self rules = Ok (Some (rule, names)) ->
  In rule rules
  /\ length names = length rule
  /\ exists pos first rest key d tail,
       rule = first :: rest
       /\ op_list self !! pos = Some first
       /\ od_keys (node_name_mapping self) !! pos = Some key
       /\ od_get (node_name_mapping self) key = Ok d
       /\ name (node d) = start_node_name self
       /\ names = key :: tail
       /\ fused_chain self rest key tail.
Proof.
  unfold _is_match. intros E.
  apply scan_anchors_sound in E as (Hin & Hshape); [| intros j v Hj; exact Hj].
  split; [exact Hin |]. split; [| exact Hshape].
  destruct Hshape as (pos & first & rest & key & d & tail & -> & _ & _ & _ & _ & -> & Hchain).
  cbn. f_equal. eapply fused_chain_length, Hchain.
Qed.

(** An anchor position is passed over: its node is not the start node,
    or signed 8-bit is off for a convolution the lookback finds no ReLU
    before. *)
Lemma scan_anchors_rejected (self : Self) (rules : list (list string)) :
  Forall (fun r => r <> []) rules ->
  (forall k v key d,
     op_list self !! k = Some v ->
     od_keys (node_name_mapping self) !! k = Some key ->
     od_get (node_name_mapping self) key = Ok d ->
     name (node d) = start_node_name self ->
     str_in v ["Conv2D"; "DepthwiseConv2dNative"] && negb (enable_s8 self) = true
     /\ _find_relu_node recursion_limit self (node d) = Ok false) ->
  forall ops k,
    (forall j v, ops !! j = Some v -> op_list self !! (k + j) = Some v) ->
    k + length ops <= length (node_name_mapping self) ->
    scan_anchors recursion_limit self rules k ops = Ok None.
Proof.
  intros Hnonempty Hreject ops.
  destruct (first_ops_Ok rules Hnonempty) as [firsts Hfirsts].
  induction ops as [|v ops IH]; intros k Halign Hlen; [reflexivity |].
  assert (Hnext : scan_anchors recursion_limit self rules (S k) ops = Ok None).
  { apply IH.
    - intros j w Hj. replace (S k + j) with (k + S j) by lia. now apply Halign.
    - cbn [length] in Hlen. lia. }
  cbn [scan_anchors]. rewrite Hfirsts. cbn [bind].
  destruct (str_in v firsts); [| exact Hnext].
  assert (Hk : k < length (od_keys (node_name_mapping self))).
  { unfold od_keys. rewrite length_map. cbn [length] in Hlen. lia. }
  apply lookup_lt_is_Some in Hk as [key Hkey].
  rewrite (list_getitem_Ok _ _ _ Hkey). cbn [bind].
  destruct (od_get_key _ _ _ Hkey) as [d Hd]. rewrite Hd. cbn [bind].
  destruct (String.eqb_spec (name (node d)) (start_node_name self)) as [Hname|Hname];
    cbn [negb]; [| exact Hnext].
  assert (Hv : op_list self !! k = Some v).
  { replace k with (k + 0) by lia. now apply Halign. }
  destruct (Hreject k v key d Hv Hkey Hd Hname) as [Hconv Hrelu].
  rewrite Hconv, Hrelu. cbn [bind negb]. exact Hnext.
Qed.

(** X9: when no entry of the index holds a node named
    [start_node_name], the matcher finds nothing: it returns the
    no-match pair (no rule being empty and the op list being no longer
    than the index). *)
Theorem is_match_without_start_node (self : Self) (rules : list (list string)) :
  Forall (fun r => r <> []) rules ->
  length (op_list self) <= length (node_name_mapping self) ->
  (forall key d,
     od_get (node_name_mapping self) key = Ok d ->
     name (node d) <> start_node_name self) ->
  _is_match recursion_limit self rules = Ok None.
Proof.
  intros Hnonempty Hlen Hmissing. unfold _is_match.
  apply scan_anchors_rejected; auto.
  intros k v key d _ _ Hd Hname. exfalso. exact (Hmissing key d Hd Hname).
Qed.

(** X10: with signed 8-bit disabled, a convolution anchor before which
    the lookback finds no ReLU is never matched, whatever the rules and
    its consumers: the matcher returns the no-match pair. *)
Theorem is_match_rejects_conv_without_relu (self : Self) (rules : list (list string)) :
  Forall (fun r => r <> []) rules ->
  length (op_list self) <= length (node_name_mapping self) ->
  enable_s8 self = false ->
  (forall k v key d,
     op_list self !! k = Some v ->
     od_keys (node_name_mapping self) !! k = Some key ->
     od_get (node_name_mapping self) key = Ok d ->
     name (node d) = start_node_name self ->
     str_in v ["Conv2D"; "DepthwiseConv2dNative"] = true
     /\ _find_relu_node recursion_limit self (node d) = Ok false) ->
  _is_match recursion_limit self rules = Ok None.
Proof.
  intros Hnonempty Hlen Hs8 Hconv. unfold _is_match.
  apply scan_anchors_rejected; auto.
  intros k v key d Hv Hkey Hd Hname.
  destruct (Hconv k v key d Hv Hkey Hd Hname) as [Hop Hrelu].
  now rewrite Hop, Hs8.
Qed.

Lemma try_rules_head (self : Self) (first : string) (rest : list string) (k : nat)
    (rules : list (list string)) (key : string) (tail : list string) :
  od_keys (node_name_mapping self) !! k = Some key ->
  fused_chain self rest key tail ->
  try_rules self first k ((first :: rest) :: rules)
  = Ok (Some (first :: rest, key :: tail)).
Proof.
  intros Hkey Hchain. cbn [try_rules]. rewrite list_getitem_0. cbn [bind].
  rewrite String.eqb_refl. cbn [negb].
  rewrite (list_getitem_Ok _ _ _ Hkey). cbn [bind length Nat.sub].
  replace (length rest - 0) with (length rest) by lia.
  rewrite (match_chain_complete self (first :: rest) (length rest) key [key] tail).
  - reflexivity.
  - cbn. lia.
  - cbn [length]. replace (S (length rest) - length rest) with 1 by lia. exact Hchain.
Qed.

Lemma scan_anchors_complete (self : Self) (first : string) (rest : list string)
    (rules : list (list string)) (key : string) (d : node_details) (tail : list string) :
  Forall (fun r => r <> []) rules ->
  od_get (node_name_mapping self) key = Ok d ->
  name (node d) = start_node_name self ->
  (str_in first ["Conv2D"; "DepthwiseConv2dNative"] && negb (enable_s8 self) = true ->
   _find_relu_node recursion_limit self (node d) = Ok true) ->
  fused_chain self rest key tail ->
  forall pos ops k,
    ops !! pos = Some first ->
    od_keys (node_name_mapping self) !! (k + pos) = Some key ->
    (forall j key' d',
       j < pos ->
       od_keys (node_name_mapping self) !! (k + j) = Some key' ->
       od_get (node_name_mapping self) key' = Ok d' ->
       name (node d') <> start_node_name self) ->
    scan_anchors recursion_limit self ((first :: rest) :: rules) k ops
    = Ok (Some (first :: rest, key :: tail)).
Proof.
  intros Hnonempty Hd Hname Hrelu Hchain.
  destruct (first_ops_Ok rules Hnonempty) as [firsts Hfirsts].
  induction pos as [|pos IH]; intros ops k Hpos Hkey Hbefore.
  - destruct ops as [|v ops]; [discriminate |]. cbn in Hpos. injection Hpos as ->.
    replace (k + 0) with k in Hkey by lia.
    cbn [scan_anchors first_ops]. rewrite list_getitem_0. cbn [bind].
    rewrite Hfirsts. cbn [bind].
    assert (Hin : str_in first (first :: firsts) = true).
    { unfold str_in. cbn [existsb]. now rewrite String.eqb_refl. }
    rewrite Hin.
    rewrite (list_getitem_Ok _ _ _ Hkey). cbn [bind]. rewrite Hd. cbn [bind].
    rewrite Hname, String.eqb_refl. cbn [negb].
    rewrite (try_rules_head self first rest k rules key tail Hkey Hchain).
    destruct (str_in first ["Conv2D"; "DepthwiseConv2dNative"] && negb (enable_s8 self))
      eqn:Hconv.
    + rewrite (Hrelu eq_refl). reflexivity.
    + reflexivity.
  - destruct ops as [|v ops]; [discriminate |]. cbn in Hpos.
    assert (Hnext : scan_anchors recursion_limit self ((first :: rest) :: rules) (S k) ops
                    = Ok (Some (first :: rest, key :: tail))).
    { apply IH; [exact Hpos | |].
      - replace (S k + pos) with (k + S pos) by lia. exact Hkey.
      - intros j key' d' Hj Hkey' Hd'. apply (Hbefore (S j) key' d'); [lia | | exact Hd'].
        replace (k + S j) with (S k + j) by lia. exact Hkey'. }
    cbn [scan_anchors first_ops]. rewrite list_getitem_0. cbn [bind].
    rewrite Hfirsts. cbn [bind].
    destruct (str_in v (first :: firsts)); [| exact Hnext].
    assert (Hk : k < length (od_keys (node_name_mapping self))).
    { apply lookup_lt_Some in Hkey. lia. }
    apply lookup_lt_is_Some in Hk as [key0 Hkey0].
    rewrite (list_getitem_Ok _ _ _ Hkey0). cbn [bind].
    destruct (od_get_key _ _ _ Hkey0) as [d0 Hd0]. rewrite Hd0. cbn [bind].
    assert (Hne : name (node d0) <> start_node_name self).
    { apply (Hbefore 0 key0 d0); [lia | | exact Hd0].
      replace (k + 0) with k by lia. exact Hkey0. }
    destruct (String.eqb_spec (name (node d0)) (start_node_name self)); [contradiction |].
    exact Hnext.
Qed.

(** X11: the first rule wins.  When the entry named [start_node_name]
    is the first of that name in the index, its op kind heads the first
    rule, the rest of that rule is spelled by a chain of sole consumers
    from it, and the ReLU lookback (where signed 8-bit is off and the
    anchor is a convolution) answers yes, the matcher returns that rule
    with the names of the chain. *)
Theorem is_match_complete (self : Self) (first : string) (rest : list string)
    (rules : list (list string)) (pos : nat) (key : string) (d : node_details)
    (tail : list string) :
  Forall (fun r => r <> []) rules ->
  op_list self !! pos = Some first ->
  od_keys (node_name_mapping self) !! pos = Some key ->
  od_get (node_name_mapping self) key = Ok d ->
  name (node d) = start_node_name self ->
  (forall j key' d',
     j < pos ->
     od_keys (node_name_mapping self) !! j = Some key' ->
     od_get (node_name_mapping self) key' = Ok d' ->
     name (node d') <> start_node_name self) ->
  (str_in first ["Conv2D"; "DepthwiseConv2dNative"] && negb (enable_s8 self) = true ->
   _find_relu_node recursion_limit self (node d) = Ok true) ->
  fused_chain self rest key tail ->
  _is_match recursion_limit self ((first :: rest) :: rules)
  = Ok (Some (first :: rest, key :: tail)).
Proof.
  intros Hnonempty Hop Hkey Hd Hname Hbefore Hrelu Hchain. unfold _is_match.
  now apply (scan_anchors_complete self first rest rules key d tail
               Hnonempty Hd Hname Hrelu Hchain pos (op_list self) 0).
Qed.

End Matcher_results.

(** ** When the eliminator succeeds *)

Section Eliminator_results.
Context `{QuantizeGraphHelper}.

(** The second loop, read backwards: what a successful run has done. *)
Lemma apply_loop_inv (R : gmap string string) (g : GraphDef) :
  forall (self self' : Self) (visited visited' : list NodeDef),
    for_each (apply_step R) g (self, visited) = Ok (self', visited') ->
    output_graph self' = output_graph self ++ map (rewire_node R) g
    /\ visited' = visited ++ map (rewire_node R) g
    /\ output_node_maps self ⊆ output_node_maps self'
    /\ (forall n, In n g -> output_node_maps self !! name n = None)
    /\ (forall n, In n g -> output_node_maps self' !! name n = Some (rewire_node R n)).
Proof.
  induction g as [|a g IH]; intros self self' visited visited' E.
  - cbn in E. injection E as <- <-. rewrite !app_nil_r.
    repeat split; [reflexivity | intros ? [] | intros ? []].
  - cbn [for_each] in E. unfold apply_step at 1 in E.
    destruct (add_output_graph_node self (rewire_node R a)) as [self1|e] eqn:Hadd;
      cbn [bind] in E; [| discriminate].
    apply add_output_graph_node_inv in Hadd as [Hfresh ->].
    apply IH in E as (Hgraph & -> & Hsub & Hnone & Hsome). cbn in Hgraph, Hsub, Hnone, Hsome.
    cbn [map]. rewrite <- !app_assoc in *. cbn [app].
    assert (Hgrow : output_node_maps self ⊆ output_node_maps self').
    { etransitivity; [| exact Hsub]. now apply insert_subseteq. }
    repeat split; auto.
    + intros n [<- | Hin]; [exact Hfresh |].
      specialize (Hnone n Hin). apply lookup_insert_None in Hnone. tauto.
    + intros n [<- | Hin]; [| now apply Hsome].
      eapply lookup_weaken; [| exact Hsub]. apply lookup_insert_eq.
Qed.

(** A name already registered stops the second loop. *)
Lemma apply_loop_clash (R : gmap string string) (g : GraphDef) :
  forall (self : Self) (visited : list NodeDef) (n n0 : NodeDef),
    In n g ->
    output_node_maps self !! name n = Some n0 ->
    for_each (apply_step R) g (self, visited) = Raise ValueError.
Proof.
  induction g as [|a g IH]; intros self visited n n0 Hin Hreg; [destruct Hin |].
  cbn [for_each]. unfold apply_step at 1.
  destruct (output_node_maps self !! name (rewire_node R a)) as [x|] eqn:Hl.
  - rewrite add_output_graph_node_Raise by eauto. reflexivity.
  - rewrite add_output_graph_node_Ok by exact Hl. cbn [bind].
    destruct Hin as [-> | Hin]; [cbn in Hl; congruence |].
    apply (IH _ _ n n0 Hin). cbn.
    rewrite lookup_insert_ne; [exact Hreg |].
    intros E. rewrite <- E in Hreg. cbn in Hl. congruence.
Qed.

Lemma remove_redundant_inv (self self' : Self) (g r g' : GraphDef) :
  remove_redundant_quantization self g = Ok (r, g', self') ->
  exists R,
    recorded_rewires g = Ok R
    /\ r = map (rewire_node R) (scanned g)
    /\ g' = r
    /\ output_graph self' = r
    /\ NoDup (map name g)
    /\ (forall n, In n g -> output_node_maps self !! name n = None)
    /\ output_node_maps self ⊆ output_node_maps self'
    /\ (forall n1, In n1 r -> output_node_maps self' !! name n1 = Some n1).
Proof.
  unfold remove_redundant_quantization, recorded_rewires, scanned. intros E.
  destruct (create_nodes_map g) as [m|e] eqn:Hmap; cbn [bind] in E |- *; [| discriminate].
  destruct (for_each (scan_node m) g ∅) as [R|e] eqn:Hscan; cbn [bind] in E; [| discriminate].
  cbn zeta in E.
  match type of E with bind ?X _ = _ => destruct X as [[s old]|e] eqn:Hloop end;
    cbn [bind] in E; [| discriminate].
  injection E as <- <- <-.
  apply apply_loop_inv in Hloop as (Hgraph & -> & Hsub & Hnone & Hsome).
  cbn in Hgraph, Hsub, Hnone. exists R. rewrite Hgraph. cbn [app].
  split; [reflexivity |]. split; [reflexivity |]. split; [reflexivity |].
  split; [reflexivity |]. split; [eapply create_nodes_map_NoDup, Hmap |].
  split; [| split; [exact Hsub |]].
  - intros n Hn. apply (in_map name) in Hn. rewrite <- (scan_effect_names m g) in Hn.
    apply in_map_iff in Hn as (n' & <- & Hn'). now apply Hnone.
  - intros n1 Hn1. apply in_map_iff in Hn1 as (n & <- & Hn).
    rewrite rewire_node_name. now apply Hsome.
Qed.

(** X12: the eliminator succeeds only on a graph whose node names are
    distinct and not yet registered.  It then returns, and leaves in
    the graph passed in, every node as the scan left it (with an unset
    [T] where it read one that was missing) and rewired by the map the
    scan recorded; the object's output graph is the returned graph, and
    the registry keeps what it held and holds every returned node under
    its name. *)
Theorem eliminator_success_inv (self self' : Self) (g r g' : GraphDef) :
  remove_redundant_quantization self g = Ok (r, g', self') ->
  exists R,
    recorded_rewires g = Ok R
    /\ r = map (rewire_node R) (scanned g)
    /\ g' = r
    /\ output_graph self' = r
    /\ NoDup (map name g)
    /\ (forall n, In n g -> output_node_maps self !! name n = None)
    /\ output_node_maps self ⊆ output_node_maps self'
    /\ (forall n1, In n1 r -> output_node_maps self' !! name n1 = Some n1).
Proof. apply remove_redundant_inv. Qed.

Lemma remove_redundant_clash (self : Self) (g : GraphDef) (n n0 : NodeDef) :
  In n g ->
  output_node_maps self !! name n = Some n0 ->
  exists e,
    remove_redundant_quantization self g = Raise e
    /\ (is_Ok (recorded_rewires g) -> e = ValueError).
Proof.
  intros Hin Hreg. unfold remove_redundant_quantization, recorded_rewires.
  destruct (create_nodes_map g) as [m|e]; cbn [bind]; [| exists e; split; [auto | intros []]].
  destruct (for_each (scan_node m) g ∅) as [R|e]; cbn [bind];
    [| exists e; split; [auto | intros []]].
  cbn zeta.
  apply (in_map name) in Hin. rewrite <- (scan_effect_names m g) in Hin.
  apply in_map_iff in Hin as (n' & Hname & Hin').
  rewrite (apply_loop_clash R (scan_effect m g) _ [] n' n0 Hin');
    [| cbn; now rewrite Hname].
  exists ValueError. auto.
Qed.

(** X13: a node name already in the registry makes the eliminator
    raise: it never returns a graph then, and the error is the
    duplicate-node [ValueError] whenever the scan itself goes through. *)
Theorem eliminator_registered_name_raises (self : Self) (g : GraphDef) (n n0 : NodeDef) :
  In n g ->
  output_node_maps self !! name n = Some n0 ->
  exists e,
    remove_redundant_quantization self g = Raise e
    /\ (is_Ok (recorded_rewires g) -> e = ValueError).
Proof. apply remove_redundant_clash. Qed.

(** X14: the eliminator cannot be run twice on one object without a
    registry reset in between.  After a successful run on a graph that
    is not empty, a run on the returned graph raises, whatever the
    first run rewired. *)
Theorem eliminator_rerun_without_reset_raises (self self1 : Self) (g g1 g' : GraphDef) :
  remove_redundant_quantization self g = Ok (g1, g', self1) ->
  g <> [] ->
  exists e, remove_redundant_quantization self1 g1 = Raise e.
Proof.
  intros Hrun Hne.
  apply remove_redundant_inv in Hrun as (R & _ & Hg1 & _ & _ & _ & _ & _ & Hreg).
  destruct g1 as [|n1 g1].
  { exfalso. apply Hne. apply (f_equal (map name)) in Hg1.
    rewrite rewire_map_names, scanned_names in Hg1.
    destruct g; [reflexivity | discriminate]. }
  destruct (remove_redundant_clash self1 (n1 :: g1) n1 n1) as (e & He & _).
  - now left.
  - apply (Hreg n1). now left.
  - eauto.
Qed.

(** The scan records nothing on a graph without a Quantize node. *)
Lemma scan_without_quantize (m : gmap string NodeDef) (g : GraphDef) (R : gmap string string) :
  Forall (fun n => str_in (op n) ["Quantize"; "QuantizeV2"] = false) g ->
  for_each (scan_node m) g R = Ok R.
Proof.
  induction 1 as [|n g Hn _ IH]; [reflexivity |].
  cbn [for_each]. unfold scan_node at 1. rewrite Hn. cbn [negb bind]. exact IH.
Qed.

Lemma rewire_empty (g : GraphDef) : map (rewire_node ∅) g = g.
Proof.
  rewrite <- (map_id g) at 2. apply map_ext. intros n.
  apply rewire_node_id. intros i _. apply lookup_empty.
Qed.

(** X15: a graph with no [Quantize] or [QuantizeV2] node passes through
    the eliminator unchanged: with distinct names, none of them
    registered, the run succeeds, returns the graph as it was and
    leaves the graph passed in as it was. *)
Theorem eliminator_identity_without_quantize (self : Self) (g : GraphDef) :
  Forall (fun n => str_in (op n) ["Quantize"; "QuantizeV2"] = false) g ->
  NoDup (map name g) ->
  (forall n, In n g -> output_node_maps self !! name n = None) ->
  exists self',
    remove_redundant_quantization self g = Ok (g, g, self')
    /\ output_graph self' = g
    /\ quantized_node_dict self' = quantized_node_dict self.
Proof.
  intros Hops Hnodup Hfresh.
  assert (Hscan : recorded_rewires g = Ok ∅).
  { unfold recorded_rewires.
    destruct (create_nodes_map_step_Ok g ∅ Hnodup) as (m & Hmap & _).
    { intros n _. apply lookup_empty. }
    unfold create_nodes_map. rewrite Hmap. cbn [bind].
    now apply scan_without_quantize. }
  destruct (remove_redundant_Ok self g ∅ Hscan Hfresh) as (self' & Hrun & Hgraph & Hmemo).
  assert (Hsame : scanned g = g).
  { apply scanned_id. intros n _ (q & i0 & d & Hq & _ & Hop & _).
    rewrite Forall_forall in Hops. apply list_elem_of_In in Hq.
    rewrite (Hops q Hq) in Hop. discriminate. }
  rewrite Hsame, rewire_empty in Hrun, Hgraph. eauto.
Qed.

End Eliminator_results.

(** ** The quantize prologue of an anchor *)

Section Prologue.
Context `{QuantizeGraphHelper}.
Variable recursion_limit : nat.

(** Whatever path it takes, [_eightbitize_input_to_node] leaves its
    result in the memo under the key of the input. *)
Lemma eightbitize_result_memoized (self self' : Self) (prefix i rs rd : string)
    (dtype : dtypes.DType) (t : quantized_tuple) :
  _eightbitize_input_to_node self prefix i rs rd dtype = Ok (t, self') ->
  quantized_node_dict self' !! unique_node_name_from_input i = Some t.
Proof.
  intros E.
  destruct (quantized_node_dict self !! unique_node_name_from_input i) as [t0|] eqn:Hmemo.
  - rewrite (eightbitize_hit self prefix i rs rd dtype t0 Hmemo) in E.
    now injection E as <- <-.
  - now apply (eightbitize_emits_quantize self self' prefix i rs rd dtype t E).
Qed.

Lemma prologue_loop_memo (original prefix rs rd : string) (ins : list string) st st' :
  for_each (prologue_step recursion_limit original prefix rs rd) ins st = Ok st' ->
  quantized_node_dict (fst (fst st)) ⊆ quantized_node_dict (fst (fst st')).
Proof.
  apply (for_each_invariant
           (fun st st' => quantized_node_dict (fst (fst st))
                          ⊆ quantized_node_dict (fst (fst st')))).
  - reflexivity.
  - intros s1 s2 s3 H12 H23. etransitivity; eassumption.
  - intros s a s'. apply prologue_step_memo.
Qed.

(** The first loop of the prologue: one memo tuple per data input, in
    the order of the inputs. *)
Lemma prologue_loop_layout (original prefix rs rd : string) (ins : list string) :
  forall (s s' : Self) (qs qs' mms mms' : list string),
    for_each (prologue_step recursion_limit original prefix rs rd) ins (s, qs, mms)
    = Ok (s', qs', mms') ->
    exists (datas : list string) (tuples : list quantized_tuple),
      select_inputs false ins = Ok datas
      /\ Forall2 (fun i t => quantized_node_dict s' !! unique_node_name_from_input i = Some t)
           datas tuples
      /\ qs' = qs ++ map (fun t => fst (fst t)) tuples
      /\ mms' = mms ++ flat_map (fun t => [snd (fst t); snd t]) tuples.
Proof.
  induction ins as [|a ins IH]; intros s s' qs qs' mms mms' E.
  - cbn in E. injection E as <- <- <-. exists [], [].
    cbn. rewrite !app_nil_r. repeat split. constructor.
  - cbn [for_each] in E. unfold prologue_step at 1 in E. cbn [select_inputs].
    destruct (is_control_input a) as [[|]|e]; cbn [bind] in E |- *; [| | discriminate].
    + apply IH in E as (datas & tuples & -> & Hmemo & -> & ->).
      exists datas, tuples. cbn. auto.
    + destruct (prologue_dtype recursion_limit s original (node_name_from_input a))
        as [dtype|e]; cbn [bind] in E; [| discriminate].
      destruct (_eightbitize_input_to_node s prefix a rs rd dtype)
        as [[[[q mn] mx] s1]|e] eqn:Hcall; cbn [bind] in E; [| discriminate].
      pose proof (prologue_loop_memo _ _ _ _ _ _ _ E) as Hgrow. cbn in Hgrow.
      apply eightbitize_result_memoized in Hcall.
      apply IH in E as (datas & tuples & -> & Hmemo & -> & ->).
      exists (a :: datas), ((q, mn, mx) :: tuples). cbn.
      rewrite <- !app_assoc. repeat split.
      constructor; [| exact Hmemo].
      eapply lookup_weaken; eassumption.
Qed.

(** The second loop: the control inputs, in order. *)
Lemma prologue_control_loop (ins : list string) :
  forall acc acc' : list string,
    for_each (fun acc original_input_name =>
                let* ctl := is_control_input original_input_name in
                Ok (if ctl then acc ++ [original_input_name] else acc)) ins acc
    = Ok acc' ->
    exists controls, select_inputs true ins = Ok controls /\ acc' = acc ++ controls.
Proof.
  induction ins as [|a ins IH]; intros acc acc' E.
  - cbn in E. injection E as <-. exists []. now rewrite app_nil_r.
  - cbn [for_each select_inputs] in E |- *.
    destruct (is_control_input a) as [[|]|e]; cbn [bind] in E |- *; [| | discriminate];
      apply IH in E as (controls & -> & ->); cbn.
    + exists (a :: controls). now rewrite <- app_assoc.
    + exists controls. auto.
Qed.

(** X16: the input list the prologue returns for an anchor is laid out
    in three blocks: the quantized name of every data input, in input
    order; then the min and max names of every data input, in input
    order; then the control inputs as they were.  The three names of a
    data input are the tuple the memo holds for it afterwards, so the
    list has three entries per data input and one per control input. *)
Theorem prologue_input_layout (self self' : Self) (original_node : string)
    (all_input_names : list string) :
  _add_eightbit_prologue_nodes recursion_limit self original_node
  = Ok (all_input_names, self') ->
  exists (controls datas : list string) (tuples : list quantized_tuple),
    _get_node_input self original_node = Ok (controls, datas)
    /\ Forall2 (fun i t => quantized_node_dict self' !! unique_node_name_from_input i = Some t)
         datas tuples
    /\ all_input_names
       = map (fun t => fst (fst t)) tuples
         ++ flat_map (fun t => [snd (fst t); snd t]) tuples
         ++ controls
    /\ length all_input_names = 3 * length datas + length controls.
Proof.
  unfold _add_eightbit_prologue_nodes, _get_node_input. intros E.
  destruct (od_get (node_name_mapping self) original_node) as [anchor|e] eqn:Hanchor;
    cbn [bind] in E |- *; [| discriminate].
  destruct (list_getitem (input (node anchor)) 0) as [i0|e]; cbn [bind] in E; [| discriminate].
  destruct (_add_common_quantization_nodes self (original_node +:+ "_eightbit")
              (node_name_from_input i0)) as [[[rs rd] self1]|e] eqn:Hcommon;
    cbn [bind] in E; [| discriminate].
  apply common_emits, emits_configuration in Hcommon as (_ & Hmap1 & _).
  rewrite Hmap1, Hanchor in E. cbn [bind] in E.
  match type of E with bind ?X _ = _ => destruct X as [[[self2 qs] mms]|e] eqn:Hloop end;
    cbn [bind] in E; [| discriminate].
  assert (Hmap2 : node_name_mapping self2 = node_name_mapping self).
  { apply (for_each_emits (fun st => fst (fst st))) in Hloop.
    - apply emits_configuration in Hloop as (_ & Hmap2 & _). cbn in Hmap2. congruence.
    - intros st i st'. apply prologue_step_emits. }
  rewrite Hmap2, Hanchor in E. cbn [bind] in E.
  match type of E with bind ?X _ = _ => destruct X as [all|e] eqn:Hctl end;
    cbn [bind] in E; [| discriminate].
  injection E as -> ->.
  apply prologue_loop_layout in Hloop as (datas & tuples & Hdatas & Hmemo & -> & ->).
  apply prologue_control_loop in Hctl as (controls & Hcontrols & ->).
  rewrite Hcontrols, Hdatas. cbn [bind app].
  exists controls, datas, tuples. rewrite <- app_assoc.
  repeat split; [exact Hmemo |].
  rewrite !length_app, length_map. apply Forall2_length in Hmemo.
  assert (Hmm : forall l : list (string * string * string),
             length (flat_map (fun t => [snd (fst t); snd t]) l) = 2 * length l).
  { clear. induction l as [|t l IH]; cbn in *; lia. }
  rewrite Hmm. unfold quantized_tuple in *. lia.
Qed.

Lemma common_nodes_registered (self self' : Self) (prefix ctl : string) r :
  _add_common_quantization_nodes self prefix ctl = Ok (r, self') ->
  is_Some (output_node_maps self' !! (prefix +:+ "_reshape_dims")).
Proof.
  unfold _add_common_quantization_nodes. intros E.
  match type of E with bind (add_output_graph_node _ ?n) _ = _ =>
    destruct (add_output_graph_node self n) as [s1|e] eqn:Hadd end;
    cbn [bind] in E; [| discriminate].
  apply add_output_graph_node_inv in Hadd as [_ ->].
  match type of E with bind ?X _ = _ => destruct X as [s2|e] eqn:Hadd2 end;
    cbn [bind] in E; [| discriminate].
  injection E as _ <-.
  apply emits_add1, emits_registry in Hadd2.
  eapply lookup_weaken_is_Some; [| exact Hadd2]. cbn.
  destruct (String.eqb ctl ""); cbn; rewrite lookup_insert_eq; eauto.
Qed.

Lemma common_nodes_clash (self : Self) (prefix ctl : string) :
  is_Some (output_node_maps self !! (prefix +:+ "_reshape_dims")) ->
  _add_common_quantization_nodes self prefix ctl = Raise ValueError.
Proof.
  intros Hreg. unfold _add_common_quantization_nodes.
  rewrite add_output_graph_node_Raise; [reflexivity |].
  destruct (String.eqb ctl ""); exact Hreg.
Qed.

(** X17: the prologue of an anchor cannot be emitted twice.  Once it
    has succeeded for an anchor, a further call for that anchor raises
    [ValueError] in every state whose registry still holds what the
    first call registered: the two shape constants are not memoized. *)
Theorem prologue_twice_raises (self self1 self2 : Self) (original_node : string)
    (all_input_names : list string) :
  _add_eightbit_prologue_nodes recursion_limit self original_node
  = Ok (all_input_names, self1) ->
  node_name_mapping self2 = node_name_mapping self1 ->
  output_node_maps self1 ⊆ output_node_maps self2 ->
  _add_eightbit_prologue_nodes recursion_limit self2 original_node = Raise ValueError.
Proof.
  intros E Hmap Hreg.
  pose proof (prologue_emits recursion_limit _ _ _ _ E) as Hemits.
  apply emits_configuration in Hemits as (_ & Hmap1 & _).
  unfold _add_eightbit_prologue_nodes in E |- *.
  rewrite Hmap, Hmap1.
  destruct (od_get (node_name_mapping self) original_node) as [anchor|e] eqn:Hanchor;
    cbn [bind] in E |- *; [| discriminate].
  destruct (list_getitem (input (node anchor)) 0) as [i0|e]; cbn [bind] in E |- *;
    [| discriminate].
  destruct (_add_common_quantization_nodes self (original_node +:+ "_eightbit")
              (node_name_from_input i0)) as [[[rs rd] s1]|e] eqn:Hcommon;
    cbn [bind] in E; [| discriminate].
  rewrite common_nodes_clash; [reflexivity |].
  eapply lookup_weaken_is_Some; [| exact Hreg].
  pose proof (common_nodes_registered _ _ _ _ _ Hcommon) as Hs1.
  pose proof (common_emits _ _ _ _ _ Hcommon) as Hc.
  apply emits_configuration in Hc as (_ & Hm1 & _).
  rewrite Hm1, Hanchor in E. cbn [bind] in E.
  match type of E with bind ?X _ = _ => destruct X as [[[s2 qs] mms]|e] eqn:Hloop end;
    cbn [bind] in E; [| discriminate].
  apply (for_each_emits (fun st => fst (fst st))) in Hloop.
  2:{ intros st i st'. apply prologue_step_emits. }
  apply emits_registry in Hloop. cbn in Hloop.
  match type of E with bind ?X _ = _ => destruct X as [a|e] end; cbn [bind] in E;
    [| discriminate].
  match type of E with bind ?X _ = _ => destruct X as [b|e] end; cbn [bind] in E;
    [| discriminate].
  injection E as _ <-.
  eapply lookup_weaken_is_Some; eassumption.
Qed.

(** X18: what [eightbitize_single_input_tensor_node] leaves behind.
    The last node of the output graph is a [Dequantize] that takes the
    name of the original node, reads the three outputs of the quantized
    op and is registered under that name.  A later prologue, for
    whatever anchor, that meets this name as a data input therefore
    quantizes it with the type this [Dequantize] carries, unsigned
    8-bit, without looking for a ReLU. *)
Theorem single_input_result_is_unsigned (self self' : Self) (original_node : NodeDef)
    (add_op_function : NodeDef -> NodeDef -> NodeDef) :
  eightbitize_single_input_tensor_node recursion_limit self original_node add_op_function
  = Ok self' ->
  exists dequantize_node,
    last (output_graph self') = Some dequantize_node
    /\ output_node_maps self' !! name original_node = Some dequantize_node
    /\ name dequantize_node = name original_node
    /\ op dequantize_node = "Dequantize"
    /\ input dequantize_node
       = [name original_node +:+ "_eightbit_quantized";
          (name original_node +:+ "_eightbit_quantized") +:+ ":1";
          (name original_node +:+ "_eightbit_quantized") +:+ ":2"]
    /\ attr_get dequantize_node "T" = AttrValue_type dtypes.quint8
    /\ (intel_cpu_eightbitize self' = true ->
        forall anchor,
          prologue_dtype recursion_limit self' anchor (name original_node)
          = Ok dtypes.quint8).
Proof.
  unfold eightbitize_single_input_tensor_node. intros E.
  destruct (_add_eightbit_prologue_nodes recursion_limit self (name original_node))
    as [[all self1]|e]; cbn [bind] in E; [| discriminate].
  match type of E with bind ?X _ = _ => destruct X as [self2|e] end; cbn [bind] in E;
    [| discriminate].
  unfold _intel_cpu_add_dequantize_result_node in E. cbn [bind list_getitem] in E.
  cbn in E.
  apply add_output_graph_node_inv in E as [_ ->].
  eexists. cbn [output_graph output_node_maps with_output].
  split; [apply last_snoc |].
  split; [apply lookup_insert_eq |].
  split; [reflexivity |]. split; [reflexivity |]. split; [reflexivity |].
  split; [reflexivity |].
  intros Hintel anchor. unfold prologue_dtype.
  cbn [intel_cpu_eightbitize with_output] in Hintel |- *. rewrite Hintel.
  cbn [output_node_maps with_output].
  rewrite bool_decide_eq_true_2 by (rewrite lookup_insert_eq; eauto).
  cbn [andb]. unfold dict_getitem. rewrite lookup_insert_eq. reflexivity.
Qed.

End Prologue.

(** ** The weight quantizer *)

Section Weights.
Context `{QuantizeGraphHelper}.
Variable recursion_limit : nat.
Variable undefined_int8_cast : float -> Z.
Variable quantize_v2 : ndarray float -> float -> float -> string -> list Z * float * float.

Lemma abs_opp_abs (y : float) : abs (- abs y)%float = abs y.
Proof.
  apply FloatAxioms.Prim2SF_inj.
  rewrite !FloatAxioms.abs_spec, FloatAxioms.opp_spec, FloatAxioms.abs_spec.
  now destruct (Prim2SF y).
Qed.

Lemma abs_abs (y : float) : abs (abs y) = abs y.
Proof.
  apply FloatAxioms.Prim2SF_inj. rewrite !FloatAxioms.abs_spec.
  now destruct (Prim2SF y).
Qed.

(** On a range that is an absolute value, the three nudges leave a
    minimum that is the opposite of the maximum. *)
Lemma nudged_symmetric (y : float) :
  let r := abs y in
  (if abs (- r) <? float32 epsilon then float32 (- epsilon) else - r)%float
  = (- (let r1 := if r <? float32 epsilon then float32 epsilon else r in
        if abs r1 <? float32 epsilon then float32 epsilon else r1))%float.
Proof.
  cbn zeta. rewrite abs_opp_abs.
  assert (Hneg : float32 (- epsilon) = (- float32 epsilon)%float)
    by (vm_compute; reflexivity).
  destruct (abs y <? float32 epsilon)%float eqn:E.
  - rewrite Hneg. now destruct (abs (float32 epsilon) <? float32 epsilon)%float.
  - now rewrite abs_abs, E.
Qed.

Lemma zip_maximum_abs (a b : list float) :
  Forall (fun r => exists y, r = abs y) a ->
  Forall (fun r => exists y, r = abs y) b ->
  Forall (fun r => exists y, r = abs y) (zip_with np_maximum a b).
Proof.
  intros Ha. revert b. induction Ha as [|x a Hx Ha IH]; intros b Hb; [constructor |].
  destruct Hb as [|z b Hz Hb]; [constructor |]. cbn [zip_with].
  constructor; [| now apply IH].
  unfold np_maximum. now destruct ((z <=? x)%float || is_nan x).
Qed.

Lemma rows_of_Forall (P : float -> Prop) (count n : nat) (l : list float) :
  Forall P l -> Forall (Forall P) (rows_of count n l).
Proof.
  revert l. induction count as [|count IH]; intros l Hl; cbn; constructor.
  - now apply Forall_take.
  - apply IH. now apply Forall_drop.
Qed.

(** A maximum of absolute values is one of them. *)
Lemma np_max_leading_abs (k : nat) (t : ndarray float) (ranges : list float) :
  np_max_leading k (np_abs t) = Ok ranges ->
  Forall (fun r => exists y, r = abs y) ranges.
Proof.
  unfold np_max_leading, leading_rows. cbn [np_abs shape data].
  destruct (length (shape t) <? k)%nat; [discriminate |].
  pose proof (rows_of_Forall (fun r => exists y, r = abs y)
                (prod (take k (shape t))) (prod (drop k (shape t)))
                (map abs (data t))) as Hrows.
  destruct (rows_of _ _ _) as [|r rs]; [discriminate |].
  intros E. injection E as <-.
  assert (Hall : Forall (Forall (fun r => exists y, r = abs y)) (r :: rs)).
  { apply Hrows. apply Forall_forall. intros x Hx.
    apply list_elem_of_In, in_map_iff in Hx as (y & <- & _). eauto. }
  apply Forall_cons in Hall as [Hr Hrs]. clear Hrows.
  revert r Hr. induction Hrs as [|row rs Hrow _ IH]; intros r Hr; [exact Hr |].
  cbn [foldl]. apply IH. now apply zip_maximum_abs.
Qed.

Lemma per_channel_quantize_symmetric (rows : list (list float)) (ranges : list float)
    (q : list Z) (mins maxs : list float) :
  Forall (fun r => exists y, r = abs y) ranges ->
  per_channel_quantize undefined_int8_cast rows ranges = (q, mins, maxs) ->
  mins = map PrimFloat.opp maxs
  /\ length maxs = length ranges
  /\ Forall at_least_stored_epsilon maxs.
Proof.
  unfold per_channel_quantize, nudge_min, nudge_max, nudge_ranges.
  intros Habs E. injection E as _ <- <-. rewrite !map_map. split; [| split].
  - apply map_ext_in. intros r Hr.
    rewrite Forall_forall in Habs. apply list_elem_of_In, Habs in Hr as [y ->].
    apply nudged_symmetric.
  - apply length_map.
  - apply Forall_forall. intros x Hx.
    apply list_elem_of_In, in_map_iff in Hx as (r0 & <- & _). apply nudged_at_least.
Qed.

(** X19: per-channel weight ranges are symmetric.  Whenever the
    quantizer takes a per-channel path (Conv2D or MatMul with
    [per_channel], or DepthwiseConv2dNative whatever the flag) and
    returns, the min constant holds, channel by channel, the opposite
    of the max constant, both of the same shape, and no max is below
    [epsilon] as the [float32] range array stores it (a value just
    under 1e-4). *)
Theorem per_channel_ranges_symmetric (parent : string) (t : ndarray float)
    (per_channel_ : bool) (mode : string) (q : list Z) (mn mx : const_value) :
  str_in parent ["Conv2D"; "MatMul"] && per_channel_
  || String.eqb parent "DepthwiseConv2dNative" = true ->
  quantize_weight_values undefined_int8_cast quantize_v2 parent t per_channel_ mode
  = Ok (q, mn, mx) ->
  exists channels mins maxs,
    mn = value_floats (mk_ndarray channels mins)
    /\ mx = value_floats (mk_ndarray channels maxs)
    /\ mins = map PrimFloat.opp maxs
    /\ Forall at_least_stored_epsilon maxs.
Proof.
  unfold quantize_weight_values. intros Hpath E.
  destruct (str_in parent ["Conv2D"; "MatMul"]) eqn:Hconv.
  - destruct per_channel_.
    2:{ cbn [andb orb] in Hpath.
        apply String.eqb_eq in Hpath. subst parent. discriminate. }
    destruct (np_max_leading 3 (np_abs t)) as [ranges|e] eqn:Hranges; cbn [bind] in E;
      [| discriminate].
    destruct (length (shape t) =? 3)%nat; [discriminate |].
    destruct (per_channel_quantize undefined_int8_cast (leading_rows 3 t) ranges)
      as [[q' mins] maxs] eqn:Hq.
    injection E as <- <- <-.
    apply np_max_leading_abs in Hranges.
    destruct (per_channel_quantize_symmetric _ _ _ _ _ Hranges Hq) as (Hsym & _ & Hsafe).
    eauto 10.
  - cbn [andb orb] in Hpath. rewrite Hpath in E.
    destruct (np_max_leading 2 (np_abs t)) as [ranges|e] eqn:Hranges; cbn [bind] in E;
      [| discriminate].
    destruct (shape t) as [|a [|b [|c [|d [|]]]]]; try discriminate.
    match type of E with context [per_channel_quantize ?c ?rows ranges] =>
      destruct (per_channel_quantize c rows ranges) as [[q' mins] maxs] eqn:Hq end.
    injection E as <- <- <-.
    apply np_max_leading_abs in Hranges.
    destruct (per_channel_quantize_symmetric _ _ _ _ _ Hranges Hq) as (Hsym & _ & Hsafe).
    eauto 10.
Qed.

(** X20: the weight quantizer's error behaviour on a float constant.
    For a parent op kind it does not know the quantized tensor is never
    assigned: [UnboundLocalError].  Per-channel quantization of a
    Conv2D/MatMul weight with fewer than three axes, and of a depthwise
    weight with fewer than two, fails in the reduction: [AxisError].  A
    depthwise weight that passes the reduction but is not 4-D fails to
    unpack its shape: [ValueError]. *)
Theorem quantize_weight_errors (self : Self) (parent : string) (input_node : NodeDef)
    (per_channel_ : bool) (mode : string) (t : ndarray float) :
  MakeNdarray (attr_get input_node "value") = Ok t ->
  let run :=
    _intel_cpu_quantize_weight_eightbit undefined_int8_cast quantize_v2 self parent
      input_node per_channel_ mode in
  (str_in parent ["Conv2D"; "MatMul"; "DepthwiseConv2dNative"] = false ->
   run = Raise UnboundLocalError)
  /\ (str_in parent ["Conv2D"; "MatMul"] = true -> per_channel_ = true ->
      length (shape t) < 3 -> run = Raise AxisError)
  /\ (parent = "DepthwiseConv2dNative" ->
      (length (shape t) < 2 -> run = Raise AxisError)
      /\ (forall ranges, np_max_leading 2 (np_abs t) = Ok ranges ->
          length (shape t) <> 4 -> run = Raise ValueError)).
Proof.
  intros Ht run. subst run.
  unfold _intel_cpu_quantize_weight_eightbit, quantize_weight_values. rewrite Ht.
  cbn [bind]. split; [| split].
  - intros Hparent. unfold str_in in *. cbn [existsb] in *.
    apply orb_false_iff in Hparent as [H1 Hparent].
    apply orb_false_iff in Hparent as [H2 Hparent].
    apply orb_false_iff in Hparent as [H3 _].
    now rewrite H1, H2, H3.
  - intros -> -> Hlen. unfold np_max_leading. cbn [np_abs shape].
    apply Nat.ltb_lt in Hlen. now rewrite Hlen.
  - intros ->. cbn [str_in existsb String.eqb Ascii.eqb Bool.eqb orb]. split.
    + intros Hlen. unfold np_max_leading. cbn [np_abs shape].
      apply Nat.ltb_lt in Hlen. now rewrite Hlen.
    + intros ranges -> Hlen. cbn [bind].
      destruct (shape t) as [|a [|b [|c [|d [|]]]]]; try reflexivity.
      now contradiction Hlen.
Qed.

(** X21: what a successful weight quantization leaves behind.  Four
    nodes are appended, in this order: the signed 8-bit constant, the
    min and max constants, and a [Dequantize] that takes over the name
    of the weight node and reads the three constants.  Its mode is
    [SCALED] whatever mode was asked for, its type signed 8-bit, and it
    is what the registry holds under the weight's name, so a later
    prologue that meets the weight as a data input quantizes it as
    signed 8-bit. *)
Theorem quantize_weight_emits_dequantize (self self' : Self) (parent : string)
    (input_node : NodeDef) (per_channel_ : bool) (mode : string) :
  _intel_cpu_quantize_weight_eightbit undefined_int8_cast quantize_v2 self parent
    input_node per_channel_ mode = Ok self' ->
  exists qint8_const_node min_node max_node dequantize_node,
    output_graph self'
    = output_graph self ++ [qint8_const_node; min_node; max_node; dequantize_node]
    /\ map name [qint8_const_node; min_node; max_node; dequantize_node]
       = [(name input_node +:+ "_") +:+ "qint8_const"; (name input_node +:+ "_") +:+ "min";
          (name input_node +:+ "_") +:+ "max"; name input_node]
    /\ map op [qint8_const_node; min_node; max_node; dequantize_node]
       = ["Const"; "Const"; "Const"; "Dequantize"]
    /\ input dequantize_node = map name [qint8_const_node; min_node; max_node]
    /\ attr_get dequantize_node "mode" = AttrValue_s "SCALED"
    /\ attr_get dequantize_node "T" = AttrValue_type dtypes.qint8
    /\ output_node_maps self' !! name input_node = Some dequantize_node
    /\ (intel_cpu_eightbitize self' = true ->
        forall anchor,
          prologue_dtype recursion_limit self' anchor (name input_node)
          = Ok dtypes.qint8).
Proof.
  unfold _intel_cpu_quantize_weight_eightbit. intros E.
  destruct (MakeNdarray (attr_get input_node "value")) as [t|e]; cbn [bind] in E;
    [| discriminate].
  destruct (quantize_weight_values undefined_int8_cast quantize_v2 parent t per_channel_ mode)
    as [[[q mn] mx]|e]; cbn [bind] in E; [| discriminate].
  match type of E with bind (add_output_graph_node _ ?n) _ = _ =>
    destruct (add_output_graph_node self n) as [s1|e] eqn:H1 end;
    cbn [bind] in E; [| discriminate].
  match type of E with bind (add_output_graph_node _ ?n) _ = _ =>
    destruct (add_output_graph_node s1 n) as [s2|e] eqn:H2 end;
    cbn [bind] in E; [| discriminate].
  match type of E with bind (add_output_graph_node _ ?n) _ = _ =>
    destruct (add_output_graph_node s2 n) as [s3|e] eqn:H3 end;
    cbn [bind] in E; [| discriminate].
  apply add_output_graph_node_inv in H1 as [_ ->].
  apply add_output_graph_node_inv in H2 as [_ ->].
  apply add_output_graph_node_inv in H3 as [_ ->].
  apply add_output_graph_node_inv in E as [_ ->].
  do 4 eexists. cbn [output_graph output_node_maps with_output].
  rewrite <- !app_assoc. cbn [app].
  split; [reflexivity |]. split; [reflexivity |]. split; [reflexivity |].
  split; [reflexivity |]. split; [reflexivity |]. split; [reflexivity |].
  split; [apply lookup_insert_eq |].
  intros Hintel anchor. unfold prologue_dtype.
  cbn [intel_cpu_eightbitize with_output] in Hintel |- *. rewrite Hintel.
  cbn [output_node_maps with_output].
  rewrite bool_decide_eq_true_2 by (rewrite lookup_insert_eq; eauto).
  cbn [andb]. unfold dict_getitem. rewrite lookup_insert_eq. reflexivity.
Qed.

End Weights.

(** ** The transformer registry of [QuantizeGraphBase] *)

Section Transformers.
Context {entry : Type}.

Lemma od_get_set_eq {V} (d : OrderedDict V) (k : string) (v : V) :
  od_get (od_set d k v) k = Ok v.
Proof.
  induction d as [|[k' v'] d IH]; cbn; [now rewrite String.eqb_refl |].
  destruct (String.eqb k' k) eqn:E; cbn; rewrite E; [reflexivity | exact IH].
Qed.

Lemma od_get_set_ne {V} (d : OrderedDict V) (k k' : string) (v : V) :
  k' <> k -> od_get (od_set d k v) k' = od_get d k'.
Proof.
  intros Hne. induction d as [|[k0 v0] d IH]; cbn.
  - destruct (String.eqb_spec k k'); [congruence | reflexivity].
  - destruct (String.eqb_spec k0 k) as [-> | _]; cbn.
    + now destruct (String.eqb_spec k k'); [congruence |].
    + now rewrite IH.
Qed.

Lemma od_keys_set {V} (d : OrderedDict V) (k : string) (v : V) :
  od_keys (od_set d k v) = if od_contains d k then od_keys d else od_keys d ++ [k].
Proof.
  induction d as [|[k' v'] d IH]; cbn; [reflexivity |].
  destruct (String.eqb k' k) eqn:E; cbn; [reflexivity |].
  unfold od_keys in *. rewrite IH. now destruct (od_contains d k).
Qed.

Lemma od_contains_get {V} (d : OrderedDict V) (k : string) :
  od_contains d k = true -> exists v, od_get d k = Ok v.
Proof.
  induction d as [|[k' v'] d IH]; cbn; [discriminate |].
  destruct (String.eqb k' k); cbn; eauto.
Qed.

(** What one registration does. *)
Lemma register_transformer_Ok (self : QuantizeGraphBase entry) (node_name : string)
    (e : entry) :
  exists self',
    register_transformer self node_name e = Ok self'
    /\ base_output_node_names self' = base_output_node_names self
    /\ od_get (transformers self') node_name
       = Ok (match od_get (transformers self) node_name with
             | Ok registered => registered
             | Raise _ => []
             end ++ [e])
    /\ (forall k, k <> node_name ->
          od_get (transformers self') k = od_get (transformers self) k)
    /\ get_supported_fusion_node self'
       = if od_contains (transformers self) node_name
         then get_supported_fusion_node self
         else get_supported_fusion_node self ++ [node_name].
Proof.
  unfold register_transformer, get_supported_fusion_node.
  destruct (od_contains (transformers self) node_name) eqn:Hin; cbn [negb].
  - destruct (od_contains_get _ _ Hin) as [registered Hget]. rewrite Hget. cbn [bind].
    eexists. split; [reflexivity |]. cbn [transformers base_output_node_names].
    rewrite od_get_set_eq, od_keys_set, Hin. repeat split.
    intros k Hk. now apply od_get_set_ne.
  - rewrite od_get_set_eq. cbn [bind].
    eexists. split; [reflexivity |]. cbn [transformers base_output_node_names].
    rewrite od_get_set_eq, !od_keys_set, Hin, (od_get_contains _ _ Hin).
    assert (Hnow : od_contains (od_set (transformers self) node_name []) node_name = true).
    { apply od_contains_In. rewrite od_keys_set, Hin. apply in_or_app. right. now left. }
    rewrite Hnow. repeat split.
    intros k Hk. rewrite !od_get_set_ne by exact Hk. reflexivity.
Qed.

Lemma register_all (regs : list (string * entry)) :
  forall self : QuantizeGraphBase entry,
    NoDup (get_supported_fusion_node self) ->
    exists self',
      for_each (fun s p => register_transformer s (fst p) (snd p)) regs self = Ok self'
      /\ base_output_node_names self' = base_output_node_names self
      /\ NoDup (get_supported_fusion_node self')
      /\ (forall k, In k (get_supported_fusion_node self')
                    <-> In k (get_supported_fusion_node self) \/ In k (map fst regs))
      /\ (forall k,
            match od_get (transformers self') k with Ok l => l | Raise _ => [] end
            = match od_get (transformers self) k with Ok l => l | Raise _ => [] end
              ++ map snd (List.filter (fun p => String.eqb (fst p) k) regs)).
Proof.
  induction regs as [|[k0 e] regs IH]; intros self Hnodup.
  - exists self. cbn. repeat split; auto; try tauto.
    intros k. now rewrite app_nil_r.
  - destruct (register_transformer_Ok self k0 e)
      as (s1 & Hreg & Hout1 & Hget1 & Hother1 & Hkeys1).
    assert (Hnodup1 : NoDup (get_supported_fusion_node s1)).
    { rewrite Hkeys1. destruct (od_contains (transformers self) k0) eqn:Hin; [exact Hnodup |].
      apply NoDup_app. split; [exact Hnodup |]. split; [| apply NoDup_singleton].
      intros x Hx Hx'. apply list_elem_of_In in Hx'. destruct Hx' as [<- | []].
      apply list_elem_of_In, od_contains_In in Hx. congruence. }
    destruct (IH s1 Hnodup1) as (s' & Hrun & Hout & Hnd & Hkeys & Hget).
    exists s'. cbn [for_each fst snd]. rewrite Hreg. cbn [bind].
    split; [exact Hrun |]. split; [congruence |]. split; [exact Hnd |]. split.
    + intros k. rewrite Hkeys, Hkeys1. cbn [map fst].
      destruct (od_contains (transformers self) k0) eqn:Hin.
      * apply od_contains_In in Hin. unfold get_supported_fusion_node.
        split; [intros [Hk | Hk]; [now left | right; now right] |].
        intros [Hk | [<- | Hk]]; [now left | now left | now right].
      * rewrite in_app_iff. cbn. tauto.
    + intros k. rewrite Hget. cbn [List.filter fst snd].
      destruct (String.eqb_spec k0 k) as [<- | Hne].
      * rewrite Hget1. cbn [map snd]. now rewrite <- app_assoc.
      * rewrite Hother1 by congruence. reflexivity.
Qed.

(** X22: registering transformers never fails, and the registry reads
    back what was registered.  After any sequence of registrations on a
    new object, the supported fusion nodes are the registered node
    names, each once, and every name reads back its entries in the
    order they were registered. *)
Theorem registered_transformers_read_back (output_node_names_ : list string)
    (regs : list (string * entry)) :
  exists self,
    for_each (fun s p => register_transformer s (fst p) (snd p)) regs
      (QuantizeGraphBase_init output_node_names_) = Ok self
    /\ base_output_node_names self = output_node_names_
    /\ NoDup (get_supported_fusion_node self)
    /\ (forall k, In k (get_supported_fusion_node self) <-> In k (map fst regs))
    /\ (forall k, In k (map fst regs) ->
          od_get (transformers self) k
          = Ok (map snd (List.filter (fun p => String.eqb (fst p) k) regs))).
Proof.
  destruct (register_all regs (QuantizeGraphBase_init output_node_names_))
    as (self & Hrun & Hout & Hnodup & Hkeys & Hget); [constructor |].
  exists self. split; [exact Hrun |]. split; [exact Hout |]. split; [exact Hnodup |].
  split.
  - intros k. rewrite Hkeys. cbn. tauto.
  - intros k Hk.
    assert (Hin : In k (get_supported_fusion_node self)) by (apply Hkeys; now right).
    apply od_contains_In, od_contains_get in Hin as [l Hl].
    specialize (Hget k). rewrite Hl in Hget. cbn in Hget. now rewrite Hl, Hget.
Qed.

(** X23: the first registration of a name puts it last among the
    supported fusion nodes; a further registration for the same name
    leaves the names as they are and appends to its entries. *)
Theorem register_transformer_order (self : QuantizeGraphBase entry) (node_name : string)
    (e : entry) :
  exists self',
    register_transformer self node_name e = Ok self'
    /\ od_get (transformers self') node_name
       = Ok (match od_get (transformers self) node_name with
             | Ok registered => registered
             | Raise _ => []
             end ++ [e])
    /\ (forall k, k <> node_name ->
          od_get (transformers self') k = od_get (transformers self) k)
    /\ get_supported_fusion_node self'
       = if od_contains (transformers self) node_name
         then get_supported_fusion_node self
         else get_supported_fusion_node self ++ [node_name].
Proof.
  destruct (register_transformer_Ok self node_name e) as (self' & Hrun & _ & Hrest).
  eauto.
Qed.

End Transformers.

(** ** Inputs of an indexed node, and the op list *)

Section Inputs.
Context `{QuantizeGraphHelper}.

Lemma select_inputs_Ok (control : bool) (l : list string) :
  Forall (fun i => i <> "") l ->
  select_inputs control l
  = Ok (List.filter (fun i => Bool.eqb (String.prefix "^" i) control) l).
Proof.
  induction 1 as [|i l Hi _ IH]; [reflexivity |].
  cbn [select_inputs List.filter]. rewrite IH.
  destruct i as [|c i]; [contradiction |]. cbn [is_control_input bind String.prefix].
  destruct (ascii_dec "^" c) as [<- | Hc]; cbn.
  - now destruct i, control.
  - destruct (Ascii.eqb_spec c "^"); [congruence | reflexivity].
Qed.

Lemma select_inputs_empty (control : bool) (l : list string) :
  In "" l -> select_inputs control l = Raise IndexError.
Proof.
  induction l as [|i l IH]; intros Hin; [destruct Hin |].
  cbn [select_inputs]. destruct i as [|c i]; [reflexivity |].
  destruct Hin as [Hi | Hin]; [discriminate |]. cbn [is_control_input bind].
  now rewrite IH.
Qed.

(** X24: [_get_node_input] splits the inputs of an indexed node into
    the control inputs (those that start with the control marker) and
    the others, each list in input order.  It raises [KeyError] for a
    name that is not in the index, and [IndexError] when one of the
    inputs is the empty string. *)
Theorem get_node_input_partition (self : Self) (node_name : string) :
  (forall d,
     od_get (node_name_mapping self) node_name = Ok d ->
     (Forall (fun i => i <> "") (input (node d)) ->
      _get_node_input self node_name
      = Ok (List.filter (fun i => String.prefix "^" i) (input (node d)),
            List.filter (fun i => negb (String.prefix "^" i)) (input (node d))))
     /\ (In "" (input (node d)) -> _get_node_input self node_name = Raise IndexError))
  /\ (~ In node_name (od_keys (node_name_mapping self)) ->
      _get_node_input self node_name = Raise KeyError).
Proof.
  unfold _get_node_input. split.
  - intros d ->. cbn [bind]. split.
    + intros Hall. rewrite !select_inputs_Ok by exact Hall. cbn [bind].
      do 2 f_equal; apply filter_ext; intros i; now destruct (String.prefix "^" i).
    + intros Hin. now rewrite select_inputs_empty.
  - intros Hnotin. rewrite od_get_contains; [reflexivity |].
    destruct (od_contains (node_name_mapping self) node_name) eqn:E; [| reflexivity].
    apply od_contains_In in E. contradiction.
Qed.

Lemma index_explicit (g : GraphDef) (f : NodeDef -> node_details) :
  forall m : OrderedDict node_details,
    od_keys m = map name g ->
    NoDup (map name g) ->
    (forall n, In n g -> od_get m (name n) = Ok (f n)) ->
    m = map (fun n => (name n, f n)) g.
Proof.
  induction g as [|n g IH]; intros m Hkeys Hnodup Hget.
  - destruct m; [reflexivity | discriminate].
  - destruct m as [|[k v] m]; [discriminate |]. cbn in Hkeys. injection Hkeys as -> Hkeys.
    cbn [map] in Hnodup. apply NoDup_cons in Hnodup as [Hnotin Hnodup].
    pose proof (Hget n (or_introl eq_refl)) as Hn. cbn in Hn.
    rewrite String.eqb_refl in Hn. injection Hn as ->.
    cbn [map]. f_equal. apply IH; [exact Hkeys | exact Hnodup |].
    intros n' Hin'. specialize (Hget n' (or_intror Hin')). cbn in Hget.
    destruct (String.eqb_spec (name n) (name n')) as [E | _]; [| exact Hget].
    exfalso. apply Hnotin. rewrite E. now apply list_elem_of_In, in_map.
Qed.

(** X25: a new object, once [_get_op_list] has run, holds the op kinds
    and the index in step: the op list is the op kinds of the graph,
    the index keys are its node names, both in graph order, so that the
    op at a position is the op of the node the index holds there.  The
    output graph, the registry and the memo start empty. *)
Theorem init_op_list_aligned (tf_has_s8 : bool) (g : GraphDef)
    (output_node_names_ : list string) (patterns_ : list (list string))
    (per_channel_ : bool) (start_node_name_ device_ : string)
    (is_asymmetric_ enable_s8_ : bool) (self : Self) :
  __init__ tf_has_s8 g output_node_names_ patterns_ per_channel_ start_node_name_
    device_ is_asymmetric_ enable_s8_ = Ok self ->
  op_list (_get_op_list self) = map op g
  /\ od_keys (node_name_mapping (_get_op_list self)) = map name g
  /\ (forall k key v,
        od_keys (node_name_mapping (_get_op_list self)) !! k = Some key ->
        op_list (_get_op_list self) !! k = Some v ->
        exists d, od_get (node_name_mapping (_get_op_list self)) key = Ok d
                  /\ op (node d) = v /\ g !! k = Some (node d))
  /\ output_graph (_get_op_list self) = []
  /\ output_node_maps (_get_op_list self) = ∅
  /\ quantized_node_dict (_get_op_list self) = ∅
  /\ enable_s8 (_get_op_list self) = tf_has_s8 && enable_s8_.
Proof.
  unfold __init__. intros E.
  destruct (_parse_graph g) as [m|e] eqn:Hparse; cbn [bind] in E; [| discriminate].
  injection E as <-.
  apply parse_graph_Ok_inv in Hparse as (Hkeys & Hnodup & Hget).
  pose proof (index_explicit g _ m Hkeys Hnodup Hget) as Hm.
  cbn [_get_op_list with_op_list op_list node_name_mapping output_graph output_node_maps
       quantized_node_dict enable_s8].
  assert (Hops : map (fun kv : string * node_details => op (node (snd kv))) m = map op g).
  { rewrite Hm at 1. rewrite map_map. reflexivity. }
  split; [exact Hops |]. split; [exact Hkeys |]. split.
  - intros k key v Hkey Hv. rewrite Hops in Hv. rewrite Hkeys in Hkey.
    rewrite lookup_map in Hkey, Hv.
    unfold GraphDef in *. revert Hkey Hv. destruct (g !! k) as [n|] eqn:Hn; cbn; intros Hkey Hv;
      [| discriminate].
    injection Hkey as <-. injection Hv as <-.
    eexists. split; [apply Hget; eapply list_elem_of_In, list_elem_of_lookup_2, Hn |].
    cbn. auto.
  - repeat split. now destruct tf_has_s8.
Qed.

End Inputs.

(** ** The Add/AddN check of the matcher, and dangling inputs in the eliminator *)

Section Checks.
Context `{QuantizeGraphHelper}.

Lemma list_index_of_missing (l : list string) (x : string) :
  ~ In x l -> list_index_of l x = Raise ValueError.
Proof.
  induction l as [|y l IH]; intros Hnotin; [reflexivity |].
  cbn [list_index_of]. destruct (String.eqb_spec y x) as [-> | _].
  - exfalso. apply Hnotin. now left.
  - rewrite IH; [reflexivity |]. intros Hin. apply Hnotin. now right.
Qed.

Lemma list_index_of_first (pre post : list string) (x : string) :
  ~ In x pre -> list_index_of (pre ++ x :: post) x = Ok (length pre).
Proof.
  induction pre as [|y pre IH]; intros Hnotin; cbn [list_index_of app length].
  - now rewrite String.eqb_refl.
  - destruct (String.eqb_spec y x) as [-> | _].
    + exfalso. apply Hnotin. now left.
    + rewrite IH; [reflexivity |]. intros Hin. apply Hnotin. now right.
Qed.

(** From the position of the current node on, the scan finds nothing. *)
Lemma add_op_scan_after (self : Self) (cur : string) (cur_index : nat) :
  forall (inputs : list string) (ds : list node_details),
    Forall2 (fun i d => od_get (node_name_mapping self) (node_name_from_input i) = Ok d)
      inputs ds ->
    forall index : nat,
      cur_index <= index ->
      add_op_scan self cur cur_index index inputs = Ok true.
Proof.
  induction 1 as [|i d inputs ds Hd _ IH]; intros index Hle; [reflexivity |].
  cbn [add_op_scan]. rewrite Hd. cbn [bind].
  assert (Hlt : (index <? cur_index)%nat = false) by (apply Nat.ltb_ge; lia).
  rewrite Hlt, andb_false_r. cbn [andb]. apply IH. lia.
Qed.

Lemma add_op_scan_before (self : Self) (cur : string) (post : list string)
    (dpost : list node_details) (cur_index : nat) :
  Forall2 (fun i d => od_get (node_name_mapping self) (node_name_from_input i) = Ok d)
    post dpost ->
  forall (pre : list string) (dpre : list node_details),
    Forall2 (fun i d => od_get (node_name_mapping self) (node_name_from_input i) = Ok d)
      pre dpre ->
    forall index : nat,
      ~ In cur pre ->
      index + length pre = cur_index ->
      add_op_scan self cur cur_index index (pre ++ post)
      = Ok (forallb (fun d => String.eqb (op (node d)) "Dequantize") dpre).
Proof.
  intros Hpost. induction 1 as [|i d pre dpre Hd _ IH]; intros index Hnotin Hlen.
  - cbn [app forallb]. eapply add_op_scan_after; [exact Hpost |]. cbn in Hlen. lia.
  - cbn [app add_op_scan forallb]. rewrite Hd. cbn [bind].
    assert (Hne : String.eqb i cur = false).
    { apply String.eqb_neq. intros ->. apply Hnotin. now left. }
    assert (Hlt : (index <? cur_index)%nat = true).
    { apply Nat.ltb_lt. cbn in Hlen. lia. }
    rewrite Hne, Hlt. cbn [negb andb].
    destruct (String.eqb (op (node d)) "Dequantize"); cbn [negb andb].
    + apply IH; [| cbn in Hlen; lia]. intros Hin. apply Hnotin. now right.
    + reflexivity.
Qed.

(** X26: the Add/AddN check of the matcher.  When the next node of a
    chain is an [Add] or [AddN], it can be fused exactly if every
    operand it lists before the current node comes from a [Dequantize];
    operands after the current node are not looked at.  The current node
    is searched for by its bare name: when the consumer lists it only
    with a port suffix or as a control input, the check raises
    [ValueError]. *)
Theorem add_check_operands_before (self : Self) (cur next next_op : string)
    (dn : node_details) :
  str_in next_op ["Add"; "AddN"] = true ->
  od_get (node_name_mapping self) next = Ok dn ->
  (~ In cur (input (node dn)) ->
   add_op_quantizable self cur next next_op = Raise ValueError)
  /\ (forall pre post dpre dpost,
        input (node dn) = pre ++ cur :: post ->
        ~ In cur pre ->
        Forall2 (fun i d => od_get (node_name_mapping self) (node_name_from_input i) = Ok d)
          pre dpre ->
        Forall2 (fun i d => od_get (node_name_mapping self) (node_name_from_input i) = Ok d)
          (cur :: post) dpost ->
        add_op_quantizable self cur next next_op
        = Ok (forallb (fun d => String.eqb (op (node d)) "Dequantize") dpre)).
Proof.
  intros Hop Hnext. unfold add_op_quantizable. rewrite Hop, Hnext. cbn [bind]. split.
  - intros Hnotin. now rewrite list_index_of_missing.
  - intros pre post dpre dpost -> Hnotin Hpre Hpost.
    rewrite list_index_of_first by exact Hnotin. cbn [bind].
    now apply (add_op_scan_before self cur (cur :: post) dpost (length pre) Hpost
                 pre dpre Hpre 0).
Qed.

Lemma for_each_raises {A S} (body : S -> A -> result S) (a : A) (l : list A) :
  In a l ->
  (forall s, exists e, body s a = Raise e) ->
  forall s, exists e, for_each body l s = Raise e.
Proof.
  intros Hin Hraise. induction l as [|b l IH]; intros s; [destruct Hin |].
  cbn [for_each]. destruct Hin as [-> | Hin].
  - destruct (Hraise s) as [e ->]. eauto.
  - destruct (body s b) as [s'|e]; cbn [bind]; [now apply IH | eauto].
Qed.

(** X27: a [Quantize] or [QuantizeV2] node whose first input names a
    node that is not in the graph stops the eliminator.  The scan of
    that node raises [ValueError], whatever was recorded before, and
    [remove_redundant_quantization] returns no graph. *)
Theorem eliminator_dangling_quantize_input (g : GraphDef) (n : NodeDef) (i0 : string) :
  In n g ->
  str_in (op n) ["Quantize"; "QuantizeV2"] = true ->
  input n !! 0 = Some i0 ->
  ~ In (node_name_from_input i0) (map name g) ->
  (forall old_nodes_map inputs_to_rename,
     create_nodes_map g = Ok old_nodes_map ->
     scan_node old_nodes_map inputs_to_rename n = Raise ValueError)
  /\ (forall self, exists e, remove_redundant_quantization self g = Raise e).
Proof.
  intros Hin Hop Hi0 Hdangling.
  assert (Hscan : forall m R, create_nodes_map g = Ok m -> scan_node m R n = Raise ValueError).
  { intros m R Hmap. unfold scan_node. rewrite Hop. cbn [negb].
    rewrite (list_getitem_Ok _ _ _ Hi0). cbn [bind].
    destruct (create_nodes_map_step_Ok g ∅ (create_nodes_map_NoDup g m Hmap))
      as (m' & Hrun & _ & Hout).
    { intros n' _. apply lookup_empty. }
    unfold create_nodes_map in Hmap. rewrite Hrun in Hmap. injection Hmap as ->.
    now rewrite (Hout _ Hdangling), lookup_empty. }
  split; [exact Hscan |].
  intros self. unfold remove_redundant_quantization.
  destruct (create_nodes_map g) as [m|e] eqn:Hmap; cbn [bind]; [| eauto].
  destruct (for_each_raises (scan_node m) n g Hin) with (s := (∅ : gmap string string))
    as [e He].
  { intros R. exists ValueError. now apply Hscan. }
  rewrite He. cbn [bind]. eauto.
Qed.

End Checks.

(** * The properties on concrete graphs *)

#[local] Existing Instance helper_instance.

(** ** Inputs on which a described property does not hold *)

(** C5: in per-tensor mode the range node of the Requantize epilogue has
    no [clip_value_max] attribute at all, [is_relu6] or not. *)
Lemma requantization_range_without_clip :
  exists self' range_node requantize_node,
    _add_quantize_down_nodes examples.blank (examples.const "conv")
      "conv_eightbit_quantized" dtypes.quint8 true
    = Ok ("conv_eightbit_requantize", self')
    /\ output_graph self' = [range_node; requantize_node]
    /\ op range_node = "RequantizationRange"
    /\ attr range_node !! "clip_value_max" = None
    /\ attr range_node !! "clip_value_max" <> Some (AttrValue_f 6.0%float).
Proof.
  do 3 eexists. split; [vm_compute; reflexivity |].
  split; [reflexivity |]. split; [reflexivity |]. split; [reflexivity | discriminate].
Qed.

(** C3: a MatMul anchor without a ReLU before it, whose float input [x]
    is produced by a node that has not been emitted.  The described
    priority order, and the comment on the MatMul branch ("requires the
    T1 data type as quint8"), give unsigned 8-bit; the branch taken when
    the producer is not in the registry does not look at the op kind of
    the anchor, and the QuantizeV2 node emitted for [x] is typed signed
    8-bit. *)
Lemma matmul_unemitted_input_is_signed :
  (exists anchor,
     od_get (node_name_mapping examples.matmul_self) "mm" = Ok anchor
     /\ op (node anchor) = "MatMul" /\ input (node anchor) = ["x"; "w"])
  /\ output_node_maps examples.matmul_self !! "x" = None
  /\ described_dtype 1000 examples.matmul_self "mm" "x" = Ok dtypes.quint8
  /\ prologue_dtype 1000 examples.matmul_self "mm" "x" = Ok dtypes.qint8
  /\ exists names self' quantize_node,
       _add_eightbit_prologue_nodes 1000 examples.matmul_self "mm" = Ok (names, self')
       /\ output_graph self' !! 5 = Some quantize_node
       /\ op quantize_node = "QuantizeV2"
       /\ input quantize_node = ["x"; "mm_eightbit_min_x"; "mm_eightbit_max_x"]
       /\ attr quantize_node !! "T" = Some (AttrValue_type dtypes.qint8).
Proof.
  split; [eexists; repeat split; vm_compute; reflexivity |].
  split; [vm_compute; reflexivity |].
  split; [vm_compute; reflexivity |].
  split; [vm_compute; reflexivity |].
  do 3 eexists. split; [vm_compute; reflexivity |].
  repeat split; vm_compute; reflexivity.
Qed.

(** C2: a rule of one op kind matches an anchor whose output feeds two
    consumers. *)
Lemma single_op_rule_matches_shared_anchor :
  (exists anchor,
     od_get (node_name_mapping examples.pool_self) "pool" = Ok anchor
     /\ name (node anchor) = start_node_name examples.pool_self
     /\ output anchor = ["c1"; "c2"])
  /\ _is_match 1000 examples.pool_self [["MaxPool"]] = Ok (Some (["MaxPool"], ["pool"])).
Proof.
  split; [eexists; repeat split; vm_compute; reflexivity | vm_compute; reflexivity].
Qed.

(** C4: the pass rewrites the inputs of the consumer [C] inside the
    graph it was given. *)
Lemma eliminator_mutates_input_graph :
  exists returned after self',
    remove_redundant_quantization examples.blank examples.pair_graph
    = Ok (returned, after, self')
    /\ examples.inputs_of examples.pair_graph !! 8 = Some ("C", ["Q1"; "Q1:1"; "Q1:2"])
    /\ examples.inputs_of after !! 8 = Some ("C", ["S"; "m0"; "M0"])
    /\ after <> examples.pair_graph.
Proof.
  do 3 eexists. split; [vm_compute; reflexivity |].
  split; [reflexivity |]. split; [vm_compute; reflexivity |].
  intros E. apply (f_equal (fun g => examples.inputs_of g !! 8)) in E.
  vm_compute in E. discriminate.
Qed.

(** C9: on two round trips in a row the first run leaves [C] reading the
    first Quantize node, and the second run, on the output of the first,
    rewires [C] again.  (Without a reset of the registry in between, the
    second run fails on the first node.) *)
Lemma eliminator_second_run_rewires :
  exists g1 after1 self1 g2 after2 self2,
    remove_redundant_quantization examples.blank examples.chain_graph
    = Ok (g1, after1, self1)
    /\ remove_redundant_quantization (_reset_output_node_maps self1) g1
       = Ok (g2, after2, self2)
    /\ examples.inputs_of g1 !! 12 = Some ("C", ["Q1"; "Q1:1"; "Q1:2"])
    /\ examples.inputs_of g2 !! 12 = Some ("C", ["S"; "m0"; "M0"])
    /\ g2 <> g1
    /\ remove_redundant_quantization self1 g1 = Raise ValueError.
Proof.
  do 6 eexists. split; [vm_compute; reflexivity |].
  split; [vm_compute; reflexivity |].
  split; [vm_compute; reflexivity |]. split; [vm_compute; reflexivity |].
  split; [| vm_compute; reflexivity].
  intros E. apply (f_equal (fun g => examples.inputs_of g !! 12)) in E.
  vm_compute in E. discriminate.
Qed.

(** The scan leaves an unset [T] in a [Dequantize] and a [QuantizeV2]
    node that declared none, in the graph returned and in the graph
    passed in. *)
Lemma eliminator_stores_unset_T :
  exists returned after self',
    remove_redundant_quantization examples.blank cases.untyped_pair_graph
    = Ok (returned, after, self')
    /\ map attr cases.untyped_pair_graph = [∅; ∅; ∅; ∅; ∅; ∅; ∅; ∅]
    /\ map attr after
       = [∅; ∅; ∅; ∅; {["T" := AttrValue_unset]}; ∅; ∅; {["T" := AttrValue_unset]}]
    /\ returned = after.
Proof.
  do 3 eexists. split; [vm_compute; reflexivity |].
  split; [vm_compute; reflexivity |]. split; vm_compute; reflexivity.
Qed.

(** C8: on a 1x1x2x2 Conv2D weight whose first channel is zero, the
    divisor of that channel is [epsilon] as the [float32] array stores
    it, which is below 1e-4; the weight 1.5 of the other channel, of
    range 3, is quantized to 63, the truncation of 63.5.  A 2x2 MatMul
    weight raises before any division. *)
Lemma per_channel_divisor_below_epsilon :
  quantize_weight_values (fun _ => 0%Z) examples.no_kernel "Conv2D"
    examples.zero_channel_weights true "SCALED"
  = Ok ([0; 63; 0; -127]%Z,
        value_floats (mk_ndarray [2] [float32 (- epsilon); (- 3)%float]),
        value_floats (mk_ndarray [2] [float32 epsilon; 3%float]))
  /\ (float32 epsilon <? epsilon)%float = true
  /\ ~ at_least_epsilon (float32 epsilon)
  /\ div32 (mul32 1.5 127) 3 = 63.5%float
  /\ quantize_weight_values (fun _ => 0%Z) examples.no_kernel "MatMul"
       cases.matmul_weights true "SCALED" = Raise AxisError.
Proof.
  split; [vm_compute; reflexivity |]. split; [vm_compute; reflexivity |].
  split; [| split; vm_compute; reflexivity].
  intros [Hlt _]. vm_compute in Hlt. discriminate.
Qed.

(** ** Instances of the theorems *)

Lemma scan_records_iff_same_source_witness :
  same_source examples.pair_nodes_map examples.mn1 examples.mx1
  /\ scan_node examples.pair_nodes_map ∅ examples.Q1
     = Ok (recorded ∅ examples.Q1 "S" "m0" "M0").
Proof.
  assert (Hsame : same_source examples.pair_nodes_map examples.mn1 examples.mx1).
  { exists "D0", "D0". split; [reflexivity |]. split; [reflexivity |]. now left. }
  split; [exact Hsame |].
  refine (proj1 (scan_records_iff_same_source examples.pair_nodes_map ∅
                   examples.Q1 examples.D0 examples.mn1 examples.mx1
                   "D0" "mn1" "mx1" "S" "m0" "M0" [] []
                   _ _ _ _ _ _ _ _ _ _) Hsame);
    vm_compute; reflexivity.
Defined.

Lemma shared_anchor_never_matches_witness :
  _is_match 1000 examples.pool_self [["MaxPool"; "Relu"]] = Ok None.
Proof.
  refine (proj2 (proj2 (shared_anchor_never_matches 1000 examples.pool_self
                          [["MaxPool"; "Relu"]] _ _)) _ _ _ _).
  - intros key d Hget Hname. vm_compute in Hget.
    repeat match type of Hget with
           | (if ?b then _ else _) = _ =>
               destruct b; [injection Hget as <-; first [discriminate Hname | cbn; lia] |]
           end.
    discriminate.
  - intros k v key d _ _ _ _ [E | []]. discriminate E.
  - repeat constructor; discriminate.
  - vm_compute. lia.
  - reflexivity.
  - intros key d next rest Hget Hname Hout.
    let m := eval vm_compute in (node_name_mapping examples.pool_self) in
    change (node_name_mapping examples.pool_self) with m in Hget.
    cbn [od_get] in Hget.
    repeat match type of Hget with
           | (if (?a =? key)%string then _ else _) = _ =>
               destruct (String.eqb_spec a key) as [<- | _];
               [injection Hget as <-;
                first [ vm_compute in Hname; discriminate Hname
                      | injection Hout as <- <-; do 2 eexists;
                        split; vm_compute; reflexivity ] |]
           end.
    discriminate.
Defined.

Lemma prologue_dtype_priority_matmul :
  prologue_dtype 1000 examples.matmul_self "mm" "x" = Ok dtypes.qint8.
Proof.
  assert (Hanchor : od_get (node_name_mapping examples.matmul_self) "mm"
                    = Ok examples.matmul_anchor) by (vm_compute; reflexivity).
  destruct (prologue_dtype_priority 1000 examples.matmul_self "mm" "x"
              examples.matmul_anchor eq_refl Hanchor) as (_ & Hrelu & _).
  assert (Hlook : _find_relu_node 1000 examples.matmul_self (node examples.matmul_anchor)
                  = Ok false) by (vm_compute; reflexivity).
  destruct (Hrelu false Hlook) as [_ Hnone].
  apply Hnone. vm_compute; reflexivity.
Defined.

Lemma eliminator_rewires_in_place_witness :
  recorded_rewires examples.pair_graph = Ok examples.pair_rewires
  /\ exists self' g1,
       remove_redundant_quantization examples.blank examples.pair_graph
       = Ok (g1, g1, self')
       /\ output_graph self' = g1.
Proof.
  assert (Hscan : recorded_rewires examples.pair_graph = Ok examples.pair_rewires)
    by (vm_compute; reflexivity).
  split; [exact Hscan |].
  destruct (eliminator_rewires_in_place examples.blank examples.pair_graph
              examples.pair_rewires Hscan) as (self' & g1 & Hrun & Hgraph & _).
  - intros n _. apply lookup_empty.
  - exists self', g1. split; [exact Hrun | exact Hgraph].
Defined.

Lemma quantize_down_clip_value_witness :
  exists range_node requantize_node self',
    _add_quantize_down_nodes examples.blank (examples.const "conv")
      "conv_eightbit_quantized" dtypes.quint8 false
    = Ok ("conv_eightbit_requantize", self')
    /\ output_graph self' = [range_node; requantize_node]
    /\ attr range_node !! "clip_value_max" = None.
Proof.
  destruct (quantize_down_clip_value examples.blank (examples.const "conv")
              "conv_eightbit_quantized" dtypes.quint8 false)
    as (range_node & requantize_node & self' & Hrun & Hgraph & _ & _ & _ & _ & Htensor);
    [reflexivity | reflexivity |].
  exists range_node, requantize_node, self'.
  split; [exact Hrun |]. split; [exact Hgraph |]. now apply Htensor.
Defined.

Lemma memo_at_most_one_subgraph_witness :
  exists self1,
    _eightbitize_input_to_node examples.blank "conv_eightbit" "x" "dims_a" "dims_b"
      dtypes.quint8
    = Ok (("conv_eightbit_quantize_x", "conv_eightbit_quantize_x:1",
           "conv_eightbit_quantize_x:2"), self1)
    /\ map op (output_graph self1) = ["Reshape"; "Min"; "Max"; "QuantizeV2"]
    /\ _eightbitize_input_to_node self1 "pool_eightbit" "x" "dims_c" "dims_d" dtypes.qint8
       = Ok (("conv_eightbit_quantize_x", "conv_eightbit_quantize_x:1",
              "conv_eightbit_quantize_x:2"), self1).
Proof.
  destruct (memo_at_most_one_subgraph 1000 examples.blank "conv_eightbit" "x"
              "dims_a" "dims_b" dtypes.quint8)
    as (self1 & n1 & n2 & n3 & n4 & Hrun & Hgraph & Hops & _ & _ & Hlater);
    try reflexivity.
  exists self1. split; [exact Hrun |]. split.
  - rewrite Hgraph. exact Hops.
  - apply Hlater; [constructor | reflexivity].
Defined.

Lemma per_channel_divisor_at_least_epsilon_witness :
  exists q mins divisors channels,
    quantize_weight_values (fun _ => 0%Z) examples.no_kernel "Conv2D"
      examples.zero_channel_weights true "SCALED"
    = Ok (q, value_floats (mk_ndarray channels mins),
          value_floats (mk_ndarray channels divisors))
    /\ divisors !! 0 = Some (float32 epsilon)
    /\ mins !! 0 = Some (float32 (- epsilon)%float).
Proof.
  destruct (proj1 (per_channel_divisor_at_least_epsilon (fun _ => 0%Z) examples.no_kernel
                     "Conv2D" true examples.zero_channel_weights "SCALED")
              (leading_rows 3 examples.zero_channel_weights))
    as (q & mins & divisors & channels & Hrun & _ & _ & Hzero).
  - apply conv_path; [reflexivity | reflexivity | cbn; lia].
  - vm_compute. discriminate.
  - exists q, mins, divisors, channels. split; [exact Hrun |].
    assert (Hz : zero_channel (leading_rows 3 examples.zero_channel_weights) 0).
    { vm_compute. constructor; [left; reflexivity |].
      constructor; [right; reflexivity | constructor]. }
    destruct (Hzero 0 Hz) as (Hd & Hm & _). now split.
Defined.

Lemma eliminator_second_run_fixpoint_witness :
  exists self1 self2 g1,
    remove_redundant_quantization examples.blank examples.pair_graph = Ok (g1, g1, self1)
    /\ recorded_rewires g1 = Ok examples.pair_rewires
    /\ remove_redundant_quantization (_reset_output_node_maps self1) g1
       = Ok (g1, g1, self2).
Proof.
  destruct (eliminator_second_run_fixpoint examples.blank examples.pair_graph
              examples.pair_rewires)
    as (self1 & self2 & g1 & Hrun1 & Hscan2 & Hrun2 & _).
  - vm_compute; reflexivity.
  - intros n _. apply lookup_empty.
  - split.
    + intros n i Hn Hins Hi.
      unfold examples.pair_graph, examples.pair_prefix in Hn. cbn [app In] in Hn.
      repeat (destruct Hn as [<- | Hn];
              [first [ vm_compute in Hins; discriminate Hins
                     | cbn in Hi;
                       repeat (destruct Hi as [<- | Hi]; [vm_compute; reflexivity |]);
                       destruct Hi ] |]).
      destruct Hn.
    + intros k v Hkv. unfold examples.pair_rewires, recorded in Hkv.
      apply lookup_insert_Some in Hkv as [[_ <-] | [_ Hkv]]; [vm_compute; reflexivity |].
      apply lookup_insert_Some in Hkv as [[_ <-] | [_ Hkv]]; [vm_compute; reflexivity |].
      apply lookup_insert_Some in Hkv as [[_ <-] | [_ Hkv]]; [vm_compute; reflexivity |].
      rewrite lookup_empty in Hkv. discriminate.
  - exists self1, self2, g1. auto.
Defined.

Lemma memo_key_ignores_dtype_witness :
  exists triple self1,
    _eightbitize_input_to_node examples.blank "conv_eightbit" "x" "dims_a" "dims_b"
      dtypes.quint8 = Ok (triple, self1)
    /\ _eightbitize_input_to_node self1 "conv_eightbit" "x" "dims_a" "dims_b" dtypes.qint8
       = Ok (triple, self1).
Proof.
  destruct (_eightbitize_input_to_node examples.blank "conv_eightbit" "x" "dims_a" "dims_b"
              dtypes.quint8) as [[triple self1] | e] eqn:Hfirst;
    [| vm_compute in Hfirst; discriminate].
  exists triple, self1. split; [reflexivity |].
  apply (memo_key_ignores_dtype examples.blank self1 "conv_eightbit" "x" "dims_a" "dims_b"
           dtypes.quint8 triple Hfirst).
Defined.

(** ** Further instances *)

(** Case analysis on the key of a lookup in a concrete index. *)
Ltac index_cases Hget tac :=
  match type of Hget with
  | od_get ?m _ = _ =>
      let m' := eval vm_compute in m in
      change m with m' in Hget; cbn [od_get] in Hget;
      repeat match type of Hget with
             | (if (?a =? ?key)%string then _ else _) = _ =>
                 destruct (String.eqb_spec a key) as [<- | _];
                 [injection Hget as <-; tac |]
             end;
      try discriminate Hget
  end.

Lemma parse_graph_index_witness :
  exists m,
    _parse_graph examples.pool_graph = Ok m
    /\ od_keys m = ["x"; "pool"; "c1"; "c2"]
    /\ od_get m "pool"
       = Ok {| node := helper.create_node "MaxPool" "pool" ["x"]; input_node := [];
               output := ["c1"; "c2"] |}.
Proof.
  destruct (_parse_graph examples.pool_graph) as [m|e] eqn:Hrun;
    [| vm_compute in Hrun; discriminate].
  exists m. split; [reflexivity |].
  destruct (parse_graph_index examples.pool_graph m Hrun) as (Hkeys & _ & Hget).
  split; [exact Hkeys |].
  apply (Hget (helper.create_node "MaxPool" "pool" ["x"])).
  right. now left.
Defined.

Lemma pass_keeps_configuration_witness :
  same_settings examples.blank cases.taken_self.
Proof.
  apply (pass_keeps_configuration 1000 examples.blank cases.taken_self).
  eapply pass_next; [| apply pass_refl].
  apply (step_add_output_graph_node 1000 examples.blank (examples.const "S")).
  vm_compute; reflexivity.
Defined.

Lemma pass_step_keeps_registry_witness :
  cases.taken_self = _reset_output_node_maps examples.blank
  \/ (output_node_maps examples.blank ⊆ output_node_maps cases.taken_self
      /\ (registry_consistent examples.blank -> registry_consistent cases.taken_self)).
Proof.
  apply (pass_step_keeps_registry 1000 examples.blank cases.taken_self).
  apply (step_add_output_graph_node 1000 examples.blank (examples.const "S")).
  vm_compute; reflexivity.
Defined.

Lemma find_relu_limit_monotone_witness :
  _find_relu_node 1000 examples.pool_self (helper.create_node "MaxPool" "pool" ["x"])
  = Ok false.
Proof.
  apply (find_relu_limit_monotone 2 1000).
  - vm_compute; reflexivity.
  - discriminate.
  - lia.
Defined.

Lemma find_relu_cycle_overflows_witness :
  _find_relu_node 1000 cases.loop_self cases.loop_node = Raise RecursionError.
Proof.
  apply (find_relu_cycle_overflows cases.loop_self (fun n => n = cases.loop_node));
    [| reflexivity].
  intros n ->. exists cases.loop_node. split; [reflexivity |].
  split; [reflexivity |]. split; [reflexivity |]. split; [reflexivity |].
  exists "p", {| node := cases.loop_node; input_node := []; output := ["p"] |}.
  split; [reflexivity |]. split; [vm_compute; reflexivity | reflexivity].
Defined.

Lemma conv_chain :
  fused_chain (cases.conv_self "conv" true) ["BiasAdd"; "Relu"] "conv" ["bias"; "relu"].
Proof.
  eapply (chain_step _ "conv" cases.conv_anchor "bias"
            {| node := cases.bias_node; input_node := []; output := ["relu"] |});
    try (vm_compute; reflexivity).
  eapply (chain_step _ "bias" _ "relu"
            {| node := cases.relu_node; input_node := []; output := [] |});
    try (vm_compute; reflexivity).
  constructor.
Defined.

Lemma is_match_sound_witness :
  In cases.conv_rule [cases.conv_rule]
  /\ length ["conv"; "bias"; "relu"] = length cases.conv_rule
  /\ exists pos first rest key d tail,
       cases.conv_rule = first :: rest
       /\ op_list (cases.conv_self "conv" true) !! pos = Some first
       /\ od_keys (node_name_mapping (cases.conv_self "conv" true)) !! pos = Some key
       /\ od_get (node_name_mapping (cases.conv_self "conv" true)) key = Ok d
       /\ name (node d) = start_node_name (cases.conv_self "conv" true)
       /\ ["conv"; "bias"; "relu"] = key :: tail
       /\ fused_chain (cases.conv_self "conv" true) rest key tail.
Proof.
  apply (is_match_sound 1000 (cases.conv_self "conv" true) [cases.conv_rule]).
  vm_compute; reflexivity.
Defined.

Lemma is_match_without_start_node_witness :
  _is_match 1000 (cases.conv_self "absent" true) [cases.conv_rule] = Ok None.
Proof.
  apply (is_match_without_start_node 1000 (cases.conv_self "absent" true)).
  - repeat constructor. discriminate.
  - vm_compute. lia.
  - intros key d Hget Hname.
    index_cases Hget ltac:(vm_compute in Hname; discriminate Hname).
Defined.

Lemma is_match_rejects_conv_without_relu_witness :
  _is_match 1000 (cases.conv_self "conv" false) [cases.conv_rule] = Ok None.
Proof.
  apply (is_match_rejects_conv_without_relu 1000 (cases.conv_self "conv" false)).
  - repeat constructor. discriminate.
  - vm_compute. lia.
  - reflexivity.
  - intros k v key d Hv Hkey Hget Hname.
    let keys := eval vm_compute in
      (od_keys (node_name_mapping (cases.conv_self "conv" false))) in
    change (od_keys (node_name_mapping (cases.conv_self "conv" false))) with keys in Hkey.
    destruct k as [|k].
    + vm_compute in Hv. injection Hv as <-.
      injection Hkey as <-.
      vm_compute in Hget. injection Hget as <-.
      split; vm_compute; reflexivity.
    + exfalso.
      do 5 (destruct k as [|k];
            [injection Hkey as <-; vm_compute in Hget; injection Hget as <-;
             vm_compute in Hname; discriminate Hname |]).
      discriminate Hkey.
Defined.

Lemma is_match_complete_witness :
  _is_match 1000 (cases.conv_self "conv" true) [cases.conv_rule]
  = Ok (Some (cases.conv_rule, ["conv"; "bias"; "relu"])).
Proof.
  apply (is_match_complete 1000 (cases.conv_self "conv" true) "Conv2D" ["BiasAdd"; "Relu"]
           [] 0 "conv" cases.conv_anchor ["bias"; "relu"]).
  - constructor.
  - vm_compute; reflexivity.
  - vm_compute; reflexivity.
  - vm_compute; reflexivity.
  - reflexivity.
  - intros j key' d' Hj. lia.
  - intros Hconv. vm_compute in Hconv. discriminate Hconv.
  - exact conv_chain.
Defined.

Lemma eliminator_success_inv_witness :
  exists r g' self' R,
    remove_redundant_quantization examples.blank examples.pair_graph = Ok (r, g', self')
    /\ recorded_rewires examples.pair_graph = Ok R
    /\ r = map (rewire_node R) (scanned examples.pair_graph)
    /\ NoDup (map name examples.pair_graph).
Proof.
  destruct (remove_redundant_quantization examples.blank examples.pair_graph)
    as [[[r g'] self']|e] eqn:Hrun; [| vm_compute in Hrun; discriminate].
  destruct (eliminator_success_inv examples.blank self' examples.pair_graph r g' Hrun)
    as (R & Hscan & Hr & _ & _ & Hnodup & _).
  exists r, g', self', R. auto.
Defined.

Lemma eliminator_registered_name_raises_witness :
  exists e,
    remove_redundant_quantization cases.taken_self examples.pair_graph = Raise e
    /\ (is_Ok (recorded_rewires examples.pair_graph) -> e = ValueError).
Proof.
  apply (eliminator_registered_name_raises cases.taken_self examples.pair_graph
           (examples.const "S") (examples.const "S")).
  - now left.
  - vm_compute; reflexivity.
Defined.

Lemma eliminator_rerun_without_reset_raises_witness :
  exists g1 g' self1 e,
    remove_redundant_quantization examples.blank examples.pair_graph = Ok (g1, g', self1)
    /\ remove_redundant_quantization self1 g1 = Raise e.
Proof.
  destruct (remove_redundant_quantization examples.blank examples.pair_graph)
    as [[[g1 g'] self1]|e] eqn:Hrun; [| vm_compute in Hrun; discriminate].
  destruct (eliminator_rerun_without_reset_raises examples.blank self1 examples.pair_graph
              g1 g' Hrun) as [e He]; [discriminate |].
  exists g1, g', self1, e. auto.
Defined.

Lemma eliminator_identity_without_quantize_witness :
  exists self',
    remove_redundant_quantization examples.blank examples.pool_graph
    = Ok (examples.pool_graph, examples.pool_graph, self')
    /\ output_graph self' = examples.pool_graph
    /\ quantized_node_dict self' = quantized_node_dict examples.blank.
Proof.
  apply (eliminator_identity_without_quantize examples.blank examples.pool_graph).
  - repeat constructor.
  - apply (bool_decide_unpack _). vm_compute; reflexivity.
  - intros n _. apply lookup_empty.
Defined.

Lemma prologue_input_layout_witness :
  exists all_input_names self',
    _add_eightbit_prologue_nodes 1000 examples.matmul_self "mm" = Ok (all_input_names, self')
    /\ exists controls datas,
         _get_node_input examples.matmul_self "mm" = Ok (controls, datas)
         /\ length all_input_names = 3 * length datas + length controls.
Proof.
  destruct (_add_eightbit_prologue_nodes 1000 examples.matmul_self "mm")
    as [[all self']|e] eqn:Hrun; [| vm_compute in Hrun; discriminate].
  destruct (prologue_input_layout 1000 examples.matmul_self self' "mm" all Hrun)
    as (controls & datas & tuples & Hin & _ & _ & Hlen).
  exists all, self'. split; [reflexivity |]. exists controls, datas. auto.
Defined.

Lemma prologue_twice_raises_witness :
  exists all_input_names self1,
    _add_eightbit_prologue_nodes 1000 examples.matmul_self "mm" = Ok (all_input_names, self1)
    /\ _add_eightbit_prologue_nodes 1000 self1 "mm" = Raise ValueError.
Proof.
  destruct (_add_eightbit_prologue_nodes 1000 examples.matmul_self "mm")
    as [[all self1]|e] eqn:Hrun; [| vm_compute in Hrun; discriminate].
  exists all, self1. split; [reflexivity |].
  apply (prologue_twice_raises 1000 examples.matmul_self self1 self1 "mm" all Hrun);
    reflexivity.
Defined.

Lemma single_input_result_is_unsigned_witness :
  exists self' dequantize_node,
    eightbitize_single_input_tensor_node 1000 examples.pool_self
      (helper.create_node "MaxPool" "pool" ["x"]) (fun _ quantized => quantized) = Ok self'
    /\ output_node_maps self' !! "pool" = Some dequantize_node
    /\ prologue_dtype 1000 self' "c1" "pool" = Ok dtypes.quint8.
Proof.
  destruct (eightbitize_single_input_tensor_node 1000 examples.pool_self
              (helper.create_node "MaxPool" "pool" ["x"]) (fun _ quantized => quantized))
    as [self'|e] eqn:Hrun; [| vm_compute in Hrun; discriminate].
  destruct (single_input_result_is_unsigned 1000 examples.pool_self self'
              (helper.create_node "MaxPool" "pool" ["x"]) (fun _ quantized => quantized) Hrun)
    as (dq & _ & Hreg & _ & _ & _ & _ & Hdtype).
  exists self', dq. split; [reflexivity |]. split; [exact Hreg |].
  apply Hdtype.
  pose proof (single_input_emits 1000 _ _ _ _ Hrun) as Hemits.
  apply emits_configuration in Hemits as (_ & _ & _ & _ & -> & _). reflexivity.
Defined.

Lemma per_channel_ranges_symmetric_witness :
  exists q channels mins maxs,
    quantize_weight_values (fun _ => 0%Z) examples.no_kernel "Conv2D"
      examples.zero_channel_weights true "SCALED"
    = Ok (q, value_floats (mk_ndarray channels mins),
          value_floats (mk_ndarray channels maxs))
    /\ mins = map PrimFloat.opp maxs.
Proof.
  destruct (quantize_weight_values (fun _ => 0%Z) examples.no_kernel "Conv2D"
              examples.zero_channel_weights true "SCALED")
    as [[[q mn] mx]|e] eqn:Hrun; [| vm_compute in Hrun; discriminate].
  destruct (per_channel_ranges_symmetric (fun _ => 0%Z) examples.no_kernel "Conv2D"
              examples.zero_channel_weights true "SCALED" q mn mx eq_refl Hrun)
    as (channels & mins & maxs & -> & -> & Hsym & _).
  exists q, channels, mins, maxs. auto.
Defined.

Lemma quantize_weight_errors_witness :
  _intel_cpu_quantize_weight_eightbit (fun _ => 0%Z) examples.no_kernel examples.blank
    "Relu" cases.weight_node true "SCALED" = Raise UnboundLocalError.
Proof.
  apply (quantize_weight_errors (fun _ => 0%Z) examples.no_kernel examples.blank "Relu"
           cases.weight_node true "SCALED" examples.zero_channel_weights).
  - vm_compute; reflexivity.
  - reflexivity.
Defined.

Lemma quantize_weight_emits_dequantize_witness :
  exists self' dequantize_node,
    _intel_cpu_quantize_weight_eightbit (fun _ => 0%Z) examples.no_kernel examples.blank
      "Conv2D" cases.weight_node true "SCALED" = Ok self'
    /\ output_node_maps self' !! "w" = Some dequantize_node
    /\ attr_get dequantize_node "T" = AttrValue_type dtypes.qint8.
Proof.
  destruct (_intel_cpu_quantize_weight_eightbit (fun _ => 0%Z) examples.no_kernel
              examples.blank "Conv2D" cases.weight_node true "SCALED")
    as [self'|e] eqn:Hrun; [| vm_compute in Hrun; discriminate].
  destruct (quantize_weight_emits_dequantize 1000 (fun _ => 0%Z) examples.no_kernel
              examples.blank self' "Conv2D" cases.weight_node true "SCALED" Hrun)
    as (c & mn & mx & dq & _ & _ & _ & _ & _ & HT & Hreg & _).
  exists self', dq. auto.
Defined.

Lemma init_op_list_aligned_witness :
  exists self,
    __init__ true cases.conv_graph ["relu"] [cases.conv_rule] false "conv" "cpu" false true
    = Ok self
    /\ op_list (_get_op_list self)
       = ["Conv2D"; "BiasAdd"; "Relu"; "Placeholder"; "Const"; "Const"]
    /\ od_keys (node_name_mapping (_get_op_list self))
       = ["conv"; "bias"; "relu"; "x"; "w"; "b"].
Proof.
  destruct (__init__ true cases.conv_graph ["relu"] [cases.conv_rule] false "conv" "cpu"
              false true) as [self|e] eqn:Hrun; [| vm_compute in Hrun; discriminate].
  destruct (init_op_list_aligned true cases.conv_graph ["relu"] [cases.conv_rule] false
              "conv" "cpu" false true self Hrun) as (Hops & Hkeys & _).
  exists self. auto.
Defined.

Lemma add_check_operands_before_witness :
  add_op_quantizable cases.add_self "conv" "add" "Add" = Ok true.
Proof.
  refine (proj2 (add_check_operands_before cases.add_self "conv" "add" "Add"
                   {| node := cases.add_node; input_node := []; output := [] |} _ _)
            ["side"] []
            [{| node := cases.side_node; input_node := []; output := ["add"] |}]
            [{| node := cases.conv_node; input_node := []; output := ["add"] |}]
            _ _ _ _).
  - reflexivity.
  - vm_compute; reflexivity.
  - reflexivity.
  - intros [E | []]. discriminate E.
  - constructor; [vm_compute; reflexivity | constructor].
  - constructor; [vm_compute; reflexivity | constructor].
Defined.

Lemma eliminator_dangling_quantize_input_witness :
  exists e, remove_redundant_quantization examples.blank cases.dangling_graph = Raise e.
Proof.
  refine (proj2 (eliminator_dangling_quantize_input cases.dangling_graph
                   (helper.create_node "QuantizeV2" "q" ["gone"; "mn"; "mx"]) "gone"
                   _ _ _ _) examples.blank).
  - now left.
  - reflexivity.
  - reflexivity.
  - vm_compute. intros [E | [E | [E | []]]]; discriminate E.
Defined.
